(** * Secondary-structure predictor and knot analyzer: a shallow embedding

    The development follows [src/src/structure_predictor.py] (class
    [StructurePredictor]), [src/knot_analyzer.py] (class [KnotAnalyzer]) and
    [src/src/config.py]; of [src/src/sequence_parser.py] it follows the
    methods that work on strings, of [src/src/bioinformatics_analyzer.py] the
    method [_metrics], and of [src/visualization.py] the method
    [_get_base_pair_arcs].

    Conventions of the embedding:
    - Python [int] is [Z]; a Python [str] and a Python list of characters are
      both [list ascii];
    - the numpy score matrix is a list of rows; its cells hold pair counts,
      which are integral floats, so a cell is a [Z];
    - the remaining floating-point quantities of the knot analyzer, of the
      parser and of the metrics are idealised as rationals ([Q]); the one
      non-number that matters, the [nan] produced by the mean of an empty
      list, is kept explicit;
    - subscripting follows Python: a negative index counts from the end and
      an index outside [-len, len) raises [IndexError];
    - exceptions are an explicit result type threaded by a monad;
    - the interpreter's recursion limit is a parameter of the one recursive
      procedure of the source, the inner function of [traceback]: [frames]
      is the number of call frames that are still free when [traceback]
      makes the first call of [traceback_recursive].  A call that finds no
      free frame raises [RecursionError].  The other calls of the source
      nest to a fixed depth and are not counted. *)

From Stdlib Require Import ZArith QArith Qabs Qminmax Ascii String Lia Lqa Sorted.
From stdpp Require Import base tactics option list numbers.

Open Scope Z_scope.

(** ** Exceptions *)

Inductive exn : Set := IndexError | ValueError | RecursionError.

(** [OutOfFuel] is not a Python outcome: it is what the fuel-bounded model of
    a [while] loop answers when its fuel is too small.  The theorems below
    show that the fuel handed out by [extract_motifs] is always enough. *)
Inductive result (A : Type) : Type :=
| Ok (a : A)
| Raise (e : exn)
| OutOfFuel.
Arguments Ok {A} a.
Arguments Raise {A} e.
Arguments OutOfFuel {A}.

#[global] Instance result_ret : MRet result := λ A a, Ok a.
#[global] Instance result_bind : MBind result := λ A B f m,
  match m with
  | Ok a => f a
  | Raise e => Raise e
  | OutOfFuel => OutOfFuel
  end.

(** [for x in xs: body], the state being threaded through the iterations. *)
Fixpoint for_each {A S : Type} (xs : list A) (body : A → S → result S) (s : S)
  : result S :=
  match xs with
  | [] => Ok s
  | x :: xs' => s' ← body x s; for_each xs' body s'
  end.

(** ** Python built-ins *)

Module Py.

(** [range(lo, hi)] *)
Definition range (lo hi : Z) : list Z := seqZ lo (hi - lo).

(** [range(lo, hi, step)]; a zero step is a [ValueError]. *)
Definition range_step (lo hi step : Z) : result (list Z) :=
  if step =? 0 then Raise ValueError
  else
    let count :=
      if 0 <? step then (hi - lo + step - 1) / step
      else (lo - hi - step - 1) / (- step) in
    Ok ((λ k : nat, lo + Z.of_nat k * step) <$> seq 0 (Z.to_nat count)).

(** Index normalisation shared by [str], [list] and numpy subscripting. *)
Definition index (len : nat) (i : Z) : result nat :=
  if (0 <=? i) && (i <? Z.of_nat len) then Ok (Z.to_nat i)
  else if (- Z.of_nat len <=? i) && (i <? 0) then Ok (Z.to_nat (i + Z.of_nat len))
  else Raise IndexError.

(** [l[i]] *)
Definition getitem {A : Type} (l : list A) (i : Z) : result A :=
  n ← index (length l) i;
  match l !! n with
  | Some x => Ok x
  | None => Raise IndexError
  end.

(** [l[i] = x] *)
Definition setitem {A : Type} (l : list A) (i : Z) (x : A) : result (list A) :=
  n ← index (length l) i;
  Ok (<[n:=x]> l).

(** [s[lo:hi]]: a negative bound counts from the end, both bounds are
    clipped to the string, and nothing is raised. *)
Definition clip (len : nat) (x : Z) : nat :=
  Z.to_nat (Z.max 0 (Z.min (Z.of_nat len) (if x <? 0 then x + Z.of_nat len else x))).

Definition slice {A : Type} (l : list A) (lo hi : Z) : list A :=
  take (clip (length l) hi - clip (length l) lo)%nat (drop (clip (length l) lo) l).

(** [c * n] for a one-character string [c]. *)
Definition repeat_char (c : ascii) (n : Z) : list ascii :=
  replicate (Z.to_nat n) c.

(** [max(xs)] on a list; the empty list is a [ValueError]. *)
Definition max_list (xs : list Q) : result Q :=
  match xs with
  | [] => Raise ValueError
  | x :: xs' => Ok (fold_left (λ m y, if Qlt_le_dec m y then y else m) xs' x)
  end.

End Py.

(** ** The numpy score matrix *)

Module Np.

Abbreviation matrix := (list (list Z)).

(** [np.zeros((rows, cols))] *)
Definition zeros (rows cols : nat) : matrix := replicate rows (replicate cols 0).

(** [dp[i][j]] *)
Definition get (dp : matrix) (i j : Z) : result Z :=
  row ← Py.getitem dp i; Py.getitem row j.

(** [dp[i][j] = v]: [dp[i]] is a view of row [i], written in place. *)
Definition set (dp : matrix) (i j : Z) (v : Z) : result matrix :=
  row ← Py.getitem dp i;
  row' ← Py.setitem row j v;
  Py.setitem dp i row'.

End Np.

(** ** [config.py] *)

Module Config.
Definition WINDOW_SIZE : Z := 30.
Definition MIN_STEM_LENGTH : Z := 4.
Definition WRITHE_THRESHOLD : Q := 8.
Definition CROSSING_NUMBER_THRESHOLD : Z := 2.
End Config.

(** ** [StructurePredictor] *)

Definition chr (s : string) : ascii :=
  match s with
  | String c _ => c
  | EmptyString => Ascii.zero
  end.

Definition str (s : string) : list ascii := list_ascii_of_string s.

Definition LPAREN : ascii := chr "(".
Definition RPAREN : ascii := chr ")".
Definition DOT : ascii := chr ".".

(** [self.bp_complement = {'A': 'T', 'T': 'A', 'G': 'C', 'C': 'G', 'U': 'A'}],
    read with [.get(base, None)]. *)
Definition bp_complement : list (ascii * ascii) :=
  [(chr "A", chr "T"); (chr "T", chr "A"); (chr "G", chr "C");
   (chr "C", chr "G"); (chr "U", chr "A")].

Fixpoint dict_get (d : list (ascii * ascii)) (key : ascii) : option ascii :=
  match d with
  | [] => None
  | (k, v) :: d' => if Ascii.eqb k key then Some v else dict_get d' key
  end.

(** [base2 == self.bp_complement.get(base1, None)] *)
Definition can_pair (base1 base2 : ascii) : bool :=
  match dict_get bp_complement base1 with
  | Some partner => Ascii.eqb base2 partner
  | None => false
  end.

(** The score of pairing [i] with [k] inside [i..j]:
    [1 + (dp[i+1][k-1] if i+1 <= k-1 else 0) + (dp[k+1][j] if k+1 <= j else 0)],
    the two statements that appear in both the fill and the traceback. *)
Definition pair_score (dp : Np.matrix) (i j k : Z) : result Z :=
  inner ← (if i + 1 <=? k - 1 then Np.get dp (i + 1) (k - 1) else Ok 0);
  outer ← (if k + 1 <=? j then Np.get dp (k + 1) j else Ok 0);
  Ok (1 + inner + outer).

(** The body of [for k in range(i, j)] in the fill. *)
Definition try_pair (sequence : list ascii) (i j : Z) (k : Z) (dp : Np.matrix)
  : result Np.matrix :=
  bi ← Py.getitem sequence i;
  bk ← Py.getitem sequence k;
  if can_pair bi bk then
    score ← pair_score dp i j k;
    cur ← Np.get dp i j;
    Np.set dp i j (Z.max cur score)
  else Ok dp.

(** The body of [for i in range(n - length + 1)]. *)
Definition fill_cell (sequence : list ascii) (len : Z) (i : Z) (dp : Np.matrix)
  : result Np.matrix :=
  let j := i + len - 1 in
  prev ← Np.get dp i (j - 1);
  dp1 ← Np.set dp i j prev;
  for_each (Py.range i j) (try_pair sequence i j) dp1.

Definition nussinov_algorithm (sequence : list ascii) (min_loop : Z)
  : result Np.matrix :=
  let n := Z.of_nat (length sequence) in
  for_each (Py.range (min_loop + 1) (n + 1))
    (λ len dp, for_each (Py.range 0 (n - len + 1)) (fill_cell sequence len) dp)
    (Np.zeros (length sequence) (length sequence)).

Section Traceback.
Variable sequence : list ascii.
Variable dp : Np.matrix.

(** A call of a method that calls nothing itself, made where [frames] call
    frames are free: it takes one of them while it runs. *)
Definition call {A : Type} (frames : nat) (value : A) : result A :=
  match frames with
  | O => Raise RecursionError
  | S _ => Ok value
  end.

(** [for k in range(i, j)] of [traceback_recursive]: the first partner [k]
    whose score reproduces [dp[i][j]] is taken and the loop is left by
    [return]; [rec] stands for the two recursive calls, and [frames] is the
    number of frames that are free inside the frame that runs the loop. *)
Fixpoint scan_partner (frames : nat)
    (rec : Z → Z → list ascii → result (list ascii))
    (i j : Z) (ks : list Z) (structure : list ascii) : result (list ascii) :=
  match ks with
  | [] => Ok structure
  | k :: ks' =>
      bi ← Py.getitem sequence i;
      bk ← Py.getitem sequence k;
      pairs ← call frames (can_pair bi bk);
      if (pairs : bool) then
        score ← pair_score dp i j k;
        cur ← Np.get dp i j;
        if cur =? score then
          s1 ← Py.setitem structure i LPAREN;
          s2 ← Py.setitem s1 k RPAREN;
          s3 ← rec (i + 1) (k - 1) s2;
          rec (k + 1) j s3
        else scan_partner frames rec i j ks' structure
      else scan_partner frames rec i j ks' structure
  end.

(** The inner function of [traceback].  Every call takes a frame of its own,
    so the two recursive calls and the calls of [can_pair] find one frame
    less than the call that makes them; a call that finds none raises
    [RecursionError].  The source calls itself once per position it leaves
    unpaired, so the depth grows with the length of the sequence. *)
Fixpoint traceback_recursive (frames : nat) (i j : Z) (structure : list ascii)
  : result (list ascii) :=
  match frames with
  | O => Raise RecursionError
  | S frames' =>
      if i >? j then Ok structure
      else
        here ← Np.get dp i j;
        left ← Np.get dp i (j - 1);
        if here =? left then traceback_recursive frames' i (j - 1) structure
        else scan_partner frames' (traceback_recursive frames') i j
               (Py.range i j) structure
  end.

Definition traceback (frames : nat) (i j : Z) : result (list ascii) :=
  if i >? j then Ok (Py.repeat_char DOT (j - i + 1))
  else traceback_recursive frames i j (replicate (length sequence) DOT).
End Traceback.

Record prediction : Type := {
  pred_sequence : list ascii;
  pred_structure : list ascii;
  pred_base_pairs : Z;
  pred_score_matrix : Np.matrix;
  pred_length : Z
}.

(** [frames] is the number of call frames that are free when [traceback]
    makes the first call of [traceback_recursive].  [nussinov_algorithm]
    calls [can_pair] at that same depth, and only for sequences of at least
    two bases; when no frame is free there the traceback raises the same
    [RecursionError], so the fill is not given the parameter. *)
Definition predict_structure (frames : nat) (sequence : list ascii)
  : result prediction :=
  let n := Z.of_nat (length sequence) in
  dp ← nussinov_algorithm sequence 1;
  dot_bracket ← traceback sequence dp frames 0 (n - 1);
  base_pairs ← Np.get dp 0 (n - 1);
  Ok {| pred_sequence := sequence;
        pred_structure := dot_bracket;
        pred_base_pairs := base_pairs;
        pred_score_matrix := dp;
        pred_length := n |}.


(** [sliding_window_prediction]: the dictionary returned by
    [predict_structure] receives two more keys. *)
Record window_prediction : Type := {
  win_pred : prediction;
  window_start : Z;
  window_end : Z
}.

(** The body of [for i in range(0, len(sequence) - self.window_size, stride)];
    [frames] is the parameter of [predict_structure], the same for every
    window. *)
Definition predict_window (frames : nat) (window_size : Z)
    (sequence : list ascii) (i : Z)
    (results : list window_prediction) : result (list window_prediction) :=
  let window := Py.slice sequence i (i + window_size) in
  pred ← predict_structure frames window;
  Ok (results ++ [{| win_pred := pred;
                     window_start := i;
                     window_end := i + window_size |}]).

Definition sliding_window_prediction (frames : nat) (window_size : Z)
    (sequence : list ascii) (stride : Z) : result (list window_prediction) :=
  starts ← Py.range_step 0 (Z.of_nat (length sequence) - window_size) stride;
  for_each starts (predict_window frames window_size sequence) [].

(** ** [KnotAnalyzer] *)

(** Python lists used as stacks grow at the end; here the top of the stack is
    the head of the list, so [append] is a cons and [pop] removes the head. *)

(** The loop of [_get_base_pairs], [pos] being the counter of [enumerate]. *)
Fixpoint scan_pairs (pos : Z) (structure : list ascii) (stack : list Z)
    (pairs : list (Z * Z)) : list (Z * Z) :=
  match structure with
  | [] => pairs
  | char :: rest =>
      if Ascii.eqb char LPAREN then scan_pairs (pos + 1) rest (pos :: stack) pairs
      else if Ascii.eqb char RPAREN then
        match stack with
        | top :: stack' => scan_pairs (pos + 1) rest stack' (pairs ++ [(top, pos)])
        | [] => scan_pairs (pos + 1) rest stack pairs
        end
      else scan_pairs (pos + 1) rest stack pairs
  end.

(** Tuple comparison [p <= q] of Python, lexicographic. *)
Definition tuple_leb (p q : Z * Z) : bool :=
  (p.1 <? q.1) || ((p.1 =? q.1) && (p.2 <=? q.2)).

Fixpoint sorted_insert (p : Z * Z) (l : list (Z * Z)) : list (Z * Z) :=
  match l with
  | [] => [p]
  | q :: l' => if tuple_leb p q then p :: l else q :: sorted_insert p l'
  end.

(** [sorted(pairs)] *)
Definition sorted (l : list (Z * Z)) : list (Z * Z) :=
  foldr sorted_insert [] l.

Definition get_base_pairs (structure : list ascii) : list (Z * Z) :=
  sorted (scan_pairs 0 structure [] []).

(** [stack] holds the opening ranks; [writhe] is a float that only ever
    receives integer increments. *)
Fixpoint writhe_loop (structure : list ascii) (stack : list Z) (writhe : Z) : Z :=
  match structure with
  | [] => writhe
  | char :: rest =>
      if Ascii.eqb char LPAREN then
        writhe_loop rest (Z.of_nat (length stack) :: stack) writhe
      else if Ascii.eqb char RPAREN then
        match stack with
        | top :: stack' =>
            let depth_diff := Z.of_nat (length stack) - 1 - top in
            writhe_loop rest stack'
              (writhe + (if depth_diff =? 0 then 0 else Z.sgn depth_diff))
        | [] => writhe_loop rest stack writhe
        end
      else writhe_loop rest stack writhe
  end.

Definition compute_writhe (structure : list ascii) : Z :=
  writhe_loop structure [] 0.

(** [p1_i < p2_i < p1_j < p2_j or p2_i < p1_i < p2_j < p1_j] *)
Definition crosses (p1 p2 : Z * Z) : bool :=
  ((p1.1 <? p2.1) && (p2.1 <? p1.2) && (p1.2 <? p2.2))
  || ((p2.1 <? p1.1) && (p1.1 <? p2.2) && (p2.2 <? p1.2)).

(** [for i, p1 in enumerate(pairs): for p2 in pairs[i + 1:]: ...] *)
Fixpoint crossings_of (pairs : list (Z * Z)) : list (Z * Z) :=
  match pairs with
  | [] => []
  | p1 :: later =>
      omap (λ p2, if crosses p1 p2
                  then Some (Z.min p1.1 p2.1, Z.max p1.1 p2.1) else None) later
      ++ crossings_of later
  end.

Definition identify_crossing_patterns (structure : list ascii) : list (Z * Z) :=
  crossings_of (get_base_pairs structure).

(** [_calc_nesting_complexity]: the loop state is
    [(depth, max_depth, changes, prev)]. *)
Definition nesting_step (st : Z * Z * Z * Z) (char : ascii) : Z * Z * Z * Z :=
  let '(depth, max_depth, changes, prev) := st in
  let depth := depth + (if Ascii.eqb char LPAREN then 1
                        else if Ascii.eqb char RPAREN then -1 else 0) in
  let max_depth := Z.max max_depth depth in
  let changes := changes + (if depth =? prev then 0 else 1) in
  (depth, max_depth, changes, depth).

Definition calc_nesting_complexity (structure : list ascii) : Q :=
  match structure with
  | [] => 0%Q
  | _ =>
      let '(_, max_depth, changes, _) := fold_left nesting_step structure (0, 0, 0, 0) in
      let nesting := Qmin (inject_Z max_depth / 10)%Q 1%Q in
      let transitions :=
        Qmin (inject_Z changes / inject_Z (Z.of_nat (length structure)))%Q 1%Q in
      (nesting * 0.6 + transitions * 0.4)%Q
  end.

Inductive risk : Set := LOW | MEDIUM | HIGH | CRITICAL.

Definition Qltb (x y : Q) : bool := negb (Qle_bool y x).

(** ['LOW' if complexity < 0.1 else 'MEDIUM' if complexity < 0.2
     else 'HIGH' if complexity < 0.3 else 'CRITICAL'] *)
Definition risk_level_of (complexity : Q) : risk :=
  if Qltb complexity 0.1%Q then LOW
  else if Qltb complexity 0.2%Q then MEDIUM
  else if Qltb complexity 0.3%Q then HIGH
  else CRITICAL.

(** [abs(writhe) >= self.writhe_threshold
     or len(crossings) >= self.crossing_threshold] *)
Definition knot_prone_of (writhe_threshold : Q) (crossing_threshold : Z)
    (writhe : Q) (crossing_count : Z) : bool :=
  Qle_bool writhe_threshold (Qabs writhe) || (crossing_threshold <=? crossing_count).

(** The [nesting] expression of [detect_knots]:
    [max([0] + [max(0, max(0, *[1 if i < k < j else 0 for i, j in pairs]))
                for k in range(len(structure))]) if pairs else 0] *)
Definition max0 (xs : list Z) : Z := fold_left Z.max xs 0.

Definition nesting_signal (structure : list ascii) (pairs : list (Z * Z)) : Z :=
  match pairs with
  | [] => 0
  | _ =>
      max0 (0 :: ((λ k, Z.max 0
                          (max0 ((λ p : Z * Z,
                                    if (p.1 <? k) && (k <? p.2) then 1 else 0) <$> pairs)))
                  <$> Py.range 0 (Z.of_nat (length structure))))
  end.

Record knot_record : Type := {
  writhe : Q;
  crossing_count : Z;
  crossing_positions : list (Z * Z);
  linking_number : Q;
  knot_prone : bool;
  complexity_score : Q;
  risk_level : risk
}.

Section KnotAnalyzer.
(** [self.writhe_threshold] and [self.crossing_threshold] *)
Variable writhe_threshold : Q.
Variable crossing_threshold : Z.

Definition detect_knots (structure : list ascii) : knot_record :=
  let writhe := inject_Z (compute_writhe structure) in
  let crossings := identify_crossing_patterns structure in
  let pairs := get_base_pairs structure in
  let nesting := inject_Z (nesting_signal structure pairs) in
  let linking := (nesting + writhe)%Q in
  let crossing_count := Z.of_nat (length crossings) in
  let complexity :=
    (Qmin (Qabs writhe / 2) 1 * 0.3
     + Qmin (inject_Z crossing_count / 3) 1 * 0.3
     + Qmin (Qabs linking / 5) 1 * 0.2
     + calc_nesting_complexity structure * 0.2)%Q in
  {| writhe := writhe;
     crossing_count := crossing_count;
     crossing_positions := crossings;
     linking_number := linking;
     knot_prone := knot_prone_of writhe_threshold crossing_threshold writhe crossing_count;
     complexity_score := Qmin complexity 1%Q;
     risk_level := risk_level_of complexity |}.
End KnotAnalyzer.

(** A float that may be [nan]. *)
Inductive float_value : Type := Finite (q : Q) | NaN.

(** [np.mean(xs)]: the mean of an empty list is [nan] (numpy only warns). *)
Definition np_mean (xs : list Q) : float_value :=
  match xs with
  | [] => NaN
  | _ => Finite (fold_left Qplus xs 0 / inject_Z (Z.of_nat (length xs)))%Q
  end.

Record risk_distribution : Type := {
  dist_LOW : Z; dist_MEDIUM : Z; dist_HIGH : Z; dist_CRITICAL : Z
}.

Record summary : Type := {
  total_windows_analyzed : Z;
  high_risk_windows : Z;
  average_complexity : float_value;
  max_complexity : Q;
  high_risk_regions : list knot_record;
  distribution : risk_distribution
}.

Definition risk_eqb (a b : risk) : bool :=
  match a, b with
  | LOW, LOW | MEDIUM, MEDIUM | HIGH, HIGH | CRITICAL, CRITICAL => true
  | _, _ => false
  end.

Definition count_level (level : risk) (rs : list knot_record) : Z :=
  Z.of_nat (length (filter (λ r, risk_eqb (risk_level r) level = true) rs)).

(** [summarize_knot_regions]; the entries of the returned dictionary are
    evaluated in the order they are written. *)
Definition summarize_knot_regions (window_results : list knot_record)
  : result summary :=
  let high_risk :=
    filter (λ r, risk_eqb (risk_level r) HIGH || risk_eqb (risk_level r) CRITICAL = true)
      window_results in
  let average := np_mean (complexity_score <$> window_results) in
  maximum ← Py.max_list (complexity_score <$> window_results);
  Ok {| total_windows_analyzed := Z.of_nat (length window_results);
        high_risk_windows := Z.of_nat (length high_risk);
        average_complexity := average;
        max_complexity := maximum;
        high_risk_regions := high_risk;
        distribution :=
          {| dist_LOW := count_level LOW window_results;
             dist_MEDIUM := count_level MEDIUM window_results;
             dist_HIGH := count_level HIGH window_results;
             dist_CRITICAL := count_level CRITICAL window_results |} |}.

(** ** [StructurePredictor.extract_motifs] *)

Record motifs : Type := {
  stems : list (Z * Z);
  loops : list (Z * Z);
  bulges : list (Z * Z);
  hairpins : list (Z * Z)
}.

(** [while i < len(structure) and structure[i] == c: i += 1] *)
Fixpoint skip_run (fuel : nat) (structure : list ascii) (c : ascii) (i : Z)
  : result Z :=
  match fuel with
  | O => OutOfFuel
  | S fuel' =>
      if i <? Z.of_nat (length structure) then
        x ← Py.getitem structure i;
        if Ascii.eqb x c then skip_run fuel' structure c (i + 1) else Ok i
      else Ok i
  end.

(** [while i < len(structure): ...], the outer loop. *)
Fixpoint motif_loop (fuel : nat) (structure : list ascii) (i : Z) (m : motifs)
  : result motifs :=
  match fuel with
  | O => OutOfFuel
  | S fuel' =>
      if i <? Z.of_nat (length structure) then
        x ← Py.getitem structure i;
        if Ascii.eqb x LPAREN then
          let stem_start := i in
          i' ← skip_run (S (length structure)) structure LPAREN i;
          motif_loop fuel' structure i'
            {| stems := stems m ++ [(stem_start, i' - 1)];
               loops := loops m; bulges := bulges m; hairpins := hairpins m |}
        else if Ascii.eqb x DOT then
          let loop_start := i in
          i' ← skip_run (S (length structure)) structure DOT i;
          motif_loop fuel' structure i'
            {| stems := stems m;
               loops := loops m ++ [(loop_start, i' - 1)];
               bulges := bulges m; hairpins := hairpins m |}
        else motif_loop fuel' structure (i + 1) m
      else Ok m
  end.

Definition extract_motifs (structure : list ascii) : result motifs :=
  motif_loop (S (length structure)) structure 0
    {| stems := []; loops := []; bulges := []; hairpins := [] |}.

(** ** [KnotAnalyzer.analyze_window_knots] *)

(** A window prediction as [analyze_window_knots] receives it: the key
    ['sequence_id'] is there only when the caller has added it. *)
Record tagged_window : Type := {
  tw_window : window_prediction;
  tw_sequence_id : option string
}.

(** The dictionary of [detect_knots] after [data.update(...)]. *)
Record window_knot : Type := {
  wk_record : knot_record;
  wk_window_start : Z;
  wk_window_end : Z;
  wk_sequence_id : string
}.

Definition analyze_window_knots (writhe_threshold : Q) (crossing_threshold : Z)
    (predictions : list tagged_window) : list window_knot :=
  (λ pred,
     {| wk_record :=
          detect_knots writhe_threshold crossing_threshold
            (pred_structure (win_pred (tw_window pred)));
        wk_window_start := window_start (tw_window pred);
        wk_window_end := window_end (tw_window pred);
        wk_sequence_id := default "unknown"%string (tw_sequence_id pred) |})
  <$> predictions.

(** ** [StructureVisualizer._get_base_pair_arcs] *)

(** The loop is the one of [_get_base_pairs]; the result is not sorted. *)
Definition get_base_pair_arcs (structure : list ascii) : list (Z * Z) :=
  scan_pairs 0 structure [] [].

(** ** [SequenceParser] *)

Module SequenceParser.

(** [config.VALID_NUCLEOTIDES] and [config.MIN_SEQUENCE_LENGTH] *)
Definition VALID_NUCLEOTIDES : list ascii :=
  [chr "A"; chr "T"; chr "G"; chr "C"; chr "U"; chr "N"].
Definition MIN_SEQUENCE_LENGTH : Z := 20.

(** The only exception these methods can raise. *)
Inductive outcome (A : Type) : Type :=
| Returned (a : A)
| ZeroDivisionError.
Arguments Returned {A} a.
Arguments ZeroDivisionError {A}.

(** The second component of the tuple returned by [validate_sequence] is a
    message; it is kept as the data the message is formatted from. *)
Inductive verdict : Type :=
| TooShort (len min_length : Z)
| InvalidNucleotides (invalid_chars : list ascii)
| TooManyUnknown
| Valid.

Definition is_valid_nucleotide (c : ascii) : bool :=
  existsb (Ascii.eqb c) VALID_NUCLEOTIDES.

(** [s.count(c)] on a string *)
Fixpoint str_count (c : ascii) (s : list ascii) : Z :=
  match s with
  | [] => 0
  | x :: s' => (if Ascii.eqb x c then 1 else 0) + str_count c s'
  end.

(** [set(sequence) - self.valid_nucleotides], as the list of its members in
    the order they first occur. *)
Fixpoint invalid_chars_of (seen : list ascii) (sequence : list ascii) : list ascii :=
  match sequence with
  | [] => []
  | c :: rest =>
      if is_valid_nucleotide c || existsb (Ascii.eqb c) seen
      then invalid_chars_of seen rest
      else c :: invalid_chars_of (c :: seen) rest
  end.

(** [sequence.count('N') / len(sequence) > 0.1] is taken over the rationals.
    The floating-point test gives the same answer for every string of fewer
    than 2^52 characters: the quotient of two integers is rounded
    monotonically, and a quotient above one tenth exceeds it by at least
    [1 / (10 * len)]. *)
Definition validate_sequence (min_length : Z) (seq_id : string)
    (sequence : list ascii) : outcome (bool * verdict) :=
  let len := Z.of_nat (length sequence) in
  if len <? min_length then Returned (false, TooShort len min_length)
  else
    match invalid_chars_of [] sequence with
    | (_ :: _) as invalid => Returned (false, InvalidNucleotides invalid)
    | [] =>
        if len =? 0 then ZeroDivisionError
        else if Qltb 0.1%Q (inject_Z (str_count (chr "N") sequence) / inject_Z len)%Q
        then Returned (false, TooManyUnknown)
        else Returned (true, Valid)
    end.

(** [str.upper] on one character.  Only ASCII letters are modelled; the
    upper-case form of any other character is not one of the six
    nucleotide letters, so [preprocess_sequence] drops it either way. *)
Definition upper_char (c : ascii) : ascii :=
  let n := nat_of_ascii c in
  if (97 <=? n)%nat && (n <=? 122)%nat then ascii_of_nat (n - 32) else c.

(** [re.sub(r'[^ATGCUN]', '', sequence.upper())] *)
Definition preprocess_sequence (sequence : list ascii) : list ascii :=
  List.filter is_valid_nucleotide (upper_char <$> sequence).

(** A Python [dict] with string keys, in insertion order. *)
Fixpoint dict_set {V : Type} (d : list (string * V)) (key : string) (v : V)
  : list (string * V) :=
  match d with
  | [] => [(key, v)]
  | (k, old) :: d' =>
      if String.eqb k key then (k, v) :: d' else (k, old) :: dict_set d' key v
  end.

Fixpoint dict_lookup {V : Type} (d : list (string * V)) (key : string) : option V :=
  match d with
  | [] => None
  | (k, v) :: d' => if String.eqb k key then Some v else dict_lookup d' key
  end.

(** The loop of [filter_sequences] over [sequences.items()]. *)
Fixpoint filter_loop (min_length : Z) (items : list (string * list ascii))
    (filtered : list (string * list ascii))
  : outcome (list (string * list ascii)) :=
  match items with
  | [] => Returned filtered
  | (seq_id, sequence) :: rest =>
      match validate_sequence min_length seq_id sequence with
      | ZeroDivisionError => ZeroDivisionError
      | Returned (valid, _) =>
          filter_loop min_length rest
            (if valid then dict_set filtered seq_id (preprocess_sequence sequence)
             else filtered)
      end
  end.

Definition filter_sequences (min_length : Z) (sequences : list (string * list ascii))
  : outcome (list (string * list ascii)) :=
  filter_loop min_length sequences [].

Record sequence_stats : Type := {
  stat_length : Z;
  gc_content : Q;
  at_content : Q;
  n_content : Q;
  unique_length : Z
}.

(** The dictionary built for one sequence in [compute_stats]. *)
Definition stats_of (seq : list ascii) : sequence_stats :=
  let len := Z.of_nat (length seq) in
  let gc_count := str_count (chr "G") seq + str_count (chr "C") seq in
  let at_count := str_count (chr "A") seq + str_count (chr "T") seq in
  let n_count := str_count (chr "N") seq in
  let share (k : Z) : Q :=
    match seq with
    | [] => 0%Q
    | _ => (inject_Z k / inject_Z len)%Q
    end in
  {| stat_length := len;
     gc_content := share gc_count;
     at_content := share at_count;
     n_content := share n_count;
     unique_length := len - n_count |}.

Definition compute_stats (sequences : list (string * list ascii))
  : list (string * sequence_stats) :=
  fold_left (λ stats item, dict_set stats item.1 (stats_of item.2)) sequences [].

End SequenceParser.

(** ** [BioinformaticsAnalyzer._metrics] *)

(** The percentages and temperatures are floating-point numbers, taken
    here as rationals. *)

(** A record of [kr]: each of the three keys read with [r.get] may be
    missing. *)
Record metric_input : Type := {
  mi_sequence : option (list ascii);
  mi_structure : option (list ascii);
  mi_complexity_score : option Q
}.

(** The window predictions that [main.py] hands to [analyze_all] carry a
    sequence and a structure and no ['complexity_score']. *)
Definition metric_input_of_window (w : window_prediction) : metric_input :=
  {| mi_sequence := Some (pred_sequence (win_pred w));
     mi_structure := Some (pred_structure (win_pred w));
     mi_complexity_score := None |}.

(** [for i in range(1, len(seq)): c = c + 1 if seq[i] == seq[i-1] else 1;
    mx = max(mx, c)], the state being [(mx, c)] and [prev] being
    [seq[i-1]]. *)
Fixpoint run_loop (prev : ascii) (rest : list ascii) (mx c : Z) : Z :=
  match rest with
  | [] => mx
  | x :: rest' =>
      let c := if Ascii.eqb x prev then c + 1 else 1 in
      run_loop x rest' (Z.max mx c) c
  end.

Definition max_run (seq : list ascii) : Z :=
  match seq with
  | [] => 1
  | x :: rest => run_loop x rest 1 1
  end.

(** [ch[x] = ch.get(x, 0) + 1] *)
Fixpoint char_count_add (ch : list (ascii * Z)) (x : ascii) : list (ascii * Z) :=
  match ch with
  | [] => [(x, 1)]
  | (k, n) :: ch' =>
      if Ascii.eqb k x then (k, n + 1) :: ch' else (k, n) :: char_count_add ch' x
  end.

Record metric_lists : Type := {
  m_gc : list Q;
  m_tm : list Q;
  m_hp : list Z;
  m_ent : list Q;
  m_cplx : list Q
}.

Section Metrics.
(** [np.log2], left open. *)
Variable log2 : Q → Q.

(** [sum(-c/len(st) * np.log2(c/len(st)) for c in ch.values())] *)
Definition entropy_of (st : list ascii) : Q :=
  let len := inject_Z (Z.of_nat (length st)) in
  let ch := fold_left char_count_add st [] in
  fold_left
    (λ acc (kv : ascii * Z),
       (acc + - inject_Z kv.2 / len * log2 (inject_Z kv.2 / len))%Q)
    ch 0%Q.

(** The body of [for r in kr]. *)
Definition metrics_step (m : metric_lists) (r : metric_input) : metric_lists :=
  let seq := default [] (mi_sequence r) in
  let st := default [] (mi_structure r) in
  let m1 :=
    match seq with
    | [] => m
    | _ =>
        let len := Z.of_nat (length seq) in
        let gc_v :=
          (inject_Z (SequenceParser.str_count (chr "G") seq
                     + SequenceParser.str_count (chr "C") seq)
           / inject_Z len * 100)%Q in
        {| m_gc := m_gc m ++ [gc_v];
           m_tm := if 14 <=? len
                   then m_tm m ++ [(64 + 41 * (gc_v / 100 - 0.5))%Q]
                   else m_tm m;
           m_hp := m_hp m ++ [max_run seq];
           m_ent := m_ent m;
           m_cplx := m_cplx m |}
    end in
  let m2 :=
    match st with
    | [] => m1
    | _ =>
        {| m_gc := m_gc m1; m_tm := m_tm m1; m_hp := m_hp m1;
           m_ent := m_ent m1 ++ [entropy_of st];
           m_cplx := m_cplx m1 |}
    end in
  {| m_gc := m_gc m2; m_tm := m_tm m2; m_hp := m_hp m2; m_ent := m_ent m2;
     m_cplx := m_cplx m2 ++ [default 0%Q (mi_complexity_score r)] |}.

Definition metrics (kr : list metric_input) : metric_lists :=
  fold_left metrics_step kr
    {| m_gc := []; m_tm := []; m_hp := []; m_ent := []; m_cplx := [] |}.
End Metrics.

(** * Vocabulary of the specification *)

(** ** The score matrix seen as a table of cells *)

Definition square (n : nat) (dp : Np.matrix) : Prop :=
  length dp = n ∧ ∀ r row, dp !! r = Some row → length row = n.

Definition cell (dp : Np.matrix) (i j : Z) : Z :=
  match dp !! Z.to_nat i with
  | Some row => default 0 (row !! Z.to_nat j)
  | None => 0
  end.

(** Two matrices that agree everywhere except possibly at cell [(i, j)]. *)
Definition frame (dp dp' : Np.matrix) (i j : Z) : Prop :=
  ∀ a b, 0 ≤ a → 0 ≤ b → a ≠ i ∨ b ≠ j → cell dp' a b = cell dp a b.

(** ** The recurrence the fill implements *)

Definition base_at (sequence : list ascii) (i : Z) : ascii :=
  default Ascii.zero (sequence !! Z.to_nat i).

Definition pairs_at (sequence : list ascii) (i k : Z) : bool :=
  can_pair (base_at sequence i) (base_at sequence k).

(** The value of [score] in the source, read off the table of cells. *)
Definition score_of (dp : Np.matrix) (i j k : Z) : Z :=
  1 + (if i + 1 <=? k - 1 then cell dp (i + 1) (k - 1) else 0)
    + (if k + 1 <=? j then cell dp (k + 1) j else 0).

Definition best (sequence : list ascii) (dp : Np.matrix) (i j : Z)
    (ks : list Z) (init : Z) : Z :=
  fold_left
    (λ acc k, if pairs_at sequence i k then Z.max acc (score_of dp i j k) else acc)
    ks init.

(** [max(dp[i][j-1], max over k in range(i, j) with can_pair of score)] *)
Definition recurrence (sequence : list ascii) (dp : Np.matrix) (i j : Z) : Z :=
  best sequence dp i j (Py.range i j) (cell dp i (j - 1)).

(** Progress of the fill: the cells of every span shorter than [len], and
    those of span [len] that start before [i0], satisfy the recurrence;
    every other cell still holds the initial zero. *)
Definition filled (sequence : list ascii) (len i0 : Z) (dp : Np.matrix) : Prop :=
  square (length sequence) dp ∧
  ∀ a b, 0 ≤ a < Z.of_nat (length sequence) → 0 ≤ b < Z.of_nat (length sequence) →
    cell dp a b =
      if decide (a < b ∧ (b - a + 1 < len ∨ (b - a + 1 = len ∧ a < i0)))
      then recurrence sequence dp a b else 0.

(** The finished table: a fixed point of the recurrence above the diagonal,
    zero on and below it. *)
Definition consistent (sequence : list ascii) (dp : Np.matrix) : Prop :=
  (∀ a b, 0 ≤ a < b → b < Z.of_nat (length sequence) →
          cell dp a b = recurrence sequence dp a b) ∧
  (∀ a b, 0 ≤ b ≤ a → a < Z.of_nat (length sequence) → cell dp a b = 0).

(** ** Dot-bracket words *)

(** The words the traceback can write: the grammar follows its three
    outcomes (nothing, skip the last position, pair the first position). *)
Inductive nested : list ascii → Prop :=
| nested_nil : nested []
| nested_dot w : nested w → nested (w ++ [DOT])
| nested_pair w1 w2 : nested w1 → nested w2 → nested (LPAREN :: w1 ++ RPAREN :: w2).

(** [s.count(c)] *)
Fixpoint count (c : ascii) (s : list ascii) : Z :=
  match s with
  | [] => 0
  | x :: s' => (if Ascii.eqb x c then 1 else 0) + count c s'
  end.

(** [st'] is [st] with the word [w] written from position [i] on. *)
Definition written (st st' : list ascii) (i : nat) (w : list ascii) : Prop :=
  length st' = length st ∧
  ∀ p : nat, st' !! p =
    if decide (i ≤ p < i + length w)%nat then w !! (p - i)%nat else st !! p.

(** A call of [traceback_recursive] on [i..j] starts from a structure whose
    positions [i..j] still hold dots. *)
Definition tb_pre (sequence : list ascii) (i j : Z) (st : list ascii) : Prop :=
  0 ≤ i ∧ j < Z.of_nat (length sequence) ∧ length st = length sequence ∧
  ∀ p, i ≤ p ≤ j → st !! Z.to_nat p = Some DOT.

(** What the call achieves: it returns, having written on [i..j] a word of
    the grammar with as many pairs as the table promises. *)
Definition tb_post (sequence : list ascii) (dp : Np.matrix) (i j : Z)
    (st : list ascii) (r : result (list ascii)) : Prop :=
  ∃ st' w, r = Ok st' ∧ written st st' (Z.to_nat i) w ∧
           length w = Z.to_nat (j - i + 1) ∧ nested w ∧
           (consistent sequence dp →
            count LPAREN w = if i <=? j then cell dp i j else 0) ∧
           count RPAREN w = count LPAREN w.

(** A stack parse that gives up on a bracket it cannot resolve: a [')'] met
    with an empty stack, or a ['('] still on the stack at the end.  Only the
    height of the stack matters for that. *)
Fixpoint resolves (depth : nat) (s : list ascii) : bool :=
  match s with
  | [] => Nat.eqb depth 0
  | c :: s' =>
      if Ascii.eqb c LPAREN then resolves (S depth) s'
      else if Ascii.eqb c RPAREN then
        match depth with
        | O => false
        | S d => resolves d s'
        end
      else resolves depth s'
  end.

(** ** Sets of pairs *)

Definition laminar (pairs : list (Z * Z)) : Prop :=
  ∀ p q, p ∈ pairs → q ∈ pairs → crosses p q = false.

(** Every entry of the stack is larger than the entries below it. *)
Fixpoint descending (stack : list Z) : Prop :=
  match stack with
  | [] => True
  | top :: below => (∀ u, u ∈ below → u < top) ∧ descending below
  end.

(** The state of the loop of [_get_base_pairs] before position [pos]. *)
Record scan_inv (pos : Z) (stack : list Z) (pairs : list (Z * Z)) : Prop := {
  inv_closed : ∀ a b, (a, b) ∈ pairs → a < b ∧ b < pos;
  inv_stack : ∀ t, t ∈ stack → t < pos;
  inv_descending : descending stack;
  inv_open : ∀ t a b, t ∈ stack → (a, b) ∈ pairs → ¬ (a < t ∧ t < b);
  inv_laminar : laminar pairs
}.

(** Each entry of the stack of ranks equals the number of entries below it. *)
Fixpoint ranked (stack : list Z) : Prop :=
  match stack with
  | [] => True
  | top :: below => top = Z.of_nat (length below) ∧ ranked below
  end.

(** A properly nested pairing of the positions [i..j]: every pair lies in the
    span and is allowed by [can_pair], no position is used twice, and no two
    pairs cross. *)
Definition admissible_pairing (sequence : list ascii) (i j : Z)
    (pairs : list (Z * Z)) : Prop :=
  (∀ a b, (a, b) ∈ pairs →
          i ≤ a ∧ a < b ∧ b ≤ j ∧ pairs_at sequence a b = true) ∧
  NoDup (pairs.*1 ++ pairs.*2) ∧
  laminar pairs.

(** [m] is the largest number of pairs of a properly nested pairing of
    [i..j]. *)
Definition max_pairs (sequence : list ascii) (i j : Z) (m : Z) : Prop :=
  (∃ pairs, admissible_pairing sequence i j pairs ∧ Z.of_nat (length pairs) = m) ∧
  (∀ pairs, admissible_pairing sequence i j pairs → Z.of_nat (length pairs) ≤ m).

(** ** Outcomes under fewer frames *)

(** [below x y]: the outcome [x] of a run is the outcome [y] of the same run
    with more free frames, unless the run with fewer frames ran out of
    them. *)
Definition below {A : Type} (x y : result A) : Prop :=
  x = y ∨ x = Raise RecursionError.

(** ** Windows *)

(** What is recorded about one window. *)
Definition window_ok (frames : nat) (window_size : Z) (sequence : list ascii)
    (r : window_prediction) : Prop :=
  window_end r = window_start r + window_size ∧
  predict_structure frames (Py.slice sequence (window_start r) (window_end r))
    = Ok (win_pred r) ∧
  pred_sequence (win_pred r) = Py.slice sequence (window_start r) (window_end r) ∧
  Z.of_nat (length (pred_sequence (win_pred r))) = window_size.

(** ** Vocabulary for the further properties *)

(** The loop of [_get_base_pairs] on the string [full], before position
    [pos]: what is on the stack and in [pairs] are brackets of [full], each
    position at most once, the pairs in the order they were closed. *)
Record scan_sound (full : list ascii) (pos : Z) (stack : list Z)
    (pairs : list (Z * Z)) : Prop := {
  sound_stack : ∀ t, t ∈ stack → 0 ≤ t < pos ∧ full !! Z.to_nat t = Some LPAREN;
  sound_pairs : ∀ a b, (a, b) ∈ pairs →
    0 ≤ a ∧ a < b ∧ b < pos ∧
    full !! Z.to_nat a = Some LPAREN ∧ full !! Z.to_nat b = Some RPAREN;
  sound_distinct : NoDup (stack ++ pairs.*1 ++ pairs.*2);
  sound_order : StronglySorted (λ p q : Z * Z, p.2 < q.2) pairs
}.

(** [a..b] is a maximal run of the character [c] in [structure]. *)
Definition maximal_run (structure : list ascii) (c : ascii) (a b : Z) : Prop :=
  0 ≤ a ∧ a ≤ b ∧ b < Z.of_nat (length structure) ∧
  (∀ p, a ≤ p ≤ b → structure !! Z.to_nat p = Some c) ∧
  (0 < a → structure !! Z.to_nat (a - 1) ≠ Some c) ∧
  structure !! Z.to_nat (b + 1) ≠ Some c.

(** The number of positions covered by a list of spans. *)
Definition span_total (spans : list (Z * Z)) : Z :=
  foldr (λ span acc, span.2 - span.1 + 1 + acc) 0 spans.

(** The loop of [extract_motifs] at position [i]. *)
Record motif_inv (structure : list ascii) (i : Z) (m : motifs) : Prop := {
  mo_bulges : bulges m = [];
  mo_hairpins : hairpins m = [];
  mo_stems : ∀ a b, (a, b) ∈ stems m → maximal_run structure LPAREN a b;
  mo_loops : ∀ a b, (a, b) ∈ loops m → maximal_run structure DOT a b;
  mo_stem_total :
    span_total (stems m) = count LPAREN (take (Z.to_nat i) structure);
  mo_loop_total :
    span_total (loops m) = count DOT (take (Z.to_nat i) structure);
  mo_stem_edge :
    0 < i → structure !! Z.to_nat (i - 1) = Some LPAREN →
    structure !! Z.to_nat i ≠ Some LPAREN;
  mo_loop_edge :
    0 < i → structure !! Z.to_nat (i - 1) = Some DOT →
    structure !! Z.to_nat i ≠ Some DOT;
  mo_stem_cover :
    ∀ q, 0 ≤ q < i → structure !! Z.to_nat q = Some LPAREN →
         ∃ a b, (a, b) ∈ stems m ∧ a ≤ q ≤ b;
  mo_loop_cover :
    ∀ q, 0 ≤ q < i → structure !! Z.to_nat q = Some DOT →
         ∃ a b, (a, b) ∈ loops m ∧ a ≤ q ≤ b
}.

(** The [n] positions from [a] on hold one and the same character. *)
Definition constant_run (seq : list ascii) (a n : nat) : Prop :=
  (a + n ≤ length seq)%nat ∧ ∀ p, (a ≤ p < a + n)%nat → seq !! p = seq !! a.

(** [n] is the length of a longest stretch of one character in [seq]. *)
Definition longest_run (seq : list ascii) (n : nat) : Prop :=
  (∃ a, constant_run seq a n) ∧ ∀ a n', constant_run seq a n' → (n' ≤ n)%nat.

(** The loop of [_metrics] over the positions of a sequence, [pre] being the
    part read so far, [prev] its last character, [c] the length of the
    stretch that ends there and [mx] the best length so far. *)
Record run_inv (pre : list ascii) (prev : ascii) (mx c : nat) : Prop := {
  run_bounds : (1 ≤ c ≤ mx)%nat ∧ (c ≤ length pre)%nat;
  run_tail : ∀ p, (length pre - c ≤ p < length pre)%nat → pre !! p = Some prev;
  run_stop : (c < length pre)%nat → pre !! (length pre - c - 1)%nat ≠ Some prev;
  run_best : longest_run pre mx
}.

(** The words of the traceback together with the positions they are written
    at: [paired sequence i w] says that [w], written from position [i] on,
    joins only positions whose bases [can_pair] accepts. *)
Inductive paired (sequence : list ascii) : Z → list ascii → Prop :=
| paired_nil i : paired sequence i []
| paired_dot i w : paired sequence i w → paired sequence i (w ++ [DOT])
| paired_pair i w1 w2 :
    pairs_at sequence i (i + 1 + Z.of_nat (length w1)) = true →
    paired sequence (i + 1) w1 →
    paired sequence (i + 2 + Z.of_nat (length w1)) w2 →
    paired sequence i (LPAREN :: w1 ++ RPAREN :: w2).


(** The loop of [_metrics] after the records [kr]. *)
Record metrics_inv (kr : list metric_input) (m : metric_lists) : Prop := {
  ms_cplx : m_cplx m = (λ r, default 0%Q (mi_complexity_score r)) <$> kr;
  ms_gc_hp : length (m_gc m) = length (m_hp m);
  ms_gc_len :
    length (m_gc m)
    = length (List.filter (λ r, negb (Nat.eqb (length (default [] (mi_sequence r))) 0)) kr);
  ms_tm_len :
    length (m_tm m)
    = length (List.filter (λ r, 14 <=? Z.of_nat (length (default [] (mi_sequence r)))) kr);
  ms_ent_len :
    length (m_ent m)
    = length (List.filter (λ r, negb (Nat.eqb (length (default [] (mi_structure r))) 0)) kr);
  ms_gc_range : Forall (λ g, (0 <= g)%Q ∧ (g <= 100)%Q) (m_gc m);
  ms_tm_range : Forall (λ t, (43.5 <= t)%Q ∧ (t <= 84.5)%Q) (m_tm m);
  ms_hp_range : Forall (λ h, 1 ≤ h) (m_hp m)
}.

(** * Verification *)

(** ** The result monad and loops *)

Lemma bind_Ok {A B} (a : A) (f : A → result B) : (Ok a ≫= f) = f a.
Proof. reflexivity. Qed.

Lemma bind_inv_Ok {A B} (m : result A) (f : A → result B) (b : B) :
  (m ≫= f) = Ok b → ∃ a, m = Ok a ∧ f a = Ok b.
Proof. destruct m as [a| |]; simpl; intros H; try discriminate. eauto. Qed.

Lemma range_nil lo hi : hi ≤ lo → Py.range lo hi = [].
Proof. intros H. unfold Py.range. apply seqZ_nil. lia. Qed.

Lemma range_cons lo hi : lo < hi → Py.range lo hi = lo :: Py.range (lo + 1) hi.
Proof.
  intros H. unfold Py.range. rewrite seqZ_cons by lia.
  f_equal. f_equal; lia.
Qed.

Lemma range_snoc lo hi : lo ≤ hi → Py.range lo (hi + 1) = Py.range lo hi ++ [hi].
Proof.
  intros H. unfold Py.range.
  replace (hi + 1 - lo) with (hi - lo + 1) by lia.
  rewrite seqZ_app by lia. f_equal.
  rewrite seqZ_cons by lia. rewrite seqZ_nil by lia. f_equal. lia.
Qed.

Lemma elem_of_range lo hi k : k ∈ Py.range lo hi ↔ lo ≤ k < hi.
Proof. unfold Py.range. rewrite elem_of_seqZ. lia. Qed.

(** A loop over [range(lo, hi)] whose body keeps an invariant indexed by the
    loop counter runs to completion and establishes the invariant at [hi]. *)
Lemma for_range_invariant {S : Type} (P : Z → S → Prop) (body : Z → S → result S)
    (lo hi : Z) (s : S) :
  lo ≤ hi →
  P lo s →
  (∀ k t, lo ≤ k < hi → P k t → ∃ t', body k t = Ok t' ∧ P (k + 1) t') →
  ∃ s', for_each (Py.range lo hi) body s = Ok s' ∧ P hi s'.
Proof.
  intros Hle. remember (Z.to_nat (hi - lo)) as m eqn:Hm.
  revert lo s Hle Hm. induction m as [|m IH]; intros lo s Hle Hm HP Hbody.
  - assert (lo = hi) by lia. subst lo. rewrite range_nil by lia. simpl. eauto.
  - rewrite range_cons by lia. simpl.
    destruct (Hbody lo s ltac:(lia) HP) as (t' & -> & HP'). rewrite bind_Ok.
    apply IH; [lia | lia | done |].
    intros k t Hk. apply Hbody. lia.
Qed.

(** ** Subscripting inside the bounds *)

Lemma index_nonneg len i : 0 ≤ i < Z.of_nat len → Py.index len i = Ok (Z.to_nat i).
Proof.
  intros H. unfold Py.index.
  destruct (Z.leb_spec 0 i); [|lia]. destruct (Z.ltb_spec i (Z.of_nat len)); [|lia].
  reflexivity.
Qed.

Lemma index_total len i :
  - Z.of_nat len ≤ i < Z.of_nat len → ∃ m, Py.index len i = Ok m ∧ (m < len)%nat.
Proof.
  intros H. unfold Py.index.
  destruct (Z.leb_spec 0 i); destruct (Z.ltb_spec i (Z.of_nat len)); simpl;
    try lia.
  - eexists; split; [reflexivity | lia].
  - destruct (Z.leb_spec (- Z.of_nat len) i); [|lia].
    destruct (Z.ltb_spec i 0); [|lia]. simpl.
    eexists; split; [reflexivity | lia].
Qed.

Lemma getitem_nonneg {A} (l : list A) i x :
  0 ≤ i → l !! Z.to_nat i = Some x → Py.getitem l i = Ok x.
Proof.
  intros Hi Hx. unfold Py.getitem.
  rewrite index_nonneg by (apply lookup_lt_Some in Hx; lia).
  rewrite bind_Ok, Hx. reflexivity.
Qed.

Lemma getitem_total {A} (l : list A) i :
  - Z.of_nat (length l) ≤ i < Z.of_nat (length l) → ∃ x, Py.getitem l i = Ok x.
Proof.
  intros H. unfold Py.getitem.
  destruct (index_total _ _ H) as (m & -> & Hm). rewrite bind_Ok.
  destruct (lookup_lt_is_Some_2 l m Hm) as [x ->]. eauto.
Qed.

Lemma setitem_nonneg {A} (l : list A) i x :
  0 ≤ i < Z.of_nat (length l) → Py.setitem l i x = Ok (<[Z.to_nat i := x]> l).
Proof. intros H. unfold Py.setitem. rewrite index_nonneg by done. reflexivity. Qed.

(** ** The score matrix seen as a table of cells *)

Lemma zeros_square n : square n (Np.zeros n n).
Proof.
  split.
  - apply length_replicate.
  - intros r row H. apply lookup_replicate in H as [-> _]. apply length_replicate.
Qed.

Lemma zeros_cell n i j : cell (Np.zeros n n) i j = 0.
Proof.
  unfold cell, Np.zeros.
  destruct (_ !! Z.to_nat i) as [row|] eqn:E; [|done].
  apply lookup_replicate in E as [-> _].
  destruct (_ !! Z.to_nat j) as [x|] eqn:E2; [|done].
  apply lookup_replicate in E2 as [-> _]. done.
Qed.

Lemma get_cell n dp i j :
  square n dp → 0 ≤ i < Z.of_nat n → 0 ≤ j < Z.of_nat n →
  Np.get dp i j = Ok (cell dp i j).
Proof.
  intros [Hlen Hrows] Hi Hj. unfold Np.get, cell.
  destruct (lookup_lt_is_Some_2 dp (Z.to_nat i) ltac:(lia)) as [row Hrow].
  rewrite (getitem_nonneg _ _ _ (proj1 Hi) Hrow), bind_Ok, Hrow.
  pose proof (Hrows _ _ Hrow) as Hr.
  destruct (lookup_lt_is_Some_2 row (Z.to_nat j) ltac:(lia)) as [x Hx].
  rewrite (getitem_nonneg _ _ _ (proj1 Hj) Hx), Hx. done.
Qed.

Lemma get_total n dp i j :
  square n dp → 0 ≤ i < Z.of_nat n → - Z.of_nat n ≤ j < Z.of_nat n →
  ∃ v, Np.get dp i j = Ok v.
Proof.
  intros [Hlen Hrows] Hi Hj. unfold Np.get.
  destruct (lookup_lt_is_Some_2 dp (Z.to_nat i) ltac:(lia)) as [row Hrow].
  rewrite (getitem_nonneg _ _ _ (proj1 Hi) Hrow), bind_Ok.
  apply getitem_total. rewrite (Hrows _ _ Hrow). done.
Qed.

Lemma set_cell n dp i j v :
  square n dp → 0 ≤ i < Z.of_nat n → 0 ≤ j < Z.of_nat n →
  ∃ dp', Np.set dp i j v = Ok dp' ∧ square n dp' ∧ cell dp' i j = v ∧
         ∀ a b, 0 ≤ a → 0 ≤ b → a ≠ i ∨ b ≠ j → cell dp' a b = cell dp a b.
Proof.
  intros [Hlen Hrows] Hi Hj. unfold Np.set.
  destruct (lookup_lt_is_Some_2 dp (Z.to_nat i) ltac:(lia)) as [row Hrow].
  pose proof (Hrows _ _ Hrow) as Hr.
  rewrite (getitem_nonneg _ _ _ (proj1 Hi) Hrow), bind_Ok.
  rewrite setitem_nonneg by lia. rewrite bind_Ok.
  rewrite setitem_nonneg by lia.
  eexists; split; [reflexivity|]. split; [|split].
  - split; [by rewrite length_insert|].
    intros r row' H.
    destruct (decide (r = Z.to_nat i)) as [->|Hne].
    + rewrite list_lookup_insert_eq in H by lia. injection H as <-.
      by rewrite length_insert.
    + rewrite list_lookup_insert_ne in H by done. eauto.
  - unfold cell. rewrite list_lookup_insert_eq by lia.
    rewrite list_lookup_insert_eq by lia. done.
  - intros a b Ha Hb Hab. unfold cell.
    destruct (decide (Z.to_nat a = Z.to_nat i)) as [Heq|Hne].
    + rewrite Heq, list_lookup_insert_eq by lia. rewrite Hrow.
      rewrite list_lookup_insert_ne by lia. done.
    + rewrite list_lookup_insert_ne by done. done.
Qed.

(** ** The fill establishes the recurrence *)

Lemma frame_refl dp i j : frame dp dp i j.
Proof. by intros a b _ _ _. Qed.

Lemma frame_trans dp1 dp2 dp3 i j :
  frame dp1 dp2 i j → frame dp2 dp3 i j → frame dp1 dp3 i j.
Proof. intros H1 H2 a b Ha Hb Hab. rewrite H2, H1; auto. Qed.

Section Fill.
Variable sequence : list ascii.
Local Abbreviation n := (length sequence).

Lemma getitem_base i : 0 ≤ i < Z.of_nat n → Py.getitem sequence i = Ok (base_at sequence i).
Proof.
  intros Hi. unfold base_at.
  destruct (lookup_lt_is_Some_2 sequence (Z.to_nat i) ltac:(lia)) as [x Hx].
  rewrite Hx. simpl. apply getitem_nonneg; [lia | done].
Qed.

Lemma pair_score_cell dp i j k :
  square n dp → 0 ≤ i ≤ k → k < j < Z.of_nat n →
  pair_score dp i j k = Ok (score_of dp i j k).
Proof.
  intros Hsq Hik Hkj. unfold pair_score, score_of.
  destruct (Z.leb_spec (i + 1) (k - 1)); destruct (Z.leb_spec (k + 1) j);
    try lia; cbv iota;
    repeat (rewrite (get_cell n) by (done || lia); rewrite ?bind_Ok);
    rewrite ?bind_Ok; done.
Qed.

Lemma score_of_frame dp dp' i j a b k :
  frame dp dp' i j → 0 ≤ a ≤ k → k < b → b - a ≤ j - i →
  score_of dp' a b k = score_of dp a b k.
Proof.
  intros Hfr Hak Hkb Hlen. unfold score_of.
  destruct (Z.leb_spec (a + 1) (k - 1)); destruct (Z.leb_spec (k + 1) b);
    repeat rewrite Hfr by lia; done.
Qed.

Lemma best_ext dp dp' i j ks init :
  (∀ k, k ∈ ks → score_of dp' i j k = score_of dp i j k) →
  best sequence dp' i j ks init = best sequence dp i j ks init.
Proof.
  revert init. induction ks as [|k ks IH]; intros init H; [done|].
  simpl. rewrite H by left. apply IH. intros k' Hk'. apply H. by right.
Qed.

Lemma recurrence_frame dp dp' i j a b :
  frame dp dp' i j → 0 ≤ a < b → b - a ≤ j - i →
  recurrence sequence dp' a b = recurrence sequence dp a b.
Proof.
  intros Hfr Hab Hlen. unfold recurrence.
  rewrite (Hfr a (b - 1)) by lia.
  apply best_ext. intros k Hk. apply elem_of_range in Hk.
  apply (score_of_frame _ _ i j); (done || lia).
Qed.

Lemma best_snoc dp i j ks k init :
  best sequence dp i j (ks ++ [k]) init =
  if pairs_at sequence i k then Z.max (best sequence dp i j ks init) (score_of dp i j k)
  else best sequence dp i j ks init.
Proof. unfold best. by rewrite fold_left_app. Qed.

(** The maximum is the start value or the score of an admissible partner. *)
Lemma best_witness dp i j ks init :
  best sequence dp i j ks init = init ∨
  ∃ k, k ∈ ks ∧ pairs_at sequence i k = true ∧ best sequence dp i j ks init = score_of dp i j k.
Proof.
  induction ks as [|k ks IH] using rev_ind; [by left|].
  rewrite best_snoc. destruct (pairs_at sequence i k) eqn:Hp.
  - destruct (Z.max_spec (best sequence dp i j ks init) (score_of dp i j k)) as [[_ ->]|[_ ->]].
    + right. exists k. split; [|done]. apply elem_of_app. right. by left.
    + destruct IH as [IH|(k' & Hk' & Hp' & IH)]; [by left|].
      right. exists k'. split; [|done]. apply elem_of_app. by left.
  - destruct IH as [IH|(k' & Hk' & Hp' & IH)]; [by left|].
    right. exists k'. split; [|done]. apply elem_of_app. by left.
Qed.

Lemma try_pair_spec dp i j k :
  square n dp → 0 ≤ i ≤ k → k < j < Z.of_nat n →
  ∃ dp', try_pair sequence i j k dp = Ok dp' ∧ square n dp' ∧ frame dp dp' i j ∧
         cell dp' i j =
           if pairs_at sequence i k then Z.max (cell dp i j) (score_of dp i j k)
           else cell dp i j.
Proof.
  intros Hsq Hik Hkj. unfold try_pair.
  rewrite !getitem_base by lia. rewrite !bind_Ok. fold (pairs_at sequence i k).
  destruct (pairs_at sequence i k).
  - rewrite pair_score_cell by (done || lia). rewrite bind_Ok.
    rewrite (get_cell n) by (done || lia). rewrite bind_Ok.
    destruct (set_cell n dp i j (Z.max (cell dp i j) (score_of dp i j k)))
      as (dp' & -> & Hsq' & Hv & Hfr); [done | lia | lia |].
    exists dp'. done.
  - exists dp. split; [done|]. split; [done|]. split; [apply frame_refl | done].
Qed.

Lemma fill_cell_spec dp len i :
  square n dp → 0 ≤ i → 2 ≤ len → i + len - 1 < Z.of_nat n →
  ∃ dp', fill_cell sequence len i dp = Ok dp' ∧ square n dp' ∧
         frame dp dp' i (i + len - 1) ∧
         cell dp' i (i + len - 1) = recurrence sequence dp i (i + len - 1).
Proof.
  intros Hsq Hi Hlen Hj. unfold fill_cell. simpl.
  set (j := i + len - 1) in *.
  rewrite (get_cell n) by (done || lia). rewrite bind_Ok.
  destruct (set_cell n dp i j (cell dp i (j - 1)))
    as (dp1 & -> & Hsq1 & Hv1 & Hfr1); [done | lia | lia |].
  rewrite bind_Ok.
  destruct (for_range_invariant
              (λ k t, square n t ∧ frame dp t i j ∧
                      cell t i j = best sequence dp i j (Py.range i k) (cell dp i (j - 1)))
              (try_pair sequence i j) i j dp1) as (dp' & Hrun & Hsq' & Hfr' & Hv').
  - lia.
  - split; [done|]. split; [done|]. by rewrite range_nil by lia.
  - intros k t Hk (Hsqt & Hfrt & Hvt).
    destruct (try_pair_spec t i j k) as (t' & Ht' & Hsqt' & Hfrt' & Hvt');
      [done | lia | lia |].
    exists t'. split; [done|]. split; [done|].
    split; [by eapply frame_trans|].
    rewrite range_snoc by lia. rewrite best_snoc, Hvt'.
    rewrite (score_of_frame dp t i j) by (done || lia). by rewrite Hvt.
  - exists dp'. done.
Qed.

Lemma filled_step dp len i :
  filled sequence len i dp → 2 ≤ len → 0 ≤ i → i + len - 1 < Z.of_nat n →
  ∃ dp', fill_cell sequence len i dp = Ok dp' ∧ filled sequence len (i + 1) dp'.
Proof.
  intros [Hsq Hcells] Hlen Hi Hj.
  destruct (fill_cell_spec dp len i) as (dp' & Hrun & Hsq' & Hfr & Hv); try done.
  exists dp'. split; [done|]. split; [done|].
  intros a b Ha Hb.
  destruct (decide (a = i ∧ b = i + len - 1)) as [[-> ->]|Hne].
  - rewrite decide_True by lia. rewrite Hv.
    symmetry. apply (recurrence_frame _ _ i (i + len - 1)); (done || lia).
  - rewrite Hfr by lia. rewrite Hcells by done.
    destruct (decide (a < b ∧ (b - a + 1 < len ∨ b - a + 1 = len ∧ a < i)))
      as [Hc|Hc].
    + rewrite decide_True by lia.
      symmetry. apply (recurrence_frame _ _ i (i + len - 1)); (done || lia).
    + rewrite decide_False by lia. done.
Qed.

Lemma filled_row dp len :
  filled sequence len 0 dp → 2 ≤ len ≤ Z.of_nat n →
  ∃ dp', for_each (Py.range 0 (Z.of_nat n - len + 1)) (fill_cell sequence len) dp = Ok dp'
         ∧ filled sequence (len + 1) 0 dp'.
Proof.
  intros Hf Hlen.
  destruct (for_range_invariant (λ i t, filled sequence len i t) (fill_cell sequence len)
              0 (Z.of_nat n - len + 1) dp) as (dp' & Hrun & Hsq' & Hcells).
  - lia.
  - done.
  - intros i t Hi Ht. apply filled_step; (done || lia).
  - exists dp'. split; [done|]. split; [done|].
    intros a b Ha Hb. rewrite Hcells by done.
    destruct (decide (a < b ∧ (b - a + 1 < len ∨ b - a + 1 = len ∧ a < Z.of_nat n - len + 1)));
      [rewrite decide_True by lia | rewrite decide_False by lia]; done.
Qed.

(** The table returned by the fill satisfies the recurrence on every cell
    above the diagonal and is zero on and below it. *)
Theorem nussinov_filled :
  ∃ dp, nussinov_algorithm sequence 1 = Ok dp ∧ square n dp ∧
        (∀ a b, 0 ≤ a < b → b < Z.of_nat n → cell dp a b = recurrence sequence dp a b) ∧
        (∀ a b, 0 ≤ b ≤ a → a < Z.of_nat n → cell dp a b = 0).
Proof.
  unfold nussinov_algorithm. simpl.
  destruct (decide (n = 0%nat)) as [Hn|Hn].
  - rewrite Hn. simpl. exists []. split; [done|]. split; [apply (zeros_square 0)|].
    split; intros; lia.
  - destruct (for_range_invariant (λ len t, filled sequence len 0 t)
                (λ len t, for_each (Py.range 0 (Z.of_nat n - len + 1))
                            (fill_cell sequence len) t)
                2 (Z.of_nat n + 1) (Np.zeros n n)) as (dp & Hrun & Hsq & Hcells).
    + lia.
    + split; [apply zeros_square|]. intros a b Ha Hb.
      rewrite zeros_cell. rewrite decide_False by lia. done.
    + intros len t Hlen Ht. apply filled_row; (done || lia).
    + exists dp. split; [done|]. split; [done|]. split.
      * intros a b Hab Hb. rewrite Hcells by lia. rewrite decide_True by lia. done.
      * intros a b Hab Ha. rewrite Hcells by lia. rewrite decide_False by lia. done.
Qed.

End Fill.

(** ** Dot-bracket words and the traceback *)

Lemma count_app c s1 s2 : count c (s1 ++ s2) = count c s1 + count c s2.
Proof. induction s1 as [|x s1 IH]; simpl; lia. Qed.

Lemma nested_dots m : nested (replicate m DOT).
Proof.
  induction m as [|m IH]; [constructor|].
  rewrite replicate_S_end. by constructor.
Qed.

Lemma count_dots c m : c ≠ DOT → count c (replicate m DOT) = 0.
Proof.
  intros Hc. induction m as [|m IH]; [done|]. cbn [replicate count]. rewrite IH.
  destruct (Ascii.eqb_spec DOT c); [congruence | done].
Qed.

Lemma can_pair_irrefl b : can_pair b b = false.
Proof. destruct b as [[] [] [] [] [] [] [] []]; reflexivity. Qed.

Lemma lookup_bracket (w1 w2 : list ascii) (q : nat) :
  (LPAREN :: w1 ++ RPAREN :: w2) !! q =
  if decide (q = 0)%nat then Some LPAREN
  else if decide (q ≤ length w1)%nat then w1 !! (q - 1)%nat
  else if decide (q = S (length w1)) then Some RPAREN
  else w2 !! (q - 2 - length w1)%nat.
Proof.
  destruct q as [|q]; [done|]. simpl.
  destruct (decide (S q ≤ length w1)%nat).
  - rewrite lookup_app_l by lia. f_equal. lia.
  - rewrite lookup_app_r by lia.
    destruct (decide (S q = S (length w1))) as [Heq|Hne].
    + replace (q - length w1)%nat with 0%nat by lia. done.
    + replace (q - length w1)%nat with (S (q - 1 - length w1)) by lia. done.
Qed.

Lemma written_whole (st st' w : list ascii) :
  written st st' 0 w → length w = length st → st' = w.
Proof.
  intros [Hlen Hw] Hl. apply list_eq. intros p. rewrite Hw.
  destruct (decide (0 ≤ p < 0 + length w)%nat).
  - f_equal. lia.
  - rewrite lookup_ge_None_2 by lia. symmetry. apply lookup_ge_None_2. lia.
Qed.

Section TracebackSpec.
Variable sequence : list ascii.
Variable dp : Np.matrix.
Local Abbreviation n := (length sequence).
Hypothesis Hsq : square n dp.

Lemma tb_post_empty i j st : j < i → tb_post sequence dp i j st (Ok st).
Proof.
  intros Hij. exists st, []. split; [done|]. split; [|split; [|split; [|split]]].
  - split; [done|]. intros p. simpl. rewrite decide_False by lia. done.
  - simpl. lia.
  - constructor.
  - intros _. destruct (Z.leb_spec i j); [lia | done].
  - done.
Qed.

Lemma scan_partner_spec frames
    (rec : Z → Z → list ascii → result (list ascii)) i j st :
  tb_pre sequence i j st → i ≤ j → (0 < frames)%nat →
  (∀ i' j' st', tb_pre sequence i' j' st' → Z.max 0 (j' - i' + 1) < j - i + 1 →
                tb_post sequence dp i' j' st' (rec i' j' st')) →
  ∀ ks, (∀ k, k ∈ ks → i ≤ k < j) →
  ∃ st' w, scan_partner sequence dp frames rec i j ks st = Ok st' ∧
           written st st' (Z.to_nat i) w ∧
           length w = Z.to_nat (j - i + 1) ∧ nested w ∧
           (consistent sequence dp →
            (∃ k, k ∈ ks ∧ pairs_at sequence i k = true ∧
                  cell dp i j = score_of dp i j k) →
            count LPAREN w = cell dp i j) ∧
           count RPAREN w = count LPAREN w.
Proof.
  intros (Hi & Hj & Hlen & Hdots) Hij Hframes Hrec ks.
  destruct frames as [|frames]; [lia|].
  induction ks as [|k ks IH]; intros Hks.
  - simpl. exists st, (replicate (Z.to_nat (j - i + 1)) DOT).
    split; [done|]. split; [|split; [|split; [|split]]].
    + split; [done|]. intros p. rewrite length_replicate.
      destruct (decide (Z.to_nat i ≤ p < Z.to_nat i + Z.to_nat (j - i + 1))%nat); [|done].
      rewrite lookup_replicate_2 by lia.
      rewrite <- (Hdots (Z.of_nat p)) by lia. f_equal. lia.
    + apply length_replicate.
    + apply nested_dots.
    + intros _ (k & Hk & _). by apply elem_of_nil in Hk.
    + rewrite !count_dots; done.
  - assert (i ≤ k < j) as Hk by (apply Hks; left).
    assert (∀ k', k' ∈ ks → i ≤ k' < j) as Hks' by (intros; apply Hks; by right).
    destruct (IH Hks') as (st0 & w0 & Hrun0 & Hw0 & Hl0 & Hn0 & Hc0 & Hb0).
    cbn [scan_partner call]. rewrite !getitem_base by lia. rewrite !bind_Ok.
    fold (pairs_at sequence i k).
    destruct (pairs_at sequence i k) eqn:Hp; cycle 1.
    { exists st0, w0. split; [done|]. do 3 (split; [done|]). split; [|done].
      intros Hcons (k' & Hk' & Hp' & Hv'). apply Hc0; [done|].
      exists k'. split; [|done]. apply elem_of_cons in Hk' as [->|]; [congruence | done]. }
    rewrite (pair_score_cell sequence) by (done || lia). rewrite bind_Ok.
    rewrite (get_cell (length sequence)) by (done || lia). rewrite bind_Ok.
    destruct (Z.eqb_spec (cell dp i j) (score_of dp i j k)) as [Heq|Hne]; cycle 1.
    { exists st0, w0. split; [done|]. do 3 (split; [done|]). split; [|done].
      intros Hcons (k' & Hk' & Hp' & Hv'). apply Hc0; [done|].
      exists k'. split; [|done]. apply elem_of_cons in Hk' as [->|]; [congruence | done]. }
    assert (i < k) as Hik.
    { destruct (decide (i = k)) as [->|]; [|lia].
      unfold pairs_at in Hp. by rewrite can_pair_irrefl in Hp. }
    rewrite setitem_nonneg by lia. rewrite bind_Ok.
    rewrite setitem_nonneg by (rewrite length_insert; lia). rewrite bind_Ok.
    set (s2 := <[Z.to_nat k:=RPAREN]> (<[Z.to_nat i:=LPAREN]> st)).
    assert (length s2 = length st) as Hl2 by (subst s2; by rewrite !length_insert).
    assert (∀ p : nat, p ≠ Z.to_nat i → p ≠ Z.to_nat k → s2 !! p = st !! p) as Hs2.
    { intros p H1 H2. subst s2. by rewrite !list_lookup_insert_ne by done. }
    destruct (Hrec (i + 1) (k - 1) s2) as (s3 & w1 & -> & [Hl3 Hw1] & Hlw1 & Hn1 & Hc1 & Hb1).
    { split; [lia|]. split; [lia|]. split; [lia|].
      intros p Hp'. rewrite Hs2 by lia. apply Hdots. lia. }
    { lia. }
    rewrite bind_Ok.
    destruct (Hrec (k + 1) j s3) as (s4 & w2 & -> & [Hl4 Hw2] & Hlw2 & Hn2 & Hc2 & Hb2).
    { split; [lia|]. split; [lia|]. split; [lia|].
      intros p Hp'. rewrite Hw1. rewrite decide_False by lia.
      rewrite Hs2 by lia. apply Hdots. lia. }
    { lia. }
    exists s4, (LPAREN :: w1 ++ RPAREN :: w2).
    split; [done|]. split; [|split; [|split; [|split]]].
    + split; [lia|]. intros p. rewrite Hw2, Hw1, lookup_bracket.
      simpl length. rewrite length_app. simpl length.
      repeat case_decide; try lia; try (f_equal; lia).
      * subst s2. replace p with (Z.to_nat i) by lia.
        rewrite list_lookup_insert_ne by lia.
        rewrite list_lookup_insert_eq by lia. done.
      * subst s2. replace p with (Z.to_nat k) by lia.
        rewrite list_lookup_insert_eq by (rewrite length_insert; lia). done.
      * apply Hs2; lia.
    + simpl. rewrite length_app. simpl. lia.
    + by constructor.
    + intros Hcons _. simpl. rewrite count_app. simpl.
      rewrite (Hc1 Hcons), (Hc2 Hcons), Heq. unfold score_of.
      change (Ascii.eqb LPAREN LPAREN) with true.
      change (Ascii.eqb RPAREN LPAREN) with false.
      replace (k - 1 - (i + 1) + 1) with (k - i - 1) by lia.
      destruct (Z.leb_spec (i + 1) (k - 1)); destruct (Z.leb_spec (k + 1) j); lia.
    + simpl. rewrite !count_app. simpl. rewrite Hb1, Hb2.
      change (Ascii.eqb LPAREN LPAREN) with true.
      change (Ascii.eqb RPAREN LPAREN) with false.
      change (Ascii.eqb LPAREN RPAREN) with false.
      change (Ascii.eqb RPAREN RPAREN) with true. lia.
Qed.

(** A call on a span of [m] positions returns whenever more than [m] frames
    are free. *)
Lemma traceback_recursive_spec frames :
  ∀ i j st, tb_pre sequence i j st → Z.max 0 (j - i + 1) < Z.of_nat frames →
            tb_post sequence dp i j st (traceback_recursive sequence dp frames i j st).
Proof.
  induction frames as [|frames IH]; intros i j st Hpre Hdepth; [lia|].
  simpl. destruct (Z.gtb_spec i j) as [Hgt|Hle].
  { apply tb_post_empty. lia. }
  pose proof Hpre as (Hi & Hj & Hlen & Hdots).
  rewrite (get_cell n dp i j) by (done || lia). rewrite bind_Ok.
  destruct (get_total n dp i (j - 1)) as (left & Hleft); [done | lia | lia |].
  rewrite Hleft, bind_Ok.
  destruct (Z.eqb_spec (cell dp i j) left) as [Heq|Hne].
  - destruct (IH i (j - 1) st) as (st' & w & -> & [Hl Hw] & Hlw & Hn & Hc & Hb).
    { split; [lia|]. split; [lia|]. split; [lia|]. intros p Hp. apply Hdots. lia. }
    { lia. }
    exists st', (w ++ [DOT]). split; [done|]. split; [|split; [|split; [|split]]].
    + split; [done|]. intros p. rewrite Hw. rewrite length_app. simpl length.
      repeat case_decide; try lia.
      * rewrite lookup_app_l by lia. done.
      * rewrite lookup_app_r by lia.
        replace (p - Z.to_nat i - length w)%nat with 0%nat by lia. simpl.
        rewrite <- (Hdots j) by lia. f_equal. lia.
      * done.
    + rewrite length_app. simpl. lia.
    + by constructor.
    + intros Hcons. rewrite count_app. simpl. rewrite (Hc Hcons).
      change (Ascii.eqb DOT LPAREN) with false.
      destruct (Z.leb_spec i j); [|lia].
      destruct (Z.leb_spec i (j - 1)).
      * rewrite (get_cell n) in Hleft by (done || lia). injection Hleft as <-. lia.
      * destruct Hcons as [_ Hz]. rewrite (Hz i j) by lia. done.
    + rewrite !count_app. simpl. rewrite Hb.
      change (Ascii.eqb DOT LPAREN) with false.
      change (Ascii.eqb DOT RPAREN) with false. done.
  - destruct (decide (i = j)) as [Hij0|Hij0].
    { (* one position: the loop has nothing to scan *)
      subst j. rewrite range_nil by lia. cbn [scan_partner].
      exists st, [DOT]. split; [done|]. split; [|split; [|split; [|split]]].
      - split; [done|]. intros p. simpl length.
        case_decide as Hp; [|done].
        replace p with (Z.to_nat i) by lia. rewrite Nat.sub_diag. simpl.
        symmetry. rewrite <- (Hdots i) by lia. done.
      - simpl. lia.
      - apply (nested_dot []). constructor.
      - intros Hcons. destruct (Z.leb_spec i i); [|lia].
        destruct Hcons as [_ Hz]. rewrite (Hz i i) by lia. done.
      - done. }
    destruct (scan_partner_spec frames (traceback_recursive sequence dp frames) i j st Hpre Hle)
      with (ks := Py.range i j) as (st' & w & Hrun & Hw & Hlw & Hn & Hc & Hb).
    { lia. }
    { intros i' j' st0 Hpre' Hm. apply IH; [done | lia]. }
    { intros k Hk. by apply elem_of_range in Hk. }
    exists st', w. split; [done|]. do 3 (split; [done|]). split; [|done].
    intros Hcons. destruct (Z.leb_spec i j); [|lia].
    apply Hc; [done|].
    rewrite (get_cell n) in Hleft by (done || lia). injection Hleft as <-.
    pose proof Hcons as [Hr _]. rewrite (Hr i j) in Hne |- * by lia.
    unfold recurrence in *.
    destruct (best_witness sequence dp i j (Py.range i j) (cell dp i (j - 1)))
      as [Hinit|(k & Hk & Hp & Hv)]; [congruence|].
    exists k. done.
Qed.

End TracebackSpec.

(** ** More frames change nothing but the [RecursionError] *)

Lemma below_refl {A} (x : result A) : below x x.
Proof. by left. Qed.

Lemma below_bind {A B} (x y : result A) (k k' : A → result B) :
  below x y → (∀ a, below (k a) (k' a)) → below (x ≫= k) (y ≫= k').
Proof.
  intros [-> | ->] Hk; [|by right].
  destruct y as [a|e|]; [apply Hk | by left | by left].
Qed.

Lemma below_Ok {A} (x y : result A) (a : A) : below x y → x = Ok a → y = Ok a.
Proof. intros [-> | ->] H; [done | discriminate]. Qed.

Lemma call_below {A} (frames frames' : nat) (v : A) :
  (frames ≤ frames')%nat → below (call frames v) (call frames' v).
Proof.
  intros Hle. destruct frames as [|f]; [by right|].
  destruct frames' as [|f']; [lia | by left].
Qed.

Section MoreFrames.
Variable sequence : list ascii.
Variable dp : Np.matrix.

Lemma scan_partner_below frames frames'
    (rec rec' : Z → Z → list ascii → result (list ascii)) i j :
  (frames ≤ frames')%nat →
  (∀ a b st, below (rec a b st) (rec' a b st)) →
  ∀ ks st, below (scan_partner sequence dp frames rec i j ks st)
                 (scan_partner sequence dp frames' rec' i j ks st).
Proof.
  intros Hle Hrec ks. induction ks as [|k ks IH]; intros st; [by left|].
  cbn [scan_partner].
  apply below_bind; [apply below_refl|]. intros bi.
  apply below_bind; [apply below_refl|]. intros bk.
  apply below_bind; [by apply call_below|]. intros [|]; [|apply IH].
  apply below_bind; [apply below_refl|]. intros score.
  apply below_bind; [apply below_refl|]. intros cur.
  destruct (cur =? score); [|apply IH].
  apply below_bind; [apply below_refl|]. intros s1.
  apply below_bind; [apply below_refl|]. intros s2.
  apply below_bind; [apply Hrec|]. intros s3. apply Hrec.
Qed.

Lemma traceback_recursive_below frames :
  ∀ frames' i j st, (frames ≤ frames')%nat →
    below (traceback_recursive sequence dp frames i j st)
          (traceback_recursive sequence dp frames' i j st).
Proof.
  induction frames as [|f IH]; intros frames' i j st Hle; [by right|].
  destruct frames' as [|f']; [lia|]. cbn [traceback_recursive].
  destruct (i >? j); [by left|].
  apply below_bind; [apply below_refl|]. intros here.
  apply below_bind; [apply below_refl|]. intros left.
  destruct (here =? left); [apply IH; lia|].
  apply scan_partner_below; [lia|]. intros a b st'. apply IH. lia.
Qed.

End MoreFrames.

Lemma predict_structure_below frames frames' sequence :
  (frames ≤ frames')%nat →
  below (predict_structure frames sequence) (predict_structure frames' sequence).
Proof.
  intros Hle. unfold predict_structure. cbv zeta.
  apply below_bind; [apply below_refl|]. intros dp.
  apply below_bind; [|intros w; apply below_refl].
  unfold traceback. destruct (0 >? _); [by left|].
  by apply traceback_recursive_below.
Qed.

(** ** The predictor on a non-empty sequence *)

Lemma traceback_spec frames sequence dp :
  sequence ≠ [] → square (length sequence) dp → (length sequence < frames)%nat →
  ∃ w, traceback sequence dp frames 0 (Z.of_nat (length sequence) - 1) = Ok w ∧
       length w = length sequence ∧ nested w ∧
       (consistent sequence dp → count LPAREN w = cell dp 0 (Z.of_nat (length sequence) - 1)) ∧
       count RPAREN w = count LPAREN w.
Proof.
  intros Hne Hsq Hframes.
  assert (0 < Z.of_nat (length sequence)) as Hn by (destruct sequence; simpl; [done | lia]).
  unfold traceback. destruct (Z.gtb_spec 0 (Z.of_nat (length sequence) - 1)); [lia|].
  destruct (traceback_recursive_spec sequence dp Hsq frames 0
              (Z.of_nat (length sequence) - 1) (replicate (length sequence) DOT))
    as (st' & w & Hrun & Hw & Hlw & Hnested & Hc & Hb).
  - split; [lia|]. split; [lia|]. split; [apply length_replicate|].
    intros p Hp. apply lookup_replicate_2. lia.
  - lia.
  - assert (length w = length sequence) as Hlen by lia.
    assert (st' = w) as ->.
    { apply (written_whole (replicate (length sequence) DOT)); [done|].
      by rewrite length_replicate. }
    exists w. split; [done|]. split; [done|]. split; [done|]. split; [|done].
    intros Hcons. rewrite (Hc Hcons).
    destruct (Z.leb_spec 0 (Z.of_nat (length sequence) - 1)); [done | lia].
Qed.

(** On a non-empty sequence the predictor returns when more frames are free
    than the sequence has bases, and what it returns is a word of the
    dot-bracket grammar with as many pairs as the table reports. *)
Lemma predict_structure_spec frames sequence :
  sequence ≠ [] → (length sequence < frames)%nat →
  ∃ p, predict_structure frames sequence = Ok p ∧
       pred_sequence p = sequence ∧
       pred_length p = Z.of_nat (length sequence) ∧
       length (pred_structure p) = length sequence ∧
       nested (pred_structure p) ∧
       count LPAREN (pred_structure p) = pred_base_pairs p ∧
       count RPAREN (pred_structure p) = pred_base_pairs p.
Proof.
  intros Hne Hframes.
  assert (0 < Z.of_nat (length sequence)) as Hn by (destruct sequence; simpl; [done | lia]).
  destruct (nussinov_filled sequence) as (dp & Hdp & Hsq & Hrec & Hzero).
  destruct (traceback_spec frames sequence dp Hne Hsq Hframes)
    as (w & Hw & Hlen & Hnested & Hc & Hb).
  unfold predict_structure. simpl. rewrite Hdp, bind_Ok, Hw, bind_Ok.
  rewrite (get_cell (length sequence)) by (done || lia). rewrite bind_Ok.
  eexists. split; [reflexivity|]. simpl.
  do 4 (split; [done|]).
  assert (count LPAREN w = cell dp 0 (Z.of_nat (length sequence) - 1)) as Hcount
    by (apply Hc; by split).
  split; [done | by rewrite Hb].
Qed.

(** ** Stack parses of dot-bracket words *)

Lemma nested_resolves w :
  nested w → ∀ depth rest, resolves depth (w ++ rest) = resolves depth rest.
Proof.
  induction 1 as [|w Hw IH|w1 w2 H1 IH1 H2 IH2]; intros depth rest.
  - done.
  - rewrite <- app_assoc. rewrite IH. reflexivity.
  - change ((LPAREN :: w1 ++ RPAREN :: w2) ++ rest)
      with (LPAREN :: (w1 ++ RPAREN :: w2) ++ rest).
    rewrite <- app_assoc. change (resolves depth (LPAREN :: ?s)) with (resolves (S depth) s).
    cbn [resolves]. change (Ascii.eqb LPAREN LPAREN) with true. cbv iota.
    rewrite IH1. change ((RPAREN :: w2) ++ rest) with (RPAREN :: w2 ++ rest).
    cbn [resolves]. change (Ascii.eqb RPAREN LPAREN) with false.
    change (Ascii.eqb RPAREN RPAREN) with true. cbv iota. apply IH2.
Qed.

Lemma scan_pairs_open pos s stack pairs :
  scan_pairs pos (LPAREN :: s) stack pairs = scan_pairs (pos + 1) s (pos :: stack) pairs.
Proof. reflexivity. Qed.

Lemma scan_pairs_close pos s top stack pairs :
  scan_pairs pos (RPAREN :: s) (top :: stack) pairs =
  scan_pairs (pos + 1) s stack (pairs ++ [(top, pos)]).
Proof. reflexivity. Qed.

Lemma scan_pairs_dot pos s stack pairs :
  scan_pairs pos (DOT :: s) stack pairs = scan_pairs (pos + 1) s stack pairs.
Proof. reflexivity. Qed.

Local Abbreviation len w := (Z.of_nat (length w)).

(** Scanning a word of the grammar leaves the stack as it found it and adds
    one pair per opening bracket, each closed later inside the word. *)
Lemma scan_pairs_nested w :
  nested w →
  ∀ pos rest stack pairs, 0 ≤ pos →
  ∃ new,
    scan_pairs pos (w ++ rest) stack pairs
      = scan_pairs (pos + len w) rest stack (pairs ++ new) ∧
    len new = count LPAREN w ∧
    (∀ a b, (a, b) ∈ new →
       pos ≤ a < b ∧ b < pos + len w ∧
       w !! Z.to_nat (a - pos) = Some LPAREN ∧ w !! Z.to_nat (b - pos) = Some RPAREN) ∧
    (∀ q : nat, w !! q = Some LPAREN → ∃ b, (pos + Z.of_nat q, b) ∈ new).
Proof.
  induction 1 as [|w Hw IH|w1 w2 H1 IH1 H2 IH2]; intros pos rest stack pairs Hpos.
  - exists []. simpl. rewrite app_nil_r, Z.add_0_r.
    split; [done|]. split; [done|]. split.
    + intros a b Hab. by apply elem_of_nil in Hab.
    + intros q Hq. done.
  - destruct (IH pos (DOT :: rest) stack pairs Hpos) as (new & Hrun & Hn & Hin & Hall).
    exists new. rewrite <- app_assoc. simpl app. rewrite Hrun, scan_pairs_dot.
    rewrite length_app. simpl length.
    split; [f_equal; lia|]. split; [|split].
    + rewrite count_app. simpl. change (Ascii.eqb DOT LPAREN) with false. lia.
    + intros a b Hab. destruct (Hin a b Hab) as (? & ? & Ha & Hb).
      split; [lia|]. split; [lia|]. split; apply lookup_app_l_Some; done.
    + intros q Hq. apply Hall.
      destruct (decide (q < length w)%nat) as [Hlt|Hge].
      * by rewrite lookup_app_l in Hq by done.
      * rewrite lookup_app_r in Hq by lia.
        destruct (q - length w)%nat; [by inversion Hq | done].
  - change ((LPAREN :: w1 ++ RPAREN :: w2) ++ rest)
      with (LPAREN :: (w1 ++ RPAREN :: w2) ++ rest).
    rewrite <- app_assoc, scan_pairs_open.
    destruct (IH1 (pos + 1) ((RPAREN :: w2) ++ rest) (pos :: stack) pairs ltac:(lia))
      as (new1 & Hrun1 & Hn1 & Hin1 & Hall1).
    rewrite Hrun1. change ((RPAREN :: w2) ++ rest) with (RPAREN :: w2 ++ rest).
    rewrite scan_pairs_close.
    destruct (IH2 (pos + 1 + len w1 + 1) rest stack
                ((pairs ++ new1) ++ [(pos, pos + 1 + len w1)]) ltac:(lia))
      as (new2 & Hrun2 & Hn2 & Hin2 & Hall2).
    rewrite Hrun2.
    exists (new1 ++ (pos, pos + 1 + len w1) :: new2).
    simpl length. rewrite length_app. simpl length.
    split; [|split; [|split]].
    + f_equal; [lia|]. rewrite <- !app_assoc. done.
    + rewrite length_app. simpl length. simpl. rewrite count_app. simpl.
      change (Ascii.eqb LPAREN LPAREN) with true.
      change (Ascii.eqb RPAREN LPAREN) with false. lia.
    + intros a b Hab. rewrite !lookup_bracket.
      apply elem_of_app in Hab as [Hab|Hab]; [|apply elem_of_cons in Hab as [Hab|Hab]].
      * destruct (Hin1 a b Hab) as (? & ? & Ha & Hb).
        split; [lia|]. split; [lia|].
        rewrite decide_False by lia. rewrite decide_True by lia.
        rewrite decide_False by lia. rewrite decide_True by lia.
        rewrite <- Ha, <- Hb. split; f_equal; lia.
      * injection Hab as -> ->.
        split; [lia|]. split; [lia|].
        rewrite decide_True by lia.
        rewrite decide_False by lia. rewrite decide_False by lia.
        rewrite decide_True by lia. done.
      * destruct (Hin2 a b Hab) as (? & ? & Ha & Hb).
        split; [lia|]. split; [lia|].
        repeat rewrite decide_False by lia.
        rewrite <- Ha, <- Hb. split; f_equal; lia.
    + intros q. rewrite lookup_bracket.
      repeat case_decide; intros Hq.
      * exists (pos + 1 + len w1). apply elem_of_app. right.
        replace (pos + Z.of_nat q) with pos by lia. left.
      * destruct (Hall1 _ Hq) as (b & Hb). exists b. apply elem_of_app. left.
        replace (pos + Z.of_nat q) with (pos + 1 + Z.of_nat (q - 1)) by lia. done.
      * by inversion Hq.
      * destruct (Hall2 _ Hq) as (b & Hb). exists b. apply elem_of_app. right. right.
        replace (pos + Z.of_nat q)
          with (pos + 1 + len w1 + 1 + Z.of_nat (q - 2 - length w1)) by lia.
        done.
Qed.

(** [sorted] rearranges its argument. *)
Lemma elem_of_sorted_insert x p l : x ∈ sorted_insert p l ↔ x = p ∨ x ∈ l.
Proof.
  induction l as [|q l IH]; simpl.
  - rewrite list_elem_of_singleton. split; [by left | intros [|H]; [done | by inversion H]].
  - destruct (tuple_leb p q).
    + rewrite elem_of_cons. done.
    + rewrite !elem_of_cons, IH. tauto.
Qed.

Lemma elem_of_sorted x l : x ∈ sorted l ↔ x ∈ l.
Proof.
  induction l as [|p l IH]; [done|].
  simpl. rewrite elem_of_sorted_insert, elem_of_cons, IH. done.
Qed.

Lemma length_sorted_insert p l : length (sorted_insert p l) = S (length l).
Proof.
  induction l as [|q l IH]; [done|]. simpl.
  destruct (tuple_leb p q); simpl; [done | by rewrite IH].
Qed.

Lemma length_sorted l : length (sorted l) = length l.
Proof.
  induction l as [|p l IH]; [done|]. simpl. by rewrite length_sorted_insert, IH.
Qed.

(** The analyzer's own stack parse resolves every bracket of a word of the
    grammar. *)
Lemma get_base_pairs_nested w :
  nested w →
  len (get_base_pairs w) = count LPAREN w ∧
  (∀ a b, (a, b) ∈ get_base_pairs w →
     0 ≤ a < b ∧ w !! Z.to_nat a = Some LPAREN ∧ w !! Z.to_nat b = Some RPAREN) ∧
  (∀ q : nat, w !! q = Some LPAREN →
     ∃ b, (Z.of_nat q, b) ∈ get_base_pairs w).
Proof.
  intros Hw. unfold get_base_pairs.
  destruct (scan_pairs_nested w Hw 0 [] [] [] ltac:(lia)) as (new & Hrun & Hn & Hin & Hall).
  rewrite app_nil_r in Hrun. rewrite Hrun. simpl.
  split; [by rewrite length_sorted|]. split.
  - intros a b Hab. apply (proj1 (elem_of_sorted _ _)) in Hab.
    destruct (Hin a b Hab) as (? & ? & Ha & Hb).
    rewrite Z.sub_0_r in Ha, Hb. split; [lia | done].
  - intros q Hq. destruct (Hall q Hq) as (b & Hb). exists b.
    apply (proj2 (elem_of_sorted _ _)). done.
Qed.

(** ** Pairs found by a stack never cross *)

Lemma crosses_false p q :
  crosses p q = false ↔
  ¬ (p.1 < q.1 ∧ q.1 < p.2 ∧ p.2 < q.2) ∧ ¬ (q.1 < p.1 ∧ p.1 < q.2 ∧ q.2 < p.2).
Proof.
  unfold crosses.
  destruct (Z.ltb_spec p.1 q.1); destruct (Z.ltb_spec q.1 p.2);
    destruct (Z.ltb_spec p.2 q.2); destruct (Z.ltb_spec q.1 p.1);
    destruct (Z.ltb_spec p.1 q.2); destruct (Z.ltb_spec q.2 p.2);
    simpl; split; (discriminate || lia || (intros; (done || lia))).
Qed.

Lemma scan_inv_push pos stack pairs :
  scan_inv pos stack pairs → scan_inv (pos + 1) (pos :: stack) pairs.
Proof.
  intros [Hc Hs Hd Ho Hl]. split.
  - intros a b Hab. destruct (Hc a b Hab). lia.
  - intros t Ht. apply elem_of_cons in Ht as [->|Ht]; [lia|]. specialize (Hs t Ht). lia.
  - split; [done | done].
  - intros t a b Ht Hab. apply elem_of_cons in Ht as [->|Ht]; [|by apply Ho].
    destruct (Hc a b Hab). lia.
  - done.
Qed.

Lemma scan_inv_skip pos stack pairs :
  scan_inv pos stack pairs → scan_inv (pos + 1) stack pairs.
Proof.
  intros [Hc Hs Hd Ho Hl]. split; try done.
  - intros a b Hab. destruct (Hc a b Hab). lia.
  - intros t Ht. specialize (Hs t Ht). lia.
Qed.

Lemma scan_inv_pop pos top stack pairs :
  scan_inv pos (top :: stack) pairs → scan_inv (pos + 1) stack (pairs ++ [(top, pos)]).
Proof.
  intros [Hc Hs [Hd1 Hd2] Ho Hl].
  assert (top < pos) as Htop by (apply Hs; left).
  split.
  - intros a b Hab. apply elem_of_app in Hab as [Hab|Hab].
    + destruct (Hc a b Hab). lia.
    + apply list_elem_of_singleton in Hab. injection Hab as -> ->. lia.
  - intros t Ht. assert (t < pos) by (apply Hs; by right). lia.
  - done.
  - intros t a b Ht Hab. apply elem_of_app in Hab as [Hab|Hab].
    + apply (Ho t a b); [by right | done].
    + apply list_elem_of_singleton in Hab. injection Hab as -> ->.
      specialize (Hd1 t Ht). lia.
  - intros p q Hp Hq. apply crosses_false.
    apply elem_of_app in Hp as [Hp|Hp]; apply elem_of_app in Hq as [Hq|Hq].
    + apply crosses_false. by apply Hl.
    + apply list_elem_of_singleton in Hq. subst q. destruct p as [a b]. simpl.
      destruct (Hc a b Hp). pose proof (Ho top a b ltac:(left) Hp). lia.
    + apply list_elem_of_singleton in Hp. subst p. destruct q as [a b]. simpl.
      destruct (Hc a b Hq). pose proof (Ho top a b ltac:(left) Hq). lia.
    + apply list_elem_of_singleton in Hp. apply list_elem_of_singleton in Hq.
      subst p q. simpl. lia.
Qed.

Lemma scan_pairs_laminar structure :
  ∀ pos stack pairs, scan_inv pos stack pairs →
                     laminar (scan_pairs pos structure stack pairs).
Proof.
  induction structure as [|char rest IH]; intros pos stack pairs Hinv.
  - simpl. by destruct Hinv.
  - cbn [scan_pairs]. destruct (Ascii.eqb char LPAREN).
    + apply IH. by apply scan_inv_push.
    + destruct (Ascii.eqb char RPAREN); [|apply IH; by apply scan_inv_skip].
      destruct stack as [|top stack]; [apply IH; by apply scan_inv_skip|].
      apply IH. by apply scan_inv_pop.
Qed.

Lemma scan_inv_start : scan_inv 0 [] [].
Proof.
  split; try done.
  - intros a b H. by apply elem_of_nil in H.
  - intros t H. by apply elem_of_nil in H.
  - intros t a b H. by apply elem_of_nil in H.
  - intros p q H. by apply elem_of_nil in H.
Qed.

Lemma get_base_pairs_laminar structure : laminar (get_base_pairs structure).
Proof.
  intros p q Hp Hq. unfold get_base_pairs in *.
  apply (proj1 (elem_of_sorted _ _)) in Hp. apply (proj1 (elem_of_sorted _ _)) in Hq.
  by apply (scan_pairs_laminar structure 0 [] [] scan_inv_start).
Qed.

Lemma omap_all_None {A B} (f : A → option B) (l : list A) :
  (∀ x, x ∈ l → f x = None) → omap f l = [].
Proof.
  induction l as [|x l IH]; intros H; [done|].
  simpl. rewrite (H x) by left. apply IH. intros y Hy. apply H. by right.
Qed.

Lemma crossings_of_laminar pairs : laminar pairs → crossings_of pairs = [].
Proof.
  induction pairs as [|p1 later IH]; intros Hl; [done|].
  cbn [crossings_of]. rewrite IH.
  - rewrite app_nil_r. apply omap_all_None. intros p2 Hp2.
    rewrite (Hl p1 p2); [done | by left | by right].
  - intros p q Hp Hq. apply Hl; by right.
Qed.

(** The crossing detector finds nothing in the pairs of any string at all. *)
Lemma identify_crossing_patterns_nil structure :
  identify_crossing_patterns structure = [].
Proof. apply crossings_of_laminar, get_base_pairs_laminar. Qed.

(** ** Writhe *)

Lemma writhe_loop_ranked structure :
  ∀ stack writhe, ranked stack → writhe_loop structure stack writhe = writhe.
Proof.
  induction structure as [|char rest IH]; intros stack writhe Hr; [done|].
  cbn [writhe_loop]. destruct (Ascii.eqb char LPAREN).
  - apply IH. by split.
  - destruct (Ascii.eqb char RPAREN); [|by apply IH].
    destruct stack as [|top below]; [by apply IH|].
    destruct Hr as [Htop Hbelow].
    destruct (Z.eqb_spec (Z.of_nat (length (top :: below)) - 1 - top) 0) as [_|Hne].
    + rewrite IH by done. lia.
    + simpl length in Hne. lia.
Qed.

Lemma compute_writhe_zero structure : compute_writhe structure = 0.
Proof. by apply writhe_loop_ranked. Qed.

(** ** Sliding windows *)

Lemma range_step_positive lo hi step :
  0 < step →
  ∃ m : nat,
    Py.range_step lo hi step = Ok ((λ k : nat, lo + Z.of_nat k * step) <$> seq 0 m) ∧
    ∀ k : nat, (k < m)%nat ↔ lo + Z.of_nat k * step < hi.
Proof.
  intros Hstep. unfold Py.range_step.
  destruct (Z.eqb_spec step 0); [lia|]. destruct (Z.ltb_spec 0 step); [|lia].
  exists (Z.to_nat ((hi - lo + step - 1) / step)). split; [done|].
  intros k.
  pose proof (Z.div_mod (hi - lo + step - 1) step ltac:(lia)) as Hdm.
  pose proof (Z.mod_pos_bound (hi - lo + step - 1) step Hstep) as Hmod.
  set (c := (hi - lo + step - 1) / step) in *.
  split; intros Hk.
  - assert (Z.of_nat k + 1 ≤ c) by lia. nia.
  - assert (Z.of_nat k < c) by nia. lia.
Qed.

Lemma length_slice {A} (l : list A) lo hi :
  0 ≤ lo ≤ hi → hi ≤ Z.of_nat (length l) →
  Z.of_nat (length (Py.slice l lo hi)) = hi - lo.
Proof.
  intros Hlo Hhi. unfold Py.slice, Py.clip.
  rewrite length_take, length_drop.
  destruct (Z.ltb_spec lo 0); destruct (Z.ltb_spec hi 0); lia.
Qed.

Section Windows.
Variable frames : nat.
Variable window_size : Z.
Variable sequence : list ascii.
Hypothesis Hsize : 0 < window_size.
Hypothesis Hframes : window_size < Z.of_nat frames.

Lemma windows_loop starts :
  ∀ acc,
  (∀ i, i ∈ starts → 0 ≤ i ∧ i + window_size < Z.of_nat (length sequence)) →
  ∃ rs,
    for_each starts (predict_window frames window_size sequence) acc
      = Ok (acc ++ rs) ∧
    window_start <$> rs = starts ∧
    Forall (window_ok frames window_size sequence) rs.
Proof.
  induction starts as [|i starts IH]; intros acc Hstarts.
  - exists []. simpl. by rewrite app_nil_r.
  - destruct (Hstarts i ltac:(left)) as [Hi Hend].
    pose proof (length_slice sequence i (i + window_size) ltac:(lia) ltac:(lia)) as Hlen.
    destruct (predict_structure_spec frames (Py.slice sequence i (i + window_size)))
      as (p & Hp & Hseq & _).
    { intros Hnil. rewrite Hnil in Hlen. simpl in Hlen. lia. }
    { lia. }
    cbn [for_each].
    assert (predict_window frames window_size sequence i acc
            = Ok (acc ++ [{| win_pred := p; window_start := i;
                             window_end := i + window_size |}])) as ->
      by (unfold predict_window; cbv zeta; by rewrite Hp).
    rewrite bind_Ok.
    destruct (IH (acc ++ [{| win_pred := p; window_start := i;
                             window_end := i + window_size |}]))
      as (rs & Hrun & Hst & Hok).
    { intros i' Hi'. apply Hstarts. by right. }
    rewrite Hrun.
    exists ({| win_pred := p; window_start := i; window_end := i + window_size |} :: rs).
    split; [by rewrite <- app_assoc|]. split; [rewrite fmap_cons; by rewrite Hst|].
    constructor; [|done].
    unfold window_ok. simpl. split; [done|]. split; [done|]. split; [done|].
    rewrite Hseq. lia.
Qed.

End Windows.

(** ** Comparisons on scores *)

Lemma Qltb_lt x y : Qltb x y = true ↔ (x < y)%Q.
Proof.
  unfold Qltb. rewrite negb_true_iff. split.
  - intros H. destruct (Qlt_le_dec x y) as [|Hle]; [done|].
    apply Qle_bool_iff in Hle. congruence.
  - intros H. destruct (Qle_bool y x) eqn:E; [|done].
    apply Qle_bool_iff in E. exfalso. by apply (Qlt_not_le x y).
Qed.

Lemma Qltb_ge x y : Qltb x y = false ↔ (y <= x)%Q.
Proof.
  split.
  - intros H. apply Qnot_lt_le. intros Hlt. apply Qltb_lt in Hlt. congruence.
  - intros H. destruct (Qltb x y) eqn:E; [|done].
    apply Qltb_lt in E. exfalso. by apply (Qlt_not_le x y).
Qed.

Lemma risk_level_of_spec (c : Q) :
  (risk_level_of c = LOW ↔ (c < 0.1)%Q) ∧
  (risk_level_of c = MEDIUM ↔ (0.1 <= c)%Q ∧ (c < 0.2)%Q) ∧
  (risk_level_of c = HIGH ↔ (0.2 <= c)%Q ∧ (c < 0.3)%Q) ∧
  (risk_level_of c = CRITICAL ↔ (0.3 <= c)%Q).
Proof.
  unfold risk_level_of.
  destruct (Qltb c 0.1) eqn:E1; [apply Qltb_lt in E1 | apply Qltb_ge in E1];
  (destruct (Qltb c 0.2) eqn:E2; [apply Qltb_lt in E2 | apply Qltb_ge in E2]);
  (destruct (Qltb c 0.3) eqn:E3; [apply Qltb_lt in E3 | apply Qltb_ge in E3]);
  repeat split; intros; try discriminate; try done; try lra;
  repeat match goal with H : _ ∧ _ |- _ => destruct H end; try lra.
Qed.

(** Clamping a score at [1.0] does not move it across a threshold below one. *)
Lemma clamp_lt (c t : Q) : (t <= 1)%Q → (Qmin c 1 < t)%Q ↔ (c < t)%Q.
Proof. intros Ht. rewrite Q.min_lt_iff. split; [intros [|]; lra | by left]. Qed.

Lemma clamp_le (c t : Q) : (t <= 1)%Q → (t <= Qmin c 1)%Q ↔ (t <= c)%Q.
Proof. intros Ht. rewrite Q.min_glb_iff. split; [by intros [] | done]. Qed.

(** ** Every entry of the table is achieved by a nested pairing *)

Lemma admissible_nil sequence i j : admissible_pairing sequence i j [].
Proof.
  split; [|split].
  - intros a b H. by apply elem_of_nil in H.
  - simpl. constructor.
  - intros p q H. by apply elem_of_nil in H.
Qed.

Lemma admissible_widen sequence i j i' j' pairs :
  admissible_pairing sequence i j pairs → i' ≤ i → j ≤ j' →
  admissible_pairing sequence i' j' pairs.
Proof.
  intros (Hin & Hnd & Hl) Hi Hj. split; [|done].
  intros a b Hab. destruct (Hin a b Hab) as (? & ? & ? & ?).
  repeat split; (done || lia).
Qed.

Lemma admissible_positions sequence i j pairs x :
  admissible_pairing sequence i j pairs → x ∈ pairs.*1 ++ pairs.*2 → i ≤ x ≤ j.
Proof.
  intros (Hin & _ & _) Hx.
  apply elem_of_app in Hx as [Hx|Hx]; apply list_elem_of_fmap in Hx as ([a b] & -> & Hab);
    destruct (Hin a b Hab) as (? & ? & ? & _); simpl; lia.
Qed.

(** Pairing [i] with [k] around a pairing of [i+1..k-1] and before a pairing
    of [k+1..j]. *)
Lemma admissible_pair sequence i j k inner outer :
  i < k → k ≤ j → pairs_at sequence i k = true →
  admissible_pairing sequence (i + 1) (k - 1) inner →
  admissible_pairing sequence (k + 1) j outer →
  admissible_pairing sequence i j ((i, k) :: inner ++ outer).
Proof.
  intros Hik Hkj Hp H1 H2.
  assert (∀ x, x ∈ inner.*1 ++ inner.*2 → i + 1 ≤ x ≤ k - 1) as Hpos1
    by (intros x; by apply (admissible_positions sequence)).
  assert (∀ x, x ∈ outer.*1 ++ outer.*2 → k + 1 ≤ x ≤ j) as Hpos2
    by (intros x; by apply (admissible_positions sequence)).
  destruct H1 as (Hin1 & Hnd1 & Hl1). destruct H2 as (Hin2 & Hnd2 & Hl2).
  split; [|split].
  - intros a b Hab. apply elem_of_cons in Hab as [Hab|Hab].
    + injection Hab as -> ->. repeat split; (done || lia).
    + apply elem_of_app in Hab as [Hab|Hab].
      * destruct (Hin1 a b Hab) as (? & ? & ? & ?). repeat split; (done || lia).
      * destruct (Hin2 a b Hab) as (? & ? & ? & ?). repeat split; (done || lia).
  - assert (((i, k) :: inner ++ outer).*1 ++ ((i, k) :: inner ++ outer).*2
            ≡ₚ i :: k :: (inner.*1 ++ inner.*2) ++ (outer.*1 ++ outer.*2)) as ->.
    { rewrite !fmap_cons, !fmap_app. simpl.
      apply Permutation_skip. rewrite <- Permutation_middle.
      apply Permutation_skip. rewrite <- !app_assoc.
      apply Permutation_app_head. rewrite !app_assoc.
      apply Permutation_app_tail. apply Permutation_app_comm. }
    apply NoDup_cons_2.
    { intros Hi. apply elem_of_cons in Hi as [->|Hi]; [lia|].
      apply elem_of_app in Hi as [Hi|Hi]; [apply Hpos1 in Hi | apply Hpos2 in Hi]; lia. }
    apply NoDup_cons_2.
    { intros Hk. apply elem_of_app in Hk as [Hk|Hk];
        [apply Hpos1 in Hk | apply Hpos2 in Hk]; lia. }
    apply (proj2 (list.NoDup_app _ _)). split; [done|]. split; [|done].
    intros x Hx1 Hx2. apply Hpos1 in Hx1. apply Hpos2 in Hx2. lia.
  - intros p q Hp' Hq'. apply crosses_false.
    assert (∀ r, r ∈ (i, k) :: inner ++ outer →
                 r = (i, k) ∨ (i + 1 ≤ r.1 ∧ r.1 < r.2 ∧ r.2 ≤ k - 1 ∧ r ∈ inner)
                 ∨ (k + 1 ≤ r.1 ∧ r.1 < r.2 ∧ r.2 ≤ j ∧ r ∈ outer)) as Hcase.
    { intros [a b] Hr. apply elem_of_cons in Hr as [Hr|Hr]; [by left|].
      apply elem_of_app in Hr as [Hr|Hr].
      - destruct (Hin1 a b Hr) as (? & ? & ? & _). right. left. simpl. done.
      - destruct (Hin2 a b Hr) as (? & ? & ? & _). right. right. simpl. done. }
    destruct (Hcase p Hp') as [->|[(? & ? & ? & Hp1)|(? & ? & ? & Hp2)]];
      destruct (Hcase q Hq') as [->|[(? & ? & ? & Hq1)|(? & ? & ? & Hq2)]];
      simpl; try lia.
    + apply crosses_false. by apply Hl1.
    + apply crosses_false. by apply Hl2.
Qed.

Section Achieved.
Variable sequence : list ascii.
Variable dp : Np.matrix.
Hypothesis Hcons : consistent sequence dp.

Lemma table_entry_achieved (m : nat) :
  ∀ i j, 0 ≤ i → j < Z.of_nat (length sequence) → j - i < Z.of_nat m →
  ∃ pairs, admissible_pairing sequence i j pairs ∧
           Z.of_nat (length pairs) = if i <=? j then cell dp i j else 0.
Proof.
  destruct Hcons as [Hrec Hzero].
  induction m as [|m IH]; intros i j Hi Hj Hm.
  { exists []. split; [apply admissible_nil|].
    destruct (Z.leb_spec i j); [lia | done]. }
  destruct (Z.leb_spec i j) as [Hle|Hgt]; cycle 1.
  { exists []. split; [apply admissible_nil | done]. }
  destruct (decide (i = j)) as [->|Hne].
  { exists []. split; [apply admissible_nil|]. rewrite Hzero by lia. done. }
  rewrite Hrec by lia. unfold recurrence.
  destruct (best_witness sequence dp i j (Py.range i j) (cell dp i (j - 1)))
    as [->|(k & Hk & Hp & ->)].
  - destruct (IH i (j - 1)) as (pairs & Hadm & Hlen); [lia | lia | lia |].
    exists pairs. split; [apply (admissible_widen _ i (j - 1)); (done || lia)|].
    rewrite Hlen. destruct (Z.leb_spec i (j - 1)); [done | lia].
  - apply elem_of_range in Hk.
    assert (i < k) as Hik.
    { destruct (decide (i = k)) as [->|]; [|lia].
      unfold pairs_at in Hp. by rewrite can_pair_irrefl in Hp. }
    destruct (IH (i + 1) (k - 1)) as (inner & Hadm1 & Hlen1); [lia | lia | lia |].
    destruct (IH (k + 1) j) as (outer & Hadm2 & Hlen2); [lia | lia | lia |].
    exists ((i, k) :: inner ++ outer).
    split; [apply admissible_pair; (done || lia)|].
    simpl length. rewrite length_app. unfold score_of. lia.
Qed.

End Achieved.

(** Each entry of the table on or above the diagonal is the size of some
    properly nested pairing of its span: the table never overestimates. *)
Lemma table_is_achieved sequence :
  ∃ dp, nussinov_algorithm sequence 1 = Ok dp ∧
        ∀ i j, 0 ≤ i → i ≤ j → j < Z.of_nat (length sequence) →
          ∃ pairs, Np.get dp i j = Ok (Z.of_nat (length pairs)) ∧
                   admissible_pairing sequence i j pairs.
Proof.
  destruct (nussinov_filled sequence) as (dp & Hdp & Hsq & Hrec & Hzero).
  exists dp. split; [done|]. intros i j Hi Hij Hj.
  destruct (table_entry_achieved sequence dp (conj Hrec Hzero)
              (Z.to_nat (j - i + 1)) i j) as (pairs & Hadm & Hlen); [lia | lia | lia |].
  exists pairs. split; [|done].
  rewrite (get_cell (length sequence)) by (done || lia).
  rewrite Hlen. destruct (Z.leb_spec i j); [done | lia].
Qed.

(** * The claims *)

(** The empty sequence: the table has no row, and reading
    [dp[0][len(sequence) - 1]] from it raises. *)
Lemma predict_structure_empty frames :
  predict_structure frames [] = Raise IndexError.
Proof. reflexivity. Qed.

(** A call that fails for want of frames with [d] of them and returns with
    one more: this settles it for every number of frames. *)
Lemma predict_structure_threshold (d : nat) sequence p :
  predict_structure d sequence = Raise RecursionError →
  predict_structure (S d) sequence = Ok p →
  ∀ frames, predict_structure frames sequence
            = if (frames <=? d)%nat then Raise RecursionError else Ok p.
Proof.
  intros Hlow Hhigh frames. destruct (Nat.leb_spec frames d) as [Hle|Hgt].
  - destruct (predict_structure_below frames d sequence Hle) as [H|H]; [|done].
    by rewrite H.
  - apply (below_Ok (predict_structure (S d) sequence)); [|done].
    apply predict_structure_below. lia.
Qed.

(** C1.  The worked example.  On ["GGGGCCCC"] the code does not return
    ["(((())))"] with four pairs: the loop [for k in range(i, j)] never tries
    the last position [j] of a span as the partner of [i], so the table holds
    2 at [[0][7]], [predict_structure] reports 2 base pairs and the structure
    is ["((..).)."].  The traceback of this sequence nests five frames deep;
    with fewer free frames the call raises [RecursionError], and it never
    returns anything else. *)
Theorem worked_example_GGGGCCCC :
  ∃ p, (∀ frames, predict_structure frames (str "GGGGCCCC")
                  = if (frames <=? 4)%nat then Raise RecursionError else Ok p) ∧
       nussinov_algorithm (str "GGGGCCCC") 1 = Ok (pred_score_matrix p) ∧
       pred_structure p = str "((..).)." ∧
       pred_base_pairs p = 2 ∧
       Np.get (pred_score_matrix p) 0 7 = Ok 2.
Proof.
  eexists. split.
  - apply predict_structure_threshold; vm_compute; reflexivity.
  - by vm_compute.
Qed.

(** C2.  The table is not the maximum number of nested pairs.  On ["GC"] the
    only span of length two is [0..1]; pairing 0 with 1 is allowed by
    [can_pair] and is the maximum, one pair, but the fill only tries [k = 0]
    and leaves [matrix[0][1]] at 0.  What does hold for every sequence is one
    half of the property: each entry on or above the diagonal is the size of
    some properly nested pairing of its span. *)
Theorem fill_misses_adjacent_pair :
  (∃ dp, nussinov_algorithm (str "GC") 1 = Ok dp ∧
         Np.get dp 0 1 = Ok 0 ∧
         admissible_pairing (str "GC") 0 1 [(0, 1)] ∧
         max_pairs (str "GC") 0 1 1) ∧
  (∀ sequence,
     ∃ dp, nussinov_algorithm sequence 1 = Ok dp ∧
           ∀ i j, 0 ≤ i → i ≤ j → j < Z.of_nat (length sequence) →
             ∃ pairs, Np.get dp i j = Ok (Z.of_nat (length pairs)) ∧
                      admissible_pairing sequence i j pairs).
Proof.
  split; [|apply table_is_achieved].
  assert (admissible_pairing (str "GC") 0 1 [(0, 1)]) as Hadm.
  { split; [|split].
    - intros a b Hab. apply list_elem_of_singleton in Hab. injection Hab as -> ->.
      by vm_compute.
    - simpl. apply NoDup_cons_2; [|apply NoDup_singleton].
      intros H. apply list_elem_of_singleton in H. discriminate.
    - intros p q Hp Hq. apply list_elem_of_singleton in Hp, Hq. by subst. }
  eexists. split; [vm_compute; reflexivity|]. split; [by vm_compute|].
  split; [done|]. split; [by exists [(0, 1)]|].
  intros pairs (Hin & Hnd & _).
  assert (∀ p, p ∈ pairs → p = (0, 1)) as Hall.
  { intros [a b] Hp. destruct (Hin a b Hp) as (? & ? & ? & _). f_equal; lia. }
  destruct pairs as [|p [|q pairs]]; simpl; try lia.
  rewrite (Hall p), (Hall q) in Hnd by (repeat constructor).
  simpl in Hnd. apply NoDup_cons_1_1 in Hnd.
  exfalso. apply Hnd. left.
Qed.

(** C3.  Short sequences.  A sequence of length one is predicted as ["."]
    with no base pair (its traceback nests two frames), but the empty
    sequence is not: [traceback] returns the empty string for it, and
    [predict_structure] then reads [dp[0][len(sequence) - 1]] from a table
    without rows, which raises [IndexError], however many frames are
    free. *)
Theorem predict_structure_short_sequences :
  (∀ frames, predict_structure frames [] = Raise IndexError) ∧
  ∀ (base : ascii) (frames : nat),
    predict_structure frames [base]
    = if (frames <=? 1)%nat then Raise RecursionError
      else Ok {| pred_sequence := [base];
                 pred_structure := [DOT];
                 pred_base_pairs := 0;
                 pred_score_matrix := [[0]];
                 pred_length := 1 |}.
Proof.
  split; [apply predict_structure_empty|]. intros base.
  by apply predict_structure_threshold.
Qed.

(** C4.  Shape of the predicted structure.  For every non-empty sequence
    and more free frames than the sequence has bases, [predict_structure]
    returns a structure of the length of the sequence whose number of ['('],
    number of [')'] and number of pairs found by the analyzer's stack parse
    all equal the reported base-pair count; every ['('] is matched by a later
    [')'], a stack parse resolves every bracket and no two pairs cross.
    With fewer frames the call returns the same or raises
    [RecursionError].  For the empty sequence nothing is returned: the call
    raises [IndexError]. *)
Theorem predict_structure_well_formed :
  (∀ frames, predict_structure frames [] = Raise IndexError) ∧
  (∀ frames frames' sequence, (frames ≤ frames')%nat →
     predict_structure frames sequence = predict_structure frames' sequence ∨
     predict_structure frames sequence = Raise RecursionError) ∧
  ∀ frames sequence, sequence ≠ [] → (length sequence < frames)%nat →
    ∃ p, predict_structure frames sequence = Ok p ∧
         length (pred_structure p) = length sequence ∧
         count LPAREN (pred_structure p) = pred_base_pairs p ∧
         count RPAREN (pred_structure p) = pred_base_pairs p ∧
         Z.of_nat (length (get_base_pairs (pred_structure p))) = pred_base_pairs p ∧
         (∀ q : nat, pred_structure p !! q = Some LPAREN →
            ∃ b, (Z.of_nat q, b) ∈ get_base_pairs (pred_structure p) ∧
                 Z.of_nat q < b ∧
                 pred_structure p !! Z.to_nat b = Some RPAREN) ∧
         resolves 0 (pred_structure p) = true ∧
         laminar (get_base_pairs (pred_structure p)).
Proof.
  split; [apply predict_structure_empty|].
  split; [intros frames frames' sequence Hle; by apply predict_structure_below|].
  intros frames sequence Hne Hframes.
  destruct (predict_structure_spec frames sequence Hne Hframes)
    as (p & Hp & _ & _ & Hlen & Hnested & Hopen & Hclose).
  destruct (get_base_pairs_nested _ Hnested) as (Hpairs & Hin & Hall).
  exists p. split; [done|]. do 3 (split; [done|]).
  split; [by rewrite Hpairs|]. split.
  - intros q Hq. destruct (Hall q Hq) as (b & Hb). exists b.
    destruct (Hin _ _ Hb) as (? & _ & ?). split; [done|]. split; [lia | done].
  - split; [|apply get_base_pairs_laminar].
    rewrite <- (app_nil_r (pred_structure p)). by rewrite nested_resolves.
Qed.

(** C5.  No crossings.  For every non-empty sequence and more free frames
    than the sequence has bases, [predict_structure] returns and the
    crossing detector returns the empty list on the predicted structure; it
    does so on every structure that [predict_structure] returns with any
    number of frames, and indeed on every string, since the pairs come from
    a stack.  For the empty sequence [predict_structure] raises [IndexError]
    and there is no structure to analyse. *)
Theorem predicted_structure_never_crosses :
  (∀ frames, predict_structure frames [] = Raise IndexError) ∧
  (∀ frames sequence, sequence ≠ [] → (length sequence < frames)%nat →
     ∃ p, predict_structure frames sequence = Ok p ∧
          identify_crossing_patterns (pred_structure p) = []) ∧
  (∀ frames sequence p, predict_structure frames sequence = Ok p →
     identify_crossing_patterns (pred_structure p) = []).
Proof.
  split; [apply predict_structure_empty|]. split.
  - intros frames sequence Hne Hframes.
    destruct (predict_structure_spec frames sequence Hne Hframes) as (p & Hp & _).
    exists p. split; [done|]. apply identify_crossing_patterns_nil.
  - intros frames sequence p _. apply identify_crossing_patterns_nil.
Qed.

(** C6.  Summarising no records fails: [max] of the empty list raises
    [ValueError], which happens for the empty input only, so no summary is
    returned there; a summary that is returned has a number, never [nan], as
    its average complexity. *)
Theorem summarize_empty_fails :
  summarize_knot_regions [] = Raise ValueError ∧
  (∀ records e, summarize_knot_regions records = Raise e → records = []) ∧
  (∀ records s, summarize_knot_regions records = Ok s →
                records ≠ [] ∧ ∃ q, average_complexity s = Finite q).
Proof.
  split; [reflexivity|]. split.
  - intros [|r records] e H; [done|]. discriminate.
  - intros [|r records] s H; [discriminate|].
    split; [done|]. unfold summarize_knot_regions in H.
    apply bind_inv_Ok in H as (m & _ & H). injection H as <-. simpl. eauto.
Qed.

(** C7.  Sliding windows.  For a positive window size, a positive stride and
    more free frames than a window has bases, the scan returns one window
    per offset [0, stride, 2 * stride, ...] with
    [start + window_size < len(sequence)], in this order and no other; each
    window is the slice [sequence[start:start + window_size]], of length
    [window_size]; a sequence no longer than the window gives no window. *)
Theorem sliding_window_offsets (frames : nat) (sequence : list ascii)
    (window_size stride : Z) :
  0 < window_size → 0 < stride → window_size < Z.of_nat frames →
  ∃ (results : list window_prediction) (m : nat),
    sliding_window_prediction frames window_size sequence stride = Ok results ∧
    window_start <$> results = (λ k : nat, Z.of_nat k * stride) <$> seq 0 m ∧
    (∀ k : nat, (k < m)%nat ↔
                Z.of_nat k * stride + window_size < Z.of_nat (length sequence)) ∧
    Forall (window_ok frames window_size sequence) results ∧
    (Z.of_nat (length sequence) ≤ window_size → results = []).
Proof.
  intros Hsize Hstride Hframes.
  destruct (range_step_positive 0 (Z.of_nat (length sequence) - window_size) stride Hstride)
    as (m & Hrange & Hm).
  destruct (windows_loop frames window_size sequence Hsize Hframes
              ((λ k : nat, 0 + Z.of_nat k * stride) <$> seq 0 m) [])
    as (rs & Hrun & Hstarts & Hok).
  { intros i Hi. apply list_elem_of_fmap in Hi as (k & -> & Hk).
    apply elem_of_seq in Hk. pose proof (proj1 (Hm k) ltac:(lia)). nia. }
  exists rs, m. unfold sliding_window_prediction. rewrite Hrange, bind_Ok, Hrun.
  split; [done|]. split; [|split; [|split]].
  - rewrite Hstarts. apply list_fmap_ext. intros _ k _. lia.
  - intros k. rewrite Hm. lia.
  - done.
  - intros Hshort. destruct m as [|m].
    + simpl in Hstarts. by apply fmap_nil_inv in Hstarts.
    + pose proof (proj1 (Hm 0%nat) ltac:(lia)). lia.
Qed.

(** The scan of ["GCAGCATT"] with windows of three bases every two
    positions, four frames being free. *)
Lemma sliding_window_offsets_witness :
  ∃ (results : list window_prediction) (m : nat),
    sliding_window_prediction 4 3 (str "GCAGCATT") 2 = Ok results ∧
    window_start <$> results = (λ k : nat, Z.of_nat k * 2) <$> seq 0 m ∧
    (∀ k : nat, (k < m)%nat ↔
                Z.of_nat k * 2 + 3 < Z.of_nat (length (str "GCAGCATT"))) ∧
    Forall (window_ok 4 3 (str "GCAGCATT")) results ∧
    (Z.of_nat (length (str "GCAGCATT")) ≤ 3 → results = []).
Proof. apply (sliding_window_offsets 4 (str "GCAGCATT") 3 2); reflexivity. Defined.

(** C8.  Risk tiers.  For every structure and every setting of the two
    thresholds, [detect_knots] reports LOW exactly when the complexity score
    is below 0.1, MEDIUM exactly when it is in [0.1, 0.2), HIGH exactly when
    it is in [0.2, 0.3) and CRITICAL exactly when it is at least 0.3; a score
    equal to 0.1, 0.2 or 0.3 is classified MEDIUM, HIGH or CRITICAL. *)
Theorem risk_level_thresholds (writhe_threshold : Q) (crossing_threshold : Z)
    (structure : list ascii) :
  let r := detect_knots writhe_threshold crossing_threshold structure in
  (risk_level r = LOW ↔ (complexity_score r < 0.1)%Q) ∧
  (risk_level r = MEDIUM ↔ (0.1 <= complexity_score r)%Q ∧ (complexity_score r < 0.2)%Q) ∧
  (risk_level r = HIGH ↔ (0.2 <= complexity_score r)%Q ∧ (complexity_score r < 0.3)%Q) ∧
  (risk_level r = CRITICAL ↔ (0.3 <= complexity_score r)%Q) ∧
  (∀ c, (c == 0.1)%Q → risk_level_of c = MEDIUM) ∧
  (∀ c, (c == 0.2)%Q → risk_level_of c = HIGH) ∧
  (∀ c, (c == 0.3)%Q → risk_level_of c = CRITICAL).
Proof.
  intros r. subst r. unfold detect_knots. cbn [risk_level complexity_score].
  match goal with |- context [risk_level_of ?c] => set (complexity := c) end.
  destruct (risk_level_of_spec complexity) as (H1 & H2 & H3 & H4).
  rewrite !clamp_lt, !clamp_le by lra.
  do 4 (split; [done|]).
  split; [|split]; intros c Hc; apply (risk_level_of_spec c); lra.
Qed.

(** C9.  The [knot_prone] flag of [detect_knots] is true exactly when the
    absolute writhe reaches the writhe threshold or the number of crossings
    reaches the crossing threshold.  With the thresholds of [config.py], 8.0
    and 2: writhe 8.0 with no crossing is knot-prone, writhe 0 with two
    crossings is knot-prone, writhe 7.9 with one crossing is not. *)
Theorem knot_prone_criterion (writhe_threshold : Q) (crossing_threshold : Z)
    (structure : list ascii) :
  let r := detect_knots writhe_threshold crossing_threshold structure in
  (knot_prone r = true ↔
     (writhe_threshold <= Qabs (writhe r))%Q ∨ crossing_threshold ≤ crossing_count r) ∧
  knot_prone_of Config.WRITHE_THRESHOLD Config.CROSSING_NUMBER_THRESHOLD 8 0 = true ∧
  knot_prone_of Config.WRITHE_THRESHOLD Config.CROSSING_NUMBER_THRESHOLD 0 2 = true ∧
  knot_prone_of Config.WRITHE_THRESHOLD Config.CROSSING_NUMBER_THRESHOLD 7.9 1 = false.
Proof.
  intros r. split; [|by vm_compute].
  subst r. unfold detect_knots. cbn [knot_prone writhe crossing_count].
  unfold knot_prone_of. rewrite orb_true_iff, Qle_bool_iff, Z.leb_le. done.
Qed.

(** C10.  Writhe.  [compute_writhe] returns 0 on every balanced, properly
    nested structure, and so on every structure [predict_structure] returns
    (by [compute_writhe_zero] balance is not even needed).  The rank on top
    of the stack is the height of the stack minus one, so every depth
    difference is zero.  Hence, with the default threshold 8.0, the writhe
    test of [knot_prone] is false and the flag reduces to the crossing
    test. *)
Theorem compute_writhe_zero_when_nested :
  (∀ structure, resolves 0 structure = true → compute_writhe structure = 0) ∧
  (∀ frames sequence p, predict_structure frames sequence = Ok p →
                        compute_writhe (pred_structure p) = 0) ∧
  (∀ top below, ranked (top :: below) →
                Z.of_nat (length (top :: below)) - 1 - top = 0) ∧
  (∀ crossing_threshold structure,
     let r := detect_knots Config.WRITHE_THRESHOLD crossing_threshold structure in
     Qle_bool Config.WRITHE_THRESHOLD (Qabs (writhe r)) = false ∧
     knot_prone r = (crossing_threshold <=? crossing_count r)).
Proof.
  split; [|split; [|split]].
  - intros structure _. apply compute_writhe_zero.
  - intros frames sequence p _. apply compute_writhe_zero.
  - intros top below [Htop _]. simpl length. lia.
  - intros crossing_threshold structure r. subst r.
    unfold detect_knots. cbn [knot_prone writhe crossing_count].
    unfold knot_prone_of. rewrite compute_writhe_zero. done.
Qed.

(** * Further properties of the code *)

(** ** The score of [detect_knots] *)

Lemma Qmin_unit (x : Q) : (0 <= x)%Q → (0 <= Qmin x 1)%Q ∧ (Qmin x 1 <= 1)%Q.
Proof.
  intros Hx. split.
  - apply Q.min_glb; [done | lra].
  - apply Q.le_min_r.
Qed.

Lemma Qdiv_nonneg (a b : Q) : (0 <= a)%Q → (0 < b)%Q → (0 <= a / b)%Q.
Proof. intros Ha Hb. apply Qle_shift_div_l; [done | lra]. Qed.

Lemma inject_Z_nonneg (z : Z) : 0 ≤ z → (0 <= inject_Z z)%Q.
Proof. intros Hz. unfold Qle. simpl. lia. Qed.

Lemma inject_Z_pos (z : Z) : 0 < z → (0 < inject_Z z)%Q.
Proof. intros Hz. unfold Qlt. simpl. lia. Qed.

Lemma count_nonneg c s : 0 ≤ count c s.
Proof. induction s as [|x s IH]; simpl; [lia|]. destruct (Ascii.eqb x c); lia. Qed.

Lemma count_length c s : count c s ≤ Z.of_nat (length s).
Proof.
  induction s as [|x s IH]; simpl length; simpl count; [lia|].
  destruct (Ascii.eqb x c); lia.
Qed.

Lemma tuple4_eq (a a' b b' c c' d d' : Z) :
  a = a' → b = b' → c = c' → d = d' → (a, b, c, d) = (a', b', c', d').
Proof. by intros -> -> -> ->. Qed.

(** After each character the loop of [_calc_nesting_complexity] has
    [prev == depth]; [changes] has grown by one exactly at the brackets, and
    [max_depth] only moves when a ['('] is met. *)
Lemma nesting_fold structure :
  ∀ depth max_depth changes,
  ∃ depth' max_depth',
    fold_left nesting_step structure (depth, max_depth, changes, depth)
    = (depth', max_depth',
       changes + count LPAREN structure + count RPAREN structure, depth') ∧
    max_depth ≤ max_depth' ∧
    (count LPAREN structure = 0 → depth ≤ max_depth → max_depth' = max_depth).
Proof.
  induction structure as [|char rest IH]; intros depth max_depth changes.
  - exists depth, max_depth. simpl. split; [apply tuple4_eq; lia|]. split; lia.
  - pose proof (count_nonneg LPAREN rest) as Hnn.
    cbn [fold_left nesting_step count].
    destruct (Ascii.eqb_spec char LPAREN) as [->|Hl].
    + change (Ascii.eqb LPAREN RPAREN) with false.
      destruct (Z.eqb_spec (depth + 1) depth); [lia|].
      destruct (IH (depth + 1) (Z.max max_depth (depth + 1)) (changes + 1))
        as (d' & m' & -> & Hm & _).
      exists d', m'. split; [apply tuple4_eq; lia|]. split; lia.
    + destruct (Ascii.eqb_spec char RPAREN) as [->|Hr].
      * destruct (Z.eqb_spec (depth + -1) depth); [lia|].
        destruct (IH (depth + -1) (Z.max max_depth (depth + -1)) (changes + 1))
          as (d' & m' & -> & Hm & Hsame).
        exists d', m'. split; [apply tuple4_eq; lia|]. split; [lia|]. intros H0 Hd.
        rewrite Hsame by lia. lia.
      * rewrite Z.add_0_r. rewrite Z.eqb_refl.
        destruct (IH depth (Z.max max_depth depth) (changes + 0))
          as (d' & m' & -> & Hm & Hsame).
        exists d', m'. split; [apply tuple4_eq; lia|]. split; [lia|]. intros H0 Hd.
        rewrite Hsame by lia. lia.
Qed.

Lemma calc_nesting_complexity_range structure :
  (0 <= calc_nesting_complexity structure)%Q ∧
  (calc_nesting_complexity structure <= 1)%Q ∧
  ((calc_nesting_complexity structure == 0)%Q ↔
   count LPAREN structure = 0 ∧ count RPAREN structure = 0).
Proof.
  destruct structure as [|char rest]; [by repeat split|].
  set (structure := char :: rest).
  destruct (nesting_fold structure 0 0 0) as (d & m & Hfold & Hm & Hsame).
  set (brackets := 0 + count LPAREN structure + count RPAREN structure) in *.
  set (size := Z.of_nat (length structure)).
  assert (calc_nesting_complexity structure
          = (Qmin (inject_Z m / 10) 1 * 0.6
             + Qmin (inject_Z brackets / inject_Z size) 1 * 0.4)%Q) as ->.
  { unfold calc_nesting_complexity. subst structure brackets size. cbv zeta.
    rewrite Hfold. reflexivity. }
  pose proof (count_nonneg LPAREN structure) as Hl.
  pose proof (count_nonneg RPAREN structure) as Hr.
  assert (0 < size) as Hlen by (subst size structure; simpl; lia).
  assert (0 <= inject_Z m)%Q as Hm' by (by apply inject_Z_nonneg).
  assert (0 <= inject_Z brackets)%Q as Hb' by (apply inject_Z_nonneg; lia).
  assert (0 < inject_Z size)%Q as Hlen' by (by apply inject_Z_pos).
  destruct (Qmin_unit (inject_Z m / 10)) as [Hn0 Hn1];
    [by apply Qdiv_nonneg|].
  destruct (Qmin_unit (inject_Z brackets / inject_Z size)) as [Ht0 Ht1];
    [by apply Qdiv_nonneg|].
  split; [lra|]. split; [lra|]. split.
  - intros Hzero.
    assert (Qmin (inject_Z brackets / inject_Z size) 1 == 0)%Q as Hz by lra.
    destruct (Q.min_spec (inject_Z brackets / inject_Z size) 1) as [[_ Heq]|[_ Heq]];
      [|lra].
    rewrite Heq in Hz.
    assert (inject_Z brackets == 0)%Q as Hb0.
    { destruct (Qlt_le_dec 0 (inject_Z brackets)) as [Hpos|]; [|lra].
      exfalso. assert (0 < inject_Z brackets / inject_Z size)%Q; [|lra].
      apply Qlt_shift_div_l; [done | lra]. }
    unfold Qeq in Hb0. simpl in Hb0. lia.
  - intros [Hl0 Hr0].
    assert (brackets = 0) as -> by lia.
    rewrite (Hsame Hl0 ltac:(lia)).
    assert (Qmin (inject_Z 0 / inject_Z size) 1 == 0)%Q as ->.
    { destruct (Q.min_spec (inject_Z 0 / inject_Z size) 1) as [[_ ->]|[Hle _]].
      - unfold Qdiv. change (inject_Z 0) with 0%Q. ring.
      - exfalso. unfold Qdiv in Hle. change (inject_Z 0) with 0%Q in Hle.
        rewrite Qmult_0_l in Hle. lra. }
    reflexivity.
Qed.

Lemma fold_max_binary (xs : list Z) (acc : Z) :
  acc = 0 ∨ acc = 1 → (∀ x, x ∈ xs → x = 0 ∨ x = 1) →
  fold_left Z.max xs acc = 0 ∨ fold_left Z.max xs acc = 1.
Proof.
  revert acc. induction xs as [|x xs IH]; intros acc Hacc Hxs; [done|].
  simpl. apply IH.
  - destruct (Hxs x ltac:(left)); lia.
  - intros y Hy. apply Hxs. by right.
Qed.

Lemma max0_binary (xs : list Z) :
  (∀ x, x ∈ xs → x = 0 ∨ x = 1) → max0 xs = 0 ∨ max0 xs = 1.
Proof. intros H. apply fold_max_binary; [by left | done]. Qed.

(** The [nesting] term of [detect_knots] is a flag. *)
Lemma nesting_signal_binary structure pairs :
  nesting_signal structure pairs = 0 ∨ nesting_signal structure pairs = 1.
Proof.
  unfold nesting_signal. destruct pairs as [|p pairs]; [by left|].
  apply max0_binary. intros x Hx.
  apply elem_of_cons in Hx as [->|Hx]; [by left|].
  apply list_elem_of_fmap in Hx as (k & -> & _).
  assert (∀ y, y ∈ (λ q : Z * Z, if (q.1 <? k) && (k <? q.2) then 1 else 0)
                     <$> p :: pairs → y = 0 ∨ y = 1) as Hbin.
  { intros y Hy. apply list_elem_of_fmap in Hy as (q & -> & _).
    destruct ((q.1 <? k) && (k <? q.2)); [by right | by left]. }
  destruct (max0_binary _ Hbin) as [H|H]; rewrite H; [by left | by right].
Qed.

(** The value of [complexity] in [detect_knots]: the writhe and crossing
    terms vanish. *)
Lemma detect_knots_complexity wt ct structure :
  let ns := nesting_signal structure (get_base_pairs structure) in
  (complexity_score (detect_knots wt ct structure)
   == Qmin (Qmin (inject_Z ns / 5) 1 * 0.2
            + calc_nesting_complexity structure * 0.2) 1)%Q ∧
  risk_level (detect_knots wt ct structure)
  = risk_level_of (Qmin (Qabs 0 / 2) 1 * 0.3
                   + Qmin (inject_Z 0 / 3) 1 * 0.3
                   + Qmin (Qabs (inject_Z ns + 0) / 5) 1 * 0.2
                   + calc_nesting_complexity structure * 0.2)%Q.
Proof.
  intros ns. unfold detect_knots. cbn [complexity_score risk_level].
  rewrite compute_writhe_zero, identify_crossing_patterns_nil.
  fold ns. change (inject_Z (Z.of_nat (length []))) with (inject_Z 0).
  change (inject_Z 0) with 0%Q.
  split; [|reflexivity].
  destruct (nesting_signal_binary structure (get_base_pairs structure)) as [H|H];
    fold ns in H; rewrite H.
  - apply Q.min_compat; [|reflexivity].
    apply Qplus_comp; [reflexivity | reflexivity].
  - apply Q.min_compat; [|reflexivity].
    apply Qplus_comp; [reflexivity | reflexivity].
Qed.

Lemma scan_pairs_no_open structure :
  count LPAREN structure = 0 →
  ∀ pos pairs, scan_pairs pos structure [] pairs = pairs.
Proof.
  induction structure as [|char rest IH]; intros Hc pos pairs; [done|].
  pose proof (count_nonneg LPAREN rest).
  cbn [scan_pairs count] in *.
  destruct (Ascii.eqb char LPAREN); [lia|].
  destruct (Ascii.eqb char RPAREN); apply IH; lia.
Qed.

Lemma nesting_term_values (ns : Z) :
  ns = 0 ∨ ns = 1 →
  (Qmin (inject_Z ns / 5) 1 * 0.2 == 0)%Q ∨ (Qmin (inject_Z ns / 5) 1 * 0.2 == 0.04)%Q.
Proof. intros [->| ->]; [left | right]; reflexivity. Qed.

Lemma vanishing_terms (ns : Z) :
  ns = 0 ∨ ns = 1 →
  (Qmin (Qabs 0 / 2) 1 * 0.3 + Qmin (inject_Z 0 / 3) 1 * 0.3
   + Qmin (Qabs (inject_Z ns + 0) / 5) 1 * 0.2
   == Qmin (inject_Z ns / 5) 1 * 0.2)%Q.
Proof. intros [->| ->]; reflexivity. Qed.

Lemma risk_never_critical wt ct structure :
  risk_level (detect_knots wt ct structure) ≠ CRITICAL.
Proof.
  destruct (detect_knots_complexity wt ct structure) as [_ Hrisk].
  cbv zeta in Hrisk.
  set (ns := nesting_signal structure (get_base_pairs structure)) in *.
  destruct (calc_nesting_complexity_range structure) as (Hc0 & Hc1 & _).
  pose proof (nesting_signal_binary structure (get_base_pairs structure)) as Hns.
  fold ns in Hns.
  rewrite Hrisk. intros Hcrit. apply (risk_level_of_spec _) in Hcrit.
  rewrite (vanishing_terms ns Hns) in Hcrit.
  destruct (nesting_term_values ns Hns) as [H|H]; rewrite H in Hcrit; lra.
Qed.

(** X1.  Writhe and crossings of [detect_knots].  For every structure and
    every setting of the two thresholds the record returned by
    [detect_knots] has writhe 0, crossing count 0 and no crossing positions;
    hence [knot_prone] is true exactly when one of the thresholds is zero or
    negative, and it is false under the configured thresholds (8.0 and 2). *)
Theorem detect_knots_flags_nothing (writhe_threshold : Q) (crossing_threshold : Z)
    (structure : list ascii) :
  let r := detect_knots writhe_threshold crossing_threshold structure in
  writhe r = 0%Q ∧
  crossing_count r = 0 ∧
  crossing_positions r = [] ∧
  (knot_prone r = true ↔ (writhe_threshold <= 0)%Q ∨ crossing_threshold ≤ 0) ∧
  knot_prone (detect_knots Config.WRITHE_THRESHOLD Config.CROSSING_NUMBER_THRESHOLD
                structure) = false.
Proof.
  intros r. subst r. unfold detect_knots.
  cbn [writhe crossing_count crossing_positions knot_prone].
  rewrite compute_writhe_zero, identify_crossing_patterns_nil.
  split; [done|]. split; [done|]. split; [done|]. split; [|done].
  unfold knot_prone_of. rewrite orb_true_iff, Qle_bool_iff, Z.leb_le. done.
Qed.

(** X2.  Range of the complexity score.  For every structure the complexity
    score of [detect_knots] is at least 0 and below 0.3, so the risk level is
    never CRITICAL; the linking number is 0 or 1. *)
Theorem detect_knots_score_range (writhe_threshold : Q) (crossing_threshold : Z)
    (structure : list ascii) :
  let r := detect_knots writhe_threshold crossing_threshold structure in
  (0 <= complexity_score r)%Q ∧
  (complexity_score r < 0.3)%Q ∧
  risk_level r ≠ CRITICAL ∧
  ((linking_number r == 0)%Q ∨ (linking_number r == 1)%Q).
Proof.
  intros r. subst r.
  destruct (detect_knots_complexity writhe_threshold crossing_threshold structure)
    as [Hscore _].
  cbv zeta in Hscore.
  set (ns := nesting_signal structure (get_base_pairs structure)) in *.
  destruct (calc_nesting_complexity_range structure) as (Hc0 & Hc1 & _).
  pose proof (nesting_signal_binary structure (get_base_pairs structure)) as Hns.
  fold ns in Hns.
  assert (0 <= Qmin (inject_Z ns / 5) 1 * 0.2
               + calc_nesting_complexity structure * 0.2
          <= 0.24)%Q as Hsum.
  { destruct (nesting_term_values ns Hns) as [H|H]; rewrite H; lra. }
  split; [|split; [|split]].
  - rewrite Hscore. apply Q.min_glb; lra.
  - rewrite Hscore. eapply Qle_lt_trans; [apply Q.le_min_l | lra].
  - apply risk_never_critical.
  - unfold detect_knots. cbn [linking_number]. rewrite compute_writhe_zero.
    fold ns. destruct Hns as [-> | ->]; [left | right]; reflexivity.
Qed.

(** X3.  [_calc_nesting_complexity] lies between 0 and 1.  The complexity
    score of [detect_knots] is 0 exactly when the structure holds no ['(']
    and no [')'], and such a structure is classified LOW. *)
Theorem bracket_free_structures_score_zero (writhe_threshold : Q)
    (crossing_threshold : Z) (structure : list ascii) :
  let r := detect_knots writhe_threshold crossing_threshold structure in
  (0 <= calc_nesting_complexity structure)%Q ∧
  (calc_nesting_complexity structure <= 1)%Q ∧
  ((complexity_score r == 0)%Q ↔
   count LPAREN structure = 0 ∧ count RPAREN structure = 0) ∧
  (count LPAREN structure = 0 ∧ count RPAREN structure = 0 → risk_level r = LOW).
Proof.
  intros r. subst r.
  destruct (detect_knots_complexity writhe_threshold crossing_threshold structure)
    as [Hscore Hrisk].
  cbv zeta in Hscore, Hrisk.
  set (ns := nesting_signal structure (get_base_pairs structure)) in *.
  destruct (calc_nesting_complexity_range structure) as (Hc0 & Hc1 & Hzero).
  pose proof (nesting_signal_binary structure (get_base_pairs structure)) as Hns.
  fold ns in Hns.
  assert (count LPAREN structure = 0 → ns = 0) as Hnone.
  { intros H. subst ns. unfold get_base_pairs.
    rewrite scan_pairs_no_open by done. reflexivity. }
  split; [done|]. split; [done|]. split; [split|].
  - intros Hs. apply Hzero. rewrite Hscore in Hs.
    destruct (Q.min_spec (Qmin (inject_Z ns / 5) 1 * 0.2
                          + calc_nesting_complexity structure * 0.2) 1)
      as [[_ Heq]|[_ Heq]]; rewrite Heq in Hs; [|lra].
    destruct (nesting_term_values ns Hns) as [H|H]; rewrite H in Hs; lra.
  - intros [Hl Hr]. rewrite Hscore, (Hnone Hl).
    assert (calc_nesting_complexity structure == 0)%Q as -> by (by apply Hzero).
    reflexivity.
  - intros [Hl Hr]. rewrite Hrisk, (Hnone Hl).
    apply (risk_level_of_spec _).
    assert (calc_nesting_complexity structure == 0)%Q as Hz by (by apply Hzero).
    rewrite (vanishing_terms 0 ltac:(by left)), Hz. reflexivity.
Qed.

(** ** The pairs of an arbitrary string *)

Lemma StronglySorted_snoc {A} (R : A → A → Prop) (l : list A) (x : A) :
  StronglySorted R l → (∀ y, y ∈ l → R y x) → StronglySorted R (l ++ [x]).
Proof.
  induction 1 as [|y l Hl IH Hy]; intros Hall; simpl.
  - constructor; [constructor | constructor].
  - constructor.
    + apply IH. intros z Hz. apply Hall. by right.
    + apply Forall_app. split; [done|]. constructor; [|constructor].
      apply Hall. by left.
Qed.

Lemma scan_sound_close full pos top stack pairs :
  scan_sound full pos (top :: stack) pairs →
  full !! Z.to_nat pos = Some RPAREN → 0 ≤ pos →
  scan_sound full (pos + 1) stack (pairs ++ [(top, pos)]).
Proof.
  intros [Hs Hp Hd Ho] Hchar Hpos.
  destruct (Hs top ltac:(left)) as [Htop Hopen].
  split.
  - intros t Ht. destruct (Hs t ltac:(by right)). split; [lia | done].
  - intros a b Hab. apply elem_of_app in Hab as [Hab|Hab].
    + destruct (Hp a b Hab) as (? & ? & ? & ? & ?). repeat split; (done || lia).
    + apply list_elem_of_singleton in Hab. injection Hab as -> ->.
      repeat split; (done || lia).
  - rewrite !fmap_app. simpl.
    assert (stack ++ (pairs.*1 ++ [top]) ++ pairs.*2 ++ [pos]
            ≡ₚ pos :: top :: stack ++ pairs.*1 ++ pairs.*2) as ->.
    { rewrite (Permutation_app_comm (pairs.*2) [pos]). simpl.
      rewrite <- !app_assoc. simpl. rewrite <- !Permutation_middle.
      apply Permutation_swap. }
    apply NoDup_cons_2; [|done].
    intros Hin. apply elem_of_cons in Hin as [->|Hin]; [lia|].
    apply elem_of_app in Hin as [Hin|Hin].
    + destruct (Hs pos ltac:(by right)). lia.
    + apply elem_of_app in Hin as [Hin|Hin];
        apply list_elem_of_fmap in Hin as ([a b] & Heq & Hab); simpl in Heq; subst;
        destruct (Hp a b Hab) as (? & ? & ? & _); lia.
  - apply StronglySorted_snoc; [done|].
    intros [a b] Hab. simpl. destruct (Hp a b Hab) as (? & ? & ? & _). lia.
Qed.

Lemma scan_sound_open full pos stack pairs :
  scan_sound full pos stack pairs →
  full !! Z.to_nat pos = Some LPAREN → 0 ≤ pos →
  scan_sound full (pos + 1) (pos :: stack) pairs.
Proof.
  intros [Hs Hp Hd Ho] Hchar Hpos. split.
  - intros t Ht. apply elem_of_cons in Ht as [->|Ht]; [split; [lia | done]|].
    destruct (Hs t Ht). split; [lia | done].
  - intros a b Hab. destruct (Hp a b Hab) as (? & ? & ? & ? & ?).
    repeat split; (done || lia).
  - simpl. apply NoDup_cons_2; [|done].
    intros Hin. apply elem_of_app in Hin as [Hin|Hin].
    + destruct (Hs pos Hin). lia.
    + apply elem_of_app in Hin as [Hin|Hin];
        apply list_elem_of_fmap in Hin as ([a b] & Heq & Hab); simpl in Heq; subst;
        destruct (Hp a b Hab) as (? & ? & ? & _); lia.
  - done.
Qed.

Lemma scan_sound_skip full pos stack pairs :
  scan_sound full pos stack pairs → scan_sound full (pos + 1) stack pairs.
Proof.
  intros [Hs Hp Hd Ho]. split; [| |done|done].
  - intros t Ht. destruct (Hs t Ht). split; [lia | done].
  - intros a b Hab. destruct (Hp a b Hab) as (? & ? & ? & ? & ?).
    repeat split; (done || lia).
Qed.

Lemma scan_pairs_sound full rest :
  ∀ pos stack pairs,
    0 ≤ pos → drop (Z.to_nat pos) full = rest → scan_sound full pos stack pairs →
    ∃ stack', scan_sound full (Z.of_nat (length full)) stack'
                (scan_pairs pos rest stack pairs).
Proof.
  induction rest as [|char rest IH]; intros pos stack pairs Hpos Hdrop Hinv.
  - exists stack. simpl.
    assert (length full ≤ Z.to_nat pos)%nat as Hlen.
    { apply (f_equal length) in Hdrop. rewrite length_drop in Hdrop. simpl in Hdrop.
      lia. }
    destruct Hinv as [Hs Hp Hd Ho]. split; [| |done|done].
    + intros t Ht. destruct (Hs t Ht) as [? Hopen]. split; [|done].
      pose proof (lookup_lt_Some _ _ _ Hopen). lia.
    + intros a b Hab. destruct (Hp a b Hab) as (? & ? & ? & ? & Hclose).
      pose proof (lookup_lt_Some _ _ _ Hclose). repeat split; (done || lia).
  - assert (full !! Z.to_nat pos = Some char) as Hchar.
    { rewrite <- (Nat.add_0_r (Z.to_nat pos)), <- lookup_drop, Hdrop. done. }
    assert (drop (Z.to_nat (pos + 1)) full = rest) as Hdrop'.
    { replace (Z.to_nat (pos + 1)) with (S (Z.to_nat pos)) by lia.
      erewrite drop_S in Hdrop by done. by injection Hdrop. }
    cbn [scan_pairs].
    destruct (Ascii.eqb_spec char LPAREN) as [->|Hl].
    { apply IH; [lia | done | by apply scan_sound_open]. }
    destruct (Ascii.eqb_spec char RPAREN) as [->|Hr].
    + destruct stack as [|top stack].
      * apply IH; [lia | done | by apply scan_sound_skip].
      * apply IH; [lia | done | by apply scan_sound_close].
    + apply IH; [lia | done | by apply scan_sound_skip].
Qed.

Lemma scan_sound_start full : scan_sound full 0 [] [].
Proof.
  split.
  - intros t H. by apply elem_of_nil in H.
  - intros a b H. by apply elem_of_nil in H.
  - simpl. constructor.
  - constructor.
Qed.

(** [sorted] is an insertion sort. *)
Lemma sorted_insert_Permutation p l : sorted_insert p l ≡ₚ p :: l.
Proof.
  induction l as [|q l IH]; [done|]. simpl.
  destruct (tuple_leb p q); [done|].
  rewrite IH. apply Permutation_swap.
Qed.

Lemma sorted_Permutation l : sorted l ≡ₚ l.
Proof.
  induction l as [|p l IH]; [done|]. simpl.
  rewrite sorted_insert_Permutation. by rewrite IH.
Qed.

Lemma tuple_leb_total p q : tuple_leb p q = false → tuple_leb q p = true.
Proof.
  unfold tuple_leb. destruct p as [a b], q as [c d]. simpl.
  destruct (Z.ltb_spec a c); destruct (Z.eqb_spec a c); destruct (Z.leb_spec b d);
    destruct (Z.ltb_spec c a); destruct (Z.eqb_spec c a); destruct (Z.leb_spec d b);
    simpl; intros; (done || lia).
Qed.

Lemma tuple_leb_trans p q r :
  tuple_leb p q = true → tuple_leb q r = true → tuple_leb p r = true.
Proof.
  unfold tuple_leb. destruct p as [a b], q as [c d], r as [e f]. simpl.
  destruct (Z.ltb_spec a c); destruct (Z.eqb_spec a c); destruct (Z.leb_spec b d);
    destruct (Z.ltb_spec c e); destruct (Z.eqb_spec c e); destruct (Z.leb_spec d f);
    destruct (Z.ltb_spec a e); destruct (Z.eqb_spec a e); destruct (Z.leb_spec b f);
    simpl; intros; (done || lia).
Qed.

Lemma sorted_insert_sorted p l :
  StronglySorted (λ x y, tuple_leb x y = true) l →
  StronglySorted (λ x y, tuple_leb x y = true) (sorted_insert p l).
Proof.
  induction 1 as [|q l Hl IH Hq]; simpl.
  - constructor; [constructor | constructor].
  - destruct (tuple_leb p q) eqn:E.
    + constructor; [by constructor|]. constructor; [done|].
      eapply Forall_impl; [|exact Hq]. intros r Hr. simpl in Hr.
      by apply (tuple_leb_trans p q r).
    + constructor; [done|].
      rewrite sorted_insert_Permutation.
      constructor; [by apply tuple_leb_total | done].
Qed.

Lemma sorted_sorted l : StronglySorted (λ x y, tuple_leb x y = true) (sorted l).
Proof.
  induction l as [|p l IH]; [constructor|]. simpl. by apply sorted_insert_sorted.
Qed.

(** A list sorted as tuples whose first components differ is sorted by its
    first components. *)
Lemma sorted_by_first l :
  StronglySorted (λ x y, tuple_leb x y = true) l → NoDup (l.*1) →
  StronglySorted (λ p q : Z * Z, p.1 < q.1) l.
Proof.
  induction 1 as [|p l Hl IH Hp]; intros Hnd; [constructor|].
  rewrite fmap_cons in Hnd. apply list.NoDup_cons in Hnd as [Hnotin Hnd].
  constructor; [by apply IH|].
  apply Forall_forall. intros q Hq.
  pose proof (proj1 (Forall_forall _ _) Hp q Hq) as Hle. simpl in Hle.
  unfold tuple_leb in Hle.
  destruct (Z.ltb_spec p.1 q.1); [done|]. simpl in Hle.
  destruct (Z.eqb_spec p.1 q.1) as [Heq|]; [|done].
  exfalso. apply Hnotin. rewrite Heq. apply list_elem_of_fmap. exists q.
  split; [done | by apply list_elem_of_In].
Qed.

Lemma scan_pairs_count structure :
  ∀ pos stack pairs,
    Z.of_nat (length (scan_pairs pos structure stack pairs))
    ≤ Z.of_nat (length pairs)
      + Z.min (Z.of_nat (length stack) + count LPAREN structure) (count RPAREN structure).
Proof.
  induction structure as [|char rest IH]; intros pos stack pairs.
  - simpl. lia.
  - pose proof (count_nonneg LPAREN rest). pose proof (count_nonneg RPAREN rest).
    cbn [scan_pairs count].
    destruct (Ascii.eqb_spec char LPAREN) as [->|Hl].
    + change (Ascii.eqb LPAREN RPAREN) with false.
      specialize (IH (pos + 1) (pos :: stack) pairs). simpl length in IH. lia.
    + destruct (Ascii.eqb_spec char RPAREN) as [->|Hr].
      * destruct stack as [|top stack].
        -- specialize (IH (pos + 1) [] pairs). simpl length in *. lia.
        -- specialize (IH (pos + 1) stack (pairs ++ [(top, pos)])).
           rewrite length_app in IH. simpl length in *. lia.
      * specialize (IH (pos + 1) stack pairs). lia.
Qed.

Lemma arcs_sound structure :
  ∃ stack, scan_sound structure (Z.of_nat (length structure)) stack
             (get_base_pair_arcs structure).
Proof.
  apply (scan_pairs_sound structure structure 0 [] []); [lia | done |].
  apply scan_sound_start.
Qed.

(** X4.  [_get_base_pairs] on an arbitrary string.  Every pair [(a, b)] it
    returns has [a < b] inside the string, with ['('] at [a] and [')'] at
    [b]; no position occurs in two pairs; the list is strictly increasing in
    its first components; and there are at most as many pairs as there are
    ['('] and as there are [')']. *)
Theorem get_base_pairs_sound (structure : list ascii) :
  (∀ a b, (a, b) ∈ get_base_pairs structure →
     0 ≤ a ∧ a < b ∧ b < Z.of_nat (length structure) ∧
     structure !! Z.to_nat a = Some LPAREN ∧
     structure !! Z.to_nat b = Some RPAREN) ∧
  NoDup ((get_base_pairs structure).*1 ++ (get_base_pairs structure).*2) ∧
  StronglySorted (λ p q : Z * Z, p.1 < q.1) (get_base_pairs structure) ∧
  Z.of_nat (length (get_base_pairs structure))
  ≤ Z.min (count LPAREN structure) (count RPAREN structure).
Proof.
  destruct (arcs_sound structure) as (stack & [_ Hp Hd _]).
  assert (get_base_pairs structure ≡ₚ get_base_pair_arcs structure) as Hperm
    by apply sorted_Permutation.
  apply list.NoDup_app in Hd as (_ & _ & Hd).
  split; [|split; [|split]].
  - intros a b Hab. apply Hp. by rewrite <- Hperm.
  - by rewrite Hperm.
  - apply sorted_by_first; [apply sorted_sorted|].
    rewrite Hperm. by apply list.NoDup_app in Hd as (? & _ & _).
  - rewrite Hperm.
    pose proof (scan_pairs_count structure 0 [] []) as H. simpl length in H.
    unfold get_base_pair_arcs. lia.
Qed.

(** X5.  [_get_base_pair_arcs] of the visualizer returns the pairs of
    [_get_base_pairs] in another order: strictly increasing in the closing
    position.  Every arc lies inside the string. *)
Theorem base_pair_arcs_order (structure : list ascii) :
  get_base_pair_arcs structure ≡ₚ get_base_pairs structure ∧
  StronglySorted (λ p q : Z * Z, p.2 < q.2) (get_base_pair_arcs structure) ∧
  (∀ i j, (i, j) ∈ get_base_pair_arcs structure →
     0 ≤ i ∧ i < j ∧ j < Z.of_nat (length structure)).
Proof.
  destruct (arcs_sound structure) as (stack & [_ Hp _ Ho]).
  split; [symmetry; apply sorted_Permutation|]. split; [done|].
  intros i j Hij. destruct (Hp i j Hij) as (? & ? & ? & _). done.
Qed.

(** ** Summaries *)

Lemma max_fold_spec (xs : list Q) (x : Q) :
  let m := fold_left (λ m y, if Qlt_le_dec m y then y else m) xs x in
  m ∈ x :: xs ∧ ∀ y, y ∈ x :: xs → (y <= m)%Q.
Proof.
  revert x. induction xs as [|z xs IH]; intros x; simpl.
  - split; [by left|]. intros y Hy. apply list_elem_of_singleton in Hy as ->. lra.
  - destruct (Qlt_le_dec x z) as [Hlt|Hle].
    + destruct (IH z) as [Hin Hmax]. split.
      * right. exact Hin.
      * intros y Hy. apply elem_of_cons in Hy as [->|Hy]; [|by apply Hmax].
        pose proof (Hmax z ltac:(left)). lra.
    + destruct (IH x) as [Hin Hmax]. split.
      * apply elem_of_cons in Hin as [->|Hin]; [by left | right; by right].
      * intros y Hy. apply elem_of_cons in Hy as [->|Hy]; [apply Hmax; by left|].
        apply elem_of_cons in Hy as [->|Hy].
        -- pose proof (Hmax x ltac:(left)). lra.
        -- apply Hmax. by right.
Qed.

Lemma count_level_partition (records : list knot_record) :
  count_level LOW records + count_level MEDIUM records
  + count_level HIGH records + count_level CRITICAL records
  = Z.of_nat (length records).
Proof.
  unfold count_level. induction records as [|r records IH]; [done|].
  rewrite !filter_cons. simpl length.
  destruct (risk_level r); simpl; repeat case_decide; simpl length; try done; lia.
Qed.

Lemma high_risk_count (records : list knot_record) :
  Z.of_nat (length (filter (λ r, risk_eqb (risk_level r) HIGH
                                 || risk_eqb (risk_level r) CRITICAL = true) records))
  = count_level HIGH records + count_level CRITICAL records.
Proof.
  unfold count_level. induction records as [|r records IH]; [done|].
  rewrite !filter_cons.
  destruct (risk_level r); simpl; repeat case_decide; simpl length; try done; lia.
Qed.

(** X6.  Tallies of [summarize_knot_regions].  On a non-empty list of
    records the call returns; the total is the number of records, the four
    entries of the risk distribution add up to it, the number of high-risk
    windows is the HIGH entry plus the CRITICAL entry and is the length of
    the list of high-risk regions, and that list holds, in their order, the
    records whose level is HIGH or CRITICAL. *)
Theorem summarize_tallies (r : knot_record) (records : list knot_record) :
  ∃ s, summarize_knot_regions (r :: records) = Ok s ∧
       total_windows_analyzed s = Z.of_nat (length (r :: records)) ∧
       dist_LOW (distribution s) + dist_MEDIUM (distribution s)
       + dist_HIGH (distribution s) + dist_CRITICAL (distribution s)
       = total_windows_analyzed s ∧
       high_risk_windows s
       = dist_HIGH (distribution s) + dist_CRITICAL (distribution s) ∧
       high_risk_windows s = Z.of_nat (length (high_risk_regions s)) ∧
       sublist (high_risk_regions s) (r :: records) ∧
       (∀ x, x ∈ high_risk_regions s ↔
             x ∈ r :: records ∧ (risk_level x = HIGH ∨ risk_level x = CRITICAL)).
Proof.
  unfold summarize_knot_regions. cbn [fmap list_fmap Py.max_list]. rewrite bind_Ok.
  eexists. split; [reflexivity|].
  cbn [total_windows_analyzed distribution dist_LOW dist_MEDIUM dist_HIGH
       dist_CRITICAL high_risk_windows high_risk_regions].
  split; [done|]. split; [apply count_level_partition|].
  split; [apply high_risk_count|]. split; [done|].
  split; [apply sublist_filter|].
  intros x. rewrite list_elem_of_filter.
  destruct (risk_level x); simpl; split; intros [H1 H2]; split;
    try done; try (by left); try (by right); by destruct H2.
Qed.

(** X7.  [max_complexity] of [summarize_knot_regions].  On a non-empty list
    of records the reported maximum is the score of one of the records and
    no record has a larger score. *)
Theorem summarize_maximum (r : knot_record) (records : list knot_record) :
  ∃ s, summarize_knot_regions (r :: records) = Ok s ∧
       (∃ x, x ∈ r :: records ∧ max_complexity s = complexity_score x) ∧
       (∀ x, x ∈ r :: records → (complexity_score x <= max_complexity s)%Q).
Proof.
  unfold summarize_knot_regions. cbn [fmap list_fmap Py.max_list]. rewrite bind_Ok.
  eexists. split; [reflexivity|].
  cbn [max_complexity].
  destruct (max_fold_spec (complexity_score <$> records) (complexity_score r))
    as [Hin Hmax]. cbv zeta in Hin, Hmax.
  set (m := fold_left (λ m y, if Qlt_le_dec m y then y else m)
              (list_fmap knot_record Q complexity_score records) (complexity_score r))
    in *.
  split.
  - change (complexity_score r :: (complexity_score <$> records))
      with (complexity_score <$> r :: records) in Hin.
    apply list_elem_of_fmap in Hin as (x & Hx & Hxin). by exists x.
  - intros x Hx. apply Hmax.
    change (complexity_score r :: (complexity_score <$> records))
      with (complexity_score <$> r :: records).
    apply list_elem_of_fmap. by exists x.
Qed.

(** ** From a sequence to its summary *)

Lemma detect_knots_no_crossing wt ct structure :
  crossing_count (detect_knots wt ct structure) = 0.
Proof.
  unfold detect_knots. cbn [crossing_count].
  by rewrite identify_crossing_patterns_nil.
Qed.

Lemma count_level_none level (records : list knot_record) :
  (∀ r, r ∈ records → risk_level r ≠ level) → count_level level records = 0.
Proof.
  intros Hall. unfold count_level. induction records as [|r records IH]; [done|].
  rewrite filter_cons. case_decide as Hr.
  - exfalso. apply (Hall r ltac:(left)).
    destruct (risk_level r), level; simpl in Hr; done.
  - apply IH. intros x Hx. apply Hall. by right.
Qed.

Lemma summarize_raises_iff_empty (records : list knot_record) :
  summarize_knot_regions records = Raise ValueError ↔ records = [].
Proof. destruct records; split; intros H; (done || discriminate). Qed.

Lemma summarize_nonempty (r : knot_record) (records : list knot_record) :
  ∃ s, summarize_knot_regions (r :: records) = Ok s ∧
       total_windows_analyzed s = Z.of_nat (length (r :: records)) ∧
       dist_CRITICAL (distribution s) = count_level CRITICAL (r :: records).
Proof.
  unfold summarize_knot_regions. cbn [fmap list_fmap Py.max_list]. rewrite bind_Ok.
  eexists. split; [reflexivity|]. done.
Qed.

(** X8.  Windows through the knot analysis.  For a positive window size and
    stride and more free frames than a window has bases,
    [sliding_window_prediction] returns, and [analyze_window_knots] on its
    windows (each tagged with the same optional sequence id) keeps their
    starts in order; every record ends one window size after its
    start, carries the id or ["unknown"], reports no crossing and is not
    CRITICAL.  [summarize_knot_regions] on these records raises [ValueError]
    exactly when the sequence is no longer than the window, and otherwise
    returns a summary whose total is the number of windows and whose
    CRITICAL tally is 0. *)
Theorem window_analysis_pipeline (frames : nat)
    (writhe_threshold : Q) (crossing_threshold : Z)
    (sequence : list ascii) (window_size stride : Z) (seq_id : option string) :
  0 < window_size → 0 < stride → window_size < Z.of_nat frames →
  ∃ windows,
    sliding_window_prediction frames window_size sequence stride = Ok windows ∧
    let knots :=
      analyze_window_knots writhe_threshold crossing_threshold
        ((λ w, {| tw_window := w; tw_sequence_id := seq_id |}) <$> windows) in
    wk_window_start <$> knots = window_start <$> windows ∧
    Forall (λ k, wk_window_end k = wk_window_start k + window_size ∧
                 wk_sequence_id k = default "unknown"%string seq_id ∧
                 crossing_count (wk_record k) = 0 ∧
                 risk_level (wk_record k) ≠ CRITICAL) knots ∧
    (summarize_knot_regions (wk_record <$> knots) = Raise ValueError ↔
     Z.of_nat (length sequence) ≤ window_size) ∧
    (window_size < Z.of_nat (length sequence) →
     ∃ s, summarize_knot_regions (wk_record <$> knots) = Ok s ∧
          total_windows_analyzed s = Z.of_nat (length windows) ∧
          dist_CRITICAL (distribution s) = 0).
Proof.
  intros Hsize Hstride Hframes.
  destruct (range_step_positive 0 (Z.of_nat (length sequence) - window_size) stride Hstride)
    as (m & Hrange & Hm).
  destruct (windows_loop frames window_size sequence Hsize Hframes
              ((λ k : nat, 0 + Z.of_nat k * stride) <$> seq 0 m) [])
    as (windows & Hrun & Hstarts & Hok).
  { intros i Hi. apply list_elem_of_fmap in Hi as (k & -> & Hk).
    apply elem_of_seq in Hk. pose proof (proj1 (Hm k) ltac:(lia)). nia. }
  exists windows. unfold sliding_window_prediction. rewrite Hrange, bind_Ok, Hrun.
  split; [done|]. cbv zeta.
  set (knots := analyze_window_knots _ _ _).
  assert (length windows = m) as Hlen.
  { apply (f_equal length) in Hstarts. by rewrite !length_fmap, length_seq in Hstarts. }
  assert (m = 0%nat ↔ Z.of_nat (length sequence) ≤ window_size) as Hzero.
  { split.
    - intros ->. destruct (decide (Z.of_nat (length sequence) ≤ window_size)); [done|].
      pose proof (proj2 (Hm 0%nat) ltac:(lia)). lia.
    - intros Hshort. destruct m as [|m]; [done|].
      pose proof (proj1 (Hm 0%nat) ltac:(lia)). lia. }
  assert (∀ r, r ∈ wk_record <$> knots → risk_level r ≠ CRITICAL) as Hcrit.
  { intros r Hr. apply list_elem_of_fmap in Hr as (k & -> & Hk).
    subst knots. unfold analyze_window_knots in Hk.
    apply list_elem_of_fmap in Hk as (w & -> & _). cbn [wk_record].
    apply risk_never_critical. }
  split; [|split; [|split]].
  - subst knots. unfold analyze_window_knots. rewrite <- !list_fmap_compose.
    apply list_fmap_ext. intros i w _. reflexivity.
  - apply list.Forall_forall. intros k Hk.
    subst knots. unfold analyze_window_knots in Hk.
    apply list_elem_of_fmap in Hk as (t & -> & Ht).
    apply list_elem_of_fmap in Ht as (w & -> & Hw).
    cbn [wk_window_end wk_window_start wk_sequence_id wk_record tw_window
         tw_sequence_id].
    pose proof (proj1 (list.Forall_forall _ _) Hok w Hw) as (Hend & _).
    split; [done|]. split; [done|].
    split; [apply detect_knots_no_crossing | apply risk_never_critical].
  - rewrite summarize_raises_iff_empty, <- Hzero, <- Hlen.
    subst knots. unfold analyze_window_knots.
    destruct windows; simpl; split; intros H; (done || discriminate).
  - intros Hlong.
    assert (wk_record <$> knots ≠ []) as Hne.
    { intros Hnil. apply summarize_raises_iff_empty in Hnil.
      rewrite summarize_raises_iff_empty in Hnil.
      subst knots. unfold analyze_window_knots in Hnil.
      destruct windows; [|discriminate]. simpl in Hlen.
      pose proof (proj1 Hzero ltac:(lia)). lia. }
    destruct (wk_record <$> knots) as [|r records] eqn:E; [done|].
    destruct (summarize_nonempty r records) as (s & Hs & Htot & Hdist).
    exists s. split; [done|]. split.
    + rewrite Htot, <- E. subst knots. unfold analyze_window_knots.
      by rewrite !length_fmap.
    + rewrite Hdist. by apply count_level_none.
Qed.

Lemma window_analysis_pipeline_witness :
  ∃ windows,
    sliding_window_prediction 4 3 (str "GCAGCATT") 2 = Ok windows ∧
    let knots :=
      analyze_window_knots Config.WRITHE_THRESHOLD Config.CROSSING_NUMBER_THRESHOLD
        ((λ w, {| tw_window := w; tw_sequence_id := None |}) <$> windows) in
    wk_window_start <$> knots = window_start <$> windows ∧
    Forall (λ k, wk_window_end k = wk_window_start k + 3 ∧
                 wk_sequence_id k = default "unknown"%string None ∧
                 crossing_count (wk_record k) = 0 ∧
                 risk_level (wk_record k) ≠ CRITICAL) knots ∧
    (summarize_knot_regions (wk_record <$> knots) = Raise ValueError ↔
     Z.of_nat (length (str "GCAGCATT")) ≤ 3) ∧
    (3 < Z.of_nat (length (str "GCAGCATT")) →
     ∃ s, summarize_knot_regions (wk_record <$> knots) = Ok s ∧
          total_windows_analyzed s = Z.of_nat (length windows) ∧
          dist_CRITICAL (distribution s) = 0).
Proof.
  apply (window_analysis_pipeline 4 Config.WRITHE_THRESHOLD
           Config.CROSSING_NUMBER_THRESHOLD (str "GCAGCATT") 3 2 None); reflexivity.
Defined.

(** ** The pairing table *)

(** X9.  [can_pair] is the table [bp_complement]: it accepts exactly the
    five pairs A-T, T-A, G-C, C-G and U-A.  No base pairs with itself; U
    pairs with A but A does not pair with U; apart from a first base U the
    relation is symmetric. *)
Theorem can_pair_table :
  (∀ base1 base2, can_pair base1 base2 = true ↔ (base1, base2) ∈ bp_complement) ∧
  (∀ base, can_pair base base = false) ∧
  can_pair (chr "U") (chr "A") = true ∧
  can_pair (chr "A") (chr "U") = false ∧
  (∀ base1 base2, can_pair base1 base2 = true → base1 ≠ chr "U" →
                  can_pair base2 base1 = true).
Proof.
  assert (∀ base1 base2, can_pair base1 base2 = true ↔ (base1, base2) ∈ bp_complement)
    as Htable.
  { intros base1 base2. split.
    - unfold can_pair, bp_complement, dict_get.
      repeat match goal with
             | |- context [Ascii.eqb ?k base1] =>
                 destruct (Ascii.eqb_spec k base1) as [<-|?]
             end; intros H; try discriminate;
        apply Ascii.eqb_eq in H; subst base2; repeat constructor.
    - intros H. unfold bp_complement in H.
      repeat (apply elem_of_cons in H as [H|H]; [injection H as -> ->; reflexivity|]).
      by apply elem_of_nil in H. }
  split; [done|]. split; [apply can_pair_irrefl|]. split; [done|]. split; [done|].
  intros base1 base2 H Hu. apply Htable in H. unfold bp_complement in H.
  repeat (apply elem_of_cons in H as [H|H];
          [injection H as -> ->; (reflexivity || done)|]).
  by apply elem_of_nil in H.
Qed.

(** A [NoDup] list of integers of an interval is no longer than the
    interval. *)
Lemma NoDup_interval (l : list Z) (lo hi : Z) :
  NoDup l → (∀ x, x ∈ l → lo ≤ x < hi) → Z.of_nat (length l) ≤ Z.max 0 (hi - lo).
Proof.
  intros Hnd Hin.
  assert (l ⊆+ seqZ lo (hi - lo)) as Hsub.
  { apply NoDup_submseteq; [done|]. intros x Hx. apply elem_of_seqZ.
    specialize (Hin x Hx). lia. }
  apply submseteq_length in Hsub. rewrite length_seqZ in Hsub. lia.
Qed.

Section TighterSpan.
Variable sequence : list ascii.
Variable dp : Np.matrix.
Hypothesis Hcons : consistent sequence dp.

(** As [table_entry_achieved], but no pair of the pairing uses the last
    position of the span. *)
Lemma table_entry_achieved_before_last (m : nat) :
  ∀ i j, 0 ≤ i → j < Z.of_nat (length sequence) → j - i < Z.of_nat m →
  ∃ pairs, admissible_pairing sequence i (j - 1) pairs ∧
           Z.of_nat (length pairs) = if i <=? j then cell dp i j else 0.
Proof.
  destruct Hcons as [Hrec Hzero].
  induction m as [|m IH]; intros i j Hi Hj Hm.
  { exists []. split; [apply admissible_nil|].
    destruct (Z.leb_spec i j); [lia | done]. }
  destruct (Z.leb_spec i j) as [Hle|Hgt]; cycle 1.
  { exists []. split; [apply admissible_nil | done]. }
  destruct (decide (i = j)) as [->|Hne].
  { exists []. split; [apply admissible_nil|]. rewrite Hzero by lia. done. }
  rewrite Hrec by lia. unfold recurrence.
  destruct (best_witness sequence dp i j (Py.range i j) (cell dp i (j - 1)))
    as [->|(k & Hk & Hp & ->)].
  - destruct (IH i (j - 1)) as (pairs & Hadm & Hlen); [lia | lia | lia |].
    exists pairs. split; [apply (admissible_widen _ i (j - 1 - 1)); (done || lia)|].
    rewrite Hlen. destruct (Z.leb_spec i (j - 1)); [done | lia].
  - apply elem_of_range in Hk.
    assert (i < k) as Hik.
    { destruct (decide (i = k)) as [->|]; [|lia].
      unfold pairs_at in Hp. by rewrite can_pair_irrefl in Hp. }
    destruct (IH (i + 1) (k - 1)) as (inner & Hadm1 & Hlen1); [lia | lia | lia |].
    destruct (IH (k + 1) j) as (outer & Hadm2 & Hlen2); [lia | lia | lia |].
    exists ((i, k) :: inner ++ outer).
    split.
    + apply admissible_pair; [lia | lia | done | |done].
      apply (admissible_widen _ (i + 1) (k - 1 - 1)); (done || lia).
    + simpl length. rewrite length_app. unfold score_of. lia.
Qed.

End TighterSpan.

Lemma admissible_size sequence i j pairs :
  admissible_pairing sequence i j pairs →
  2 * Z.of_nat (length pairs) ≤ Z.max 0 (j + 1 - i).
Proof.
  intros Hadm.
  pose proof (NoDup_interval (pairs.*1 ++ pairs.*2) i (j + 1)) as H.
  rewrite length_app, !length_fmap in H.
  etrans; [|apply H]; [lia| |].
  - by destruct Hadm as (_ & ? & _).
  - intros x Hx.
    pose proof (admissible_positions sequence i j pairs x Hadm Hx). lia.
Qed.

Lemma best_ge_init sequence dp i j ks init : init ≤ best sequence dp i j ks init.
Proof.
  revert init. induction ks as [|k ks IH]; intros init; simpl; [lia|].
  etrans; [|apply IH]. destruct (pairs_at sequence i k); lia.
Qed.

(** X10.  Shape of the score matrix.  [nussinov_algorithm] returns for every
    sequence; the matrix is 0 on and below the diagonal; above it the
    entries are non-negative, do not decrease along a row from column
    [j - 1] to column [j], and satisfy [2 * dp[i][j] ≤ j - i]. *)
Theorem score_matrix_bounds (sequence : list ascii) :
  ∃ dp, nussinov_algorithm sequence 1 = Ok dp ∧
        (∀ i j, 0 ≤ j → j ≤ i → i < Z.of_nat (length sequence) →
                Np.get dp i j = Ok 0) ∧
        (∀ i j, 0 ≤ i → i < j → j < Z.of_nat (length sequence) →
           ∃ v v', Np.get dp i j = Ok v ∧ Np.get dp i (j - 1) = Ok v' ∧
                   0 ≤ v' ∧ v' ≤ v ∧ 2 * v ≤ j - i).
Proof.
  destruct (nussinov_filled sequence) as (dp & Hdp & Hsq & Hrec & Hzero).
  exists dp. split; [done|]. split.
  - intros i j Hj Hji Hi. rewrite (get_cell (length sequence)) by (done || lia).
    by rewrite Hzero by lia.
  - intros i j Hi Hij Hj. exists (cell dp i j), (cell dp i (j - 1)).
    rewrite !(get_cell (length sequence)) by (done || lia).
    split; [done|]. split; [done|].
    destruct (table_entry_achieved_before_last sequence dp (conj Hrec Hzero)
                (Z.to_nat (j - i + 1)) i j) as (pairs & Hadm & Hlen); [lia | lia | lia |].
    destruct (table_entry_achieved_before_last sequence dp (conj Hrec Hzero)
                (Z.to_nat (j - i + 1)) i (j - 1)) as (pairs' & _ & Hlen');
      [lia | lia | lia |].
    destruct (Z.leb_spec i j); [|lia]. destruct (Z.leb_spec i (j - 1)); [|lia].
    pose proof (admissible_size _ _ _ _ Hadm).
    split; [lia|]. split; [|lia].
    rewrite (Hrec i j) by lia. apply best_ge_init.
Qed.

(** ** The last position is never paired *)

Section LastPosition.
Variable sequence : list ascii.
Variable dp : Np.matrix.
Hypothesis Hsq : square (length sequence) dp.

(** How [scan_partner] can return: it found no partner and left the
    structure alone, or it paired [i] with some [k] strictly between [i] and
    [j] and made the two recursive calls. *)
Lemma scan_partner_inv frames
    (rec : Z → Z → list ascii → result (list ascii)) i j st :
  0 ≤ i → length st = length sequence →
  ∀ ks st', (∀ k, k ∈ ks → i ≤ k < j) → j < Z.of_nat (length sequence) →
    scan_partner sequence dp frames rec i j ks st = Ok st' →
    st' = st ∨
    ∃ k s3, i < k ∧ k < j ∧
            rec (i + 1) (k - 1)
              (<[Z.to_nat k:=RPAREN]> (<[Z.to_nat i:=LPAREN]> st)) = Ok s3 ∧
            rec (k + 1) j s3 = Ok st'.
Proof.
  intros Hi Hlen ks. induction ks as [|k ks IH]; intros st' Hks Hj Hrun.
  - simpl in Hrun. left. by injection Hrun.
  - assert (i ≤ k < j) as Hk by (apply Hks; left).
    assert (∀ k', k' ∈ ks → i ≤ k' < j) as Hks' by (intros; apply Hks; by right).
    cbn [scan_partner] in Hrun.
    rewrite !getitem_base in Hrun by lia. rewrite !bind_Ok in Hrun.
    destruct frames as [|frames]; [discriminate|].
    cbn [call] in Hrun. rewrite bind_Ok in Hrun.
    fold (pairs_at sequence i k) in Hrun.
    destruct (pairs_at sequence i k) eqn:Hp; [|by apply IH].
    rewrite (pair_score_cell sequence) in Hrun by (done || lia).
    rewrite bind_Ok in Hrun.
    rewrite (get_cell (length sequence)) in Hrun by (done || lia).
    rewrite bind_Ok in Hrun.
    destruct (cell dp i j =? score_of dp i j k); [|by apply IH].
    assert (i < k) as Hik.
    { destruct (decide (i = k)) as [->|]; [|lia].
      unfold pairs_at in Hp. by rewrite can_pair_irrefl in Hp. }
    rewrite setitem_nonneg in Hrun by lia. rewrite bind_Ok in Hrun.
    rewrite setitem_nonneg in Hrun by (rewrite length_insert; lia).
    rewrite bind_Ok in Hrun.
    apply bind_inv_Ok in Hrun as (s3 & Hs3 & Hrun).
    right. exists k, s3. repeat split; (done || lia).
Qed.

Lemma traceback_recursive_last frames :
  ∀ i j st st',
    tb_pre sequence i j st → i ≤ j → Z.max 0 (j - i + 1) < Z.of_nat frames →
    traceback_recursive sequence dp frames i j st = Ok st' →
    st' !! Z.to_nat j = Some DOT.
Proof.
  induction frames as [|frames IH]; intros i j st st' Hpre Hij Hdepth Hrun; [lia|].
  pose proof Hpre as (Hi & Hj & Hlen & Hdots).
  simpl in Hrun. destruct (Z.gtb_spec i j) as [Hgt|_]; [lia|].
  rewrite (get_cell (length sequence) dp i j) in Hrun by (done || lia).
  rewrite bind_Ok in Hrun.
  destruct (get_total (length sequence) dp i (j - 1)) as (left & Hleft);
    [done | lia | lia |].
  rewrite Hleft, bind_Ok in Hrun.
  destruct (cell dp i j =? left).
  - (* position [j] is skipped: the call on [i..j-1] does not touch it *)
    destruct (traceback_recursive_spec sequence dp Hsq frames i (j - 1) st)
      as (st0 & w & Hrun0 & [_ Hw] & Hlw & _).
    { split; [lia|]. split; [lia|]. split; [done|]. intros p Hp. apply Hdots. lia. }
    { lia. }
    rewrite Hrun0 in Hrun. injection Hrun as <-.
    rewrite Hw. rewrite decide_False by lia. apply Hdots. lia.
  - apply (scan_partner_inv _ _ i j st Hi Hlen) in Hrun as [->|(k & s3 & Hik & Hkj & Hs3 & Hrun)];
      [apply Hdots; lia | | intros k Hk; by apply elem_of_range in Hk | done].
    set (s2 := <[Z.to_nat k:=RPAREN]> (<[Z.to_nat i:=LPAREN]> st)) in *.
    assert (length s2 = length sequence) as Hl2
      by (subst s2; by rewrite !length_insert).
    destruct (traceback_recursive_spec sequence dp Hsq frames (i + 1) (k - 1) s2)
      as (s3' & w1 & Hrun1 & [Hl3 Hw1] & Hlw1 & _).
    { split; [lia|]. split; [lia|]. split; [done|].
      intros p Hp. subst s2. rewrite !list_lookup_insert_ne by lia. apply Hdots. lia. }
    { lia. }
    rewrite Hrun1 in Hs3. injection Hs3 as <-.
    apply (IH (k + 1) j s3' st'); [|lia | lia | done].
    split; [lia|]. split; [lia|]. split; [lia|].
    intros p Hp. rewrite Hw1. rewrite decide_False by lia.
    subst s2. rewrite !list_lookup_insert_ne by lia. apply Hdots. lia.
Qed.

End LastPosition.

Lemma nested_first w : nested w → w !! 0%nat ≠ Some RPAREN.
Proof.
  induction 1 as [|w Hw IH|w1 w2 _ _ _ _]; intros Hhead.
  - discriminate.
  - destruct w as [|x w]; simpl in Hhead.
    + injection Hhead as H. discriminate.
    + by apply IH.
  - simpl in Hhead. injection Hhead as H. discriminate.
Qed.

(** X11.  The last base stays unpaired.  For every non-empty sequence and
    more free frames than the sequence has bases, [predict_structure]
    returns a structure whose last character is ['.'] and whose first
    character is not [')']; twice the reported number of base pairs is at
    most the length minus one. *)
Theorem last_base_is_never_paired (frames : nat) (base : ascii)
    (rest : list ascii) :
  (length (base :: rest) < frames)%nat →
  ∃ p, predict_structure frames (base :: rest) = Ok p ∧
       pred_structure p !! length rest = Some DOT ∧
       pred_structure p !! 0%nat ≠ Some RPAREN ∧
       2 * pred_base_pairs p ≤ Z.of_nat (length rest).
Proof.
  set (sequence := base :: rest). intros Hframes.
  assert (sequence ≠ []) as Hne by done.
  destruct (predict_structure_spec frames sequence Hne Hframes)
    as (p & Hp & _ & _ & Hlen & Hnested & Hopen & Hclose).
  exists p. split; [done|].
  (* unfold the call to see the table and the traceback *)
  pose proof Hp as Hrun. unfold predict_structure in Hrun. cbv zeta in Hrun.
  destruct (nussinov_filled sequence) as (dp & Hdp & Hsq & Hrec & Hzero).
  rewrite Hdp, bind_Ok in Hrun.
  apply bind_inv_Ok in Hrun as (w & Hw & Hrun).
  apply bind_inv_Ok in Hrun as (bp & Hbp & Hrun). injection Hrun as <-.
  cbn [pred_structure pred_base_pairs] in *.
  assert (0 < Z.of_nat (length sequence)) as Hn by (subst sequence; simpl; lia).
  split; [|split].
  - unfold traceback in Hw.
    destruct (Z.gtb_spec 0 (Z.of_nat (length sequence) - 1)); [lia|].
    assert (tb_pre sequence 0 (Z.of_nat (length sequence) - 1)
              (replicate (length sequence) DOT)) as Hpre.
    { split; [lia|]. split; [lia|]. split; [apply length_replicate|].
      intros q Hq. apply lookup_replicate_2. lia. }
    pose proof (traceback_recursive_last sequence dp Hsq frames
                  0 (Z.of_nat (length sequence) - 1) _ w Hpre
                  ltac:(lia) ltac:(lia) Hw) as Hlast.
    rewrite <- Hlast. f_equal. subst sequence. simpl length. lia.
  - by apply nested_first.
  - rewrite (get_cell (length sequence)) in Hbp by (done || lia).
    injection Hbp as <-.
    destruct (table_entry_achieved_before_last sequence dp (conj Hrec Hzero)
                (length sequence) 0 (Z.of_nat (length sequence) - 1))
      as (pairs & Hadm & Hpairs); [lia | lia | lia |].
    destruct (Z.leb_spec 0 (Z.of_nat (length sequence) - 1)); [|lia].
    pose proof (admissible_size _ _ _ _ Hadm) as Hsize.
    assert (Z.of_nat (length sequence) = Z.of_nat (length rest) + 1) as Hlr
      by (subst sequence; simpl length; lia).
    change (S (length rest)) with (length sequence). lia.
Qed.

Lemma last_base_is_never_paired_witness :
  ∃ p, predict_structure 5 (chr "G" :: str "CAT") = Ok p ∧
       pred_structure p !! length (str "CAT") = Some DOT ∧
       pred_structure p !! 0%nat ≠ Some RPAREN ∧
       2 * pred_base_pairs p ≤ Z.of_nat (length (str "CAT")).
Proof. apply (last_base_is_never_paired 5 (chr "G") (str "CAT")). simpl. lia. Defined.

(** ** Motifs *)

Lemma span_total_snoc spans a b :
  span_total (spans ++ [(a, b)]) = span_total spans + (b - a + 1).
Proof. induction spans as [|s spans IH]; simpl; [lia|]. rewrite IH. lia. Qed.

(** The inner loop stops at the first position that does not hold [c]. *)
Lemma skip_run_spec structure c fuel :
  ∀ i, 0 ≤ i → i ≤ Z.of_nat (length structure) →
       Z.of_nat (length structure) - i < Z.of_nat fuel →
  ∃ i', skip_run fuel structure c i = Ok i' ∧
        i ≤ i' ∧ i' ≤ Z.of_nat (length structure) ∧
        (∀ p, i ≤ p < i' → structure !! Z.to_nat p = Some c) ∧
        structure !! Z.to_nat i' ≠ Some c.
Proof.
  induction fuel as [|fuel IH]; intros i Hi Hlen Hfuel; [lia|].
  cbn [skip_run]. destruct (Z.ltb_spec i (Z.of_nat (length structure))) as [Hlt|Hge].
  - destruct (lookup_lt_is_Some_2 structure (Z.to_nat i) ltac:(lia)) as [x Hx].
    rewrite (getitem_nonneg _ _ _ Hi Hx), bind_Ok.
    destruct (Ascii.eqb_spec x c) as [->|Hne].
    + destruct (IH (i + 1)) as (i' & Hrun & Hle & Hle' & Hall & Hstop); [lia..|].
      exists i'. split; [done|]. split; [lia|]. split; [done|]. split; [|done].
      intros p Hp. destruct (decide (p = i)) as [->|]; [done|]. apply Hall. lia.
    + exists i. split; [done|]. split; [lia|]. split; [lia|]. split; [intros; lia|].
      rewrite Hx. congruence.
  - exists i. split; [done|]. split; [lia|]. split; [lia|]. split; [intros; lia|].
    rewrite lookup_ge_None_2 by lia. done.
Qed.

Lemma count_take_step structure c (k : nat) x :
  structure !! k = Some x →
  count c (take (S k) structure)
  = count c (take k structure) + (if Ascii.eqb x c then 1 else 0).
Proof.
  intros Hx. rewrite (take_S_r _ _ _ Hx), count_app. simpl. lia.
Qed.

(** Counting over a stretch that holds [c] everywhere. *)
Lemma count_take_run structure c c' (n : nat) :
  ∀ i, 0 ≤ i →
       (∀ p, i ≤ p < i + Z.of_nat n → structure !! Z.to_nat p = Some c) →
       count c' (take (Z.to_nat (i + Z.of_nat n)) structure)
       = count c' (take (Z.to_nat i) structure)
         + (if Ascii.eqb c c' then Z.of_nat n else 0).
Proof.
  induction n as [|n IH]; intros i Hi Hall.
  - rewrite Z.add_0_r. destruct (Ascii.eqb c c'); lia.
  - replace (Z.to_nat (i + Z.of_nat (S n))) with (S (Z.to_nat (i + Z.of_nat n))) by lia.
    rewrite (count_take_step structure c' _ c) by (apply Hall; lia).
    rewrite IH by (done || (intros; apply Hall; lia)).
    destruct (Ascii.eqb c c'); lia.
Qed.

Section MotifLoop.
Variable structure : list ascii.
Local Abbreviation size := (Z.of_nat (length structure)).

Lemma motif_inv_run i i' c :
  0 ≤ i → i < i' → i' ≤ size →
  (∀ p, i ≤ p < i' → structure !! Z.to_nat p = Some c) →
  structure !! Z.to_nat i' ≠ Some c →
  (0 < i → structure !! Z.to_nat (i - 1) ≠ Some c) →
  maximal_run structure c i (i' - 1).
Proof.
  intros Hi Hlt Hle Hall Hstop Hedge.
  split; [done|]. split; [lia|]. split; [lia|]. split; [|split].
  - intros p Hp. apply Hall. lia.
  - done.
  - by replace (i' - 1 + 1) with i' by lia.
Qed.

Lemma motif_loop_spec fuel :
  ∀ i m, 0 ≤ i → i ≤ size → size - i < Z.of_nat fuel → motif_inv structure i m →
  ∃ m', motif_loop fuel structure i m = Ok m' ∧ motif_inv structure size m'.
Proof.
  induction fuel as [|fuel IH]; intros i m Hi Hlen Hfuel Hinv; [lia|].
  cbn [motif_loop]. destruct (Z.ltb_spec i size) as [Hlt|Hge]; cycle 1.
  { exists m. split; [done|]. by replace size with i by lia. }
  destruct (lookup_lt_is_Some_2 structure (Z.to_nat i) ltac:(lia)) as [x Hx].
  rewrite (getitem_nonneg _ _ _ Hi Hx), bind_Ok.
  destruct Hinv as [Hb Hh Hs Hl Hst Hlt' Hse Hle Hsc Hlc].
  destruct (Ascii.eqb_spec x LPAREN) as [->|Hnl].
  - destruct (skip_run_spec structure LPAREN (S (length structure)) i)
      as (i' & -> & Hii' & Hi'size & Hall & Hstop); [lia..|].
    rewrite bind_Ok. cbv zeta.
    assert (i < i') as Hlt2.
    { destruct (decide (i = i')) as [<-|]; [|lia]. by rewrite Hx in Hstop. }
    apply IH; [lia | lia | lia |].
    pose proof (count_take_run structure LPAREN LPAREN (Z.to_nat (i' - i)) i Hi) as Hc1.
    pose proof (count_take_run structure LPAREN DOT (Z.to_nat (i' - i)) i Hi) as Hc2.
    replace (i + Z.of_nat (Z.to_nat (i' - i))) with i' in Hc1, Hc2 by lia.
    change (Ascii.eqb LPAREN LPAREN) with true in Hc1.
    change (Ascii.eqb LPAREN DOT) with false in Hc2.
    split; cbn [stems loops bulges hairpins]; try done.
    + intros a b Hab. apply elem_of_app in Hab as [Hab|Hab]; [by apply Hs|].
      apply list_elem_of_singleton in Hab. injection Hab as -> ->.
      apply motif_inv_run; try (done || lia).
      intros Hpos Hprev. by apply (Hse Hpos Hprev).
    + rewrite span_total_snoc, Hst, Hc1 by (intros; apply Hall; lia). lia.
    + rewrite Hlt', Hc2 by (intros; apply Hall; lia). lia.
    + intros _ Hprev. rewrite (Hall (i' - 1)) in Hprev by lia. discriminate.
    + intros q Hq Hql. destruct (Z.lt_ge_cases q i) as [Hqi|Hqi].
      * destruct (Hsc q ltac:(lia) Hql) as (a & b & Hab & Hr).
        exists a, b. split; [apply elem_of_app; by left | done].
      * exists i, (i' - 1). split; [apply elem_of_app; right; left | lia].
    + intros q Hq Hql. destruct (Z.lt_ge_cases q i) as [Hqi|Hqi]; [by apply Hlc; [lia|]|].
      rewrite (Hall q) in Hql by lia. discriminate.
  - destruct (Ascii.eqb_spec x DOT) as [->|Hnd].
    + destruct (skip_run_spec structure DOT (S (length structure)) i)
        as (i' & -> & Hii' & Hi'size & Hall & Hstop); [lia..|].
      rewrite bind_Ok. cbv zeta.
      assert (i < i') as Hlt2.
      { destruct (decide (i = i')) as [<-|]; [|lia]. by rewrite Hx in Hstop. }
      apply IH; [lia | lia | lia |].
      pose proof (count_take_run structure DOT LPAREN (Z.to_nat (i' - i)) i Hi) as Hc1.
      pose proof (count_take_run structure DOT DOT (Z.to_nat (i' - i)) i Hi) as Hc2.
      replace (i + Z.of_nat (Z.to_nat (i' - i))) with i' in Hc1, Hc2 by lia.
      change (Ascii.eqb DOT LPAREN) with false in Hc1.
      change (Ascii.eqb DOT DOT) with true in Hc2.
      split; cbn [stems loops bulges hairpins]; try done.
      * intros a b Hab. apply elem_of_app in Hab as [Hab|Hab]; [by apply Hl|].
        apply list_elem_of_singleton in Hab. injection Hab as -> ->.
        apply motif_inv_run; try (done || lia).
        intros Hpos Hprev. by apply (Hle Hpos Hprev).
      * rewrite Hst, Hc1 by (intros; apply Hall; lia). lia.
      * rewrite span_total_snoc, Hlt', Hc2 by (intros; apply Hall; lia). lia.
      * intros _ Hprev. rewrite (Hall (i' - 1)) in Hprev by lia. discriminate.
      * intros q Hq Hql. destruct (Z.lt_ge_cases q i) as [Hqi|Hqi]; [by apply Hsc; [lia|]|].
        rewrite (Hall q) in Hql by lia. discriminate.
      * intros q Hq Hql. destruct (Z.lt_ge_cases q i) as [Hqi|Hqi].
        -- destruct (Hlc q ltac:(lia) Hql) as (a & b & Hab & Hr).
           exists a, b. split; [apply elem_of_app; by left | done].
        -- exists i, (i' - 1). split; [apply elem_of_app; right; left | lia].
    + apply IH; [lia | lia | lia |].
      split; try done;
        replace (Z.to_nat (i + 1)) with (S (Z.to_nat i)) by lia.
      * rewrite Hst, (count_take_step _ _ _ x) by done.
        destruct (Ascii.eqb_spec x LPAREN); [done | lia].
      * rewrite Hlt', (count_take_step _ _ _ x) by done.
        destruct (Ascii.eqb_spec x DOT); [done | lia].
      * intros _ Hprev. replace (Z.to_nat (i + 1 - 1)) with (Z.to_nat i) in Hprev by lia.
        congruence.
      * intros _ Hprev. replace (Z.to_nat (i + 1 - 1)) with (Z.to_nat i) in Hprev by lia.
        congruence.
      * intros q Hq Hql. apply Hsc; [|done].
        destruct (decide (q = i)) as [->|]; [congruence | lia].
      * intros q Hq Hql. apply Hlc; [|done].
        destruct (decide (q = i)) as [->|]; [congruence | lia].
Qed.

End MotifLoop.

(** X12.  [extract_motifs] on an arbitrary string returns (both of its loops
    terminate); [bulges] and [hairpins] stay empty; every stem is a maximal
    run of ['('] and every loop a maximal run of ['.']; the stems cover as
    many positions as the string has ['('], the loops as many as it has
    ['.'], and every ['('] and every ['.'] lies in one of them. *)
Theorem extract_motifs_runs (structure : list ascii) :
  ∃ m, extract_motifs structure = Ok m ∧
       bulges m = [] ∧ hairpins m = [] ∧
       (∀ a b, (a, b) ∈ stems m → maximal_run structure LPAREN a b) ∧
       (∀ a b, (a, b) ∈ loops m → maximal_run structure DOT a b) ∧
       span_total (stems m) = count LPAREN structure ∧
       span_total (loops m) = count DOT structure ∧
       (∀ q : nat, structure !! q = Some LPAREN →
                   ∃ a b, (a, b) ∈ stems m ∧ a ≤ Z.of_nat q ≤ b) ∧
       (∀ q : nat, structure !! q = Some DOT →
                   ∃ a b, (a, b) ∈ loops m ∧ a ≤ Z.of_nat q ≤ b).
Proof.
  destruct (motif_loop_spec structure (S (length structure)) 0
              {| stems := []; loops := []; bulges := []; hairpins := [] |})
    as (m & Hrun & [Hb Hh Hs Hl Hst Hlt _ _ Hsc Hlc]); [lia | lia | lia | |].
  { split; simpl; try done; try lia; intros a b H; by apply elem_of_nil in H. }
  exists m. split; [done|]. split; [done|]. split; [done|].
  split; [done|]. split; [done|].
  rewrite Nat2Z.id, firstn_all in Hst, Hlt. split; [done|]. split; [done|].
  split; intros q Hq; pose proof (lookup_lt_Some _ _ _ Hq).
  - apply Hsc; [lia | by rewrite Nat2Z.id].
  - apply Hlc; [lia | by rewrite Nat2Z.id].
Qed.

(** ** Sequence parsing *)

Module SequenceParserFacts.
Import SequenceParser.

Lemma str_count_nonneg c s : 0 ≤ str_count c s.
Proof. induction s as [|x s IH]; simpl; [lia|]. destruct (Ascii.eqb x c); lia. Qed.

Lemma str_count_length c s : str_count c s ≤ Z.of_nat (length s).
Proof.
  induction s as [|x s IH]; [simpl; lia|].
  cbn [str_count length]. destruct (Ascii.eqb x c); lia.
Qed.

(** Two different characters are counted over disjoint positions. *)
Lemma str_count_disjoint c c' s :
  c ≠ c' → str_count c s + str_count c' s ≤ Z.of_nat (length s).
Proof.
  intros Hne. induction s as [|x s IH]; [simpl; lia|].
  cbn [str_count length].
  destruct (Ascii.eqb_spec x c); destruct (Ascii.eqb_spec x c');
    try congruence; lia.
Qed.

Lemma str_count_filter c s :
  Z.of_nat (length s) - str_count c s
  = Z.of_nat (length (List.filter (λ x, negb (Ascii.eqb x c)) s)).
Proof.
  induction s as [|x s IH]; [done|].
  cbn [str_count length List.filter]. destruct (Ascii.eqb x c); cbn [negb length]; lia.
Qed.

Lemma existsb_eqb c l : existsb (Ascii.eqb c) l = true ↔ c ∈ l.
Proof.
  rewrite existsb_exists. split.
  - intros (x & Hin & Heq). apply Ascii.eqb_eq in Heq as ->. by apply list_elem_of_In.
  - intros Hin. exists c. split; [by apply list_elem_of_In | apply Ascii.eqb_refl].
Qed.

Lemma invalid_chars_of_elem sequence :
  ∀ seen c, c ∈ invalid_chars_of seen sequence
            ↔ c ∈ sequence ∧ is_valid_nucleotide c = false ∧ c ∉ seen.
Proof.
  induction sequence as [|x rest IH]; intros seen c; cbn [invalid_chars_of].
  - split; [intros H; by apply elem_of_nil in H | intros (H & _); by apply elem_of_nil in H].
  - destruct (is_valid_nucleotide x) eqn:Hv; cbn [orb].
    + rewrite IH, elem_of_cons. split.
      * intros (H & Hc & Hn). split; [by right | done].
      * intros ([->|H] & Hc & Hs); [congruence | done].
    + destruct (existsb (Ascii.eqb x) seen) eqn:Hs.
      * apply existsb_eqb in Hs. rewrite IH, elem_of_cons. split.
        -- intros (H & Hc & Hn). split; [by right | done].
        -- intros ([->|H] & Hc & Hn); [done | done].
      * assert (x ∉ seen) as Hx.
        { intros H. apply existsb_eqb in H. congruence. }
        rewrite !elem_of_cons, IH, not_elem_of_cons. split.
        -- intros [->|(H & Hc & Hne & Hn)]; [by split; [left|] | by split; [right|]].
        -- intros ([->|H] & Hc & Hn); [by left|].
           destruct (Ascii.eqb_spec c x) as [->|Hne]; [by left|]. by right.
Qed.

Lemma invalid_chars_of_NoDup sequence :
  ∀ seen, NoDup (invalid_chars_of seen sequence).
Proof.
  induction sequence as [|x rest IH]; intros seen; cbn [invalid_chars_of].
  - constructor.
  - destruct (is_valid_nucleotide x || existsb (Ascii.eqb x) seen); [apply IH|].
    apply NoDup_cons_2; [|apply IH].
    rewrite invalid_chars_of_elem, not_elem_of_cons. by intros (_ & _ & Hne & _).
Qed.

Lemma invalid_chars_of_nil sequence :
  invalid_chars_of [] sequence = []
  ↔ Forall (λ c, is_valid_nucleotide c = true) sequence.
Proof.
  rewrite list.Forall_forall. split.
  - intros Hnil c Hc. destruct (is_valid_nucleotide c) eqn:Hv; [done|].
    assert (c ∈ invalid_chars_of [] sequence) as Hin.
    { apply invalid_chars_of_elem. split; [done|]. split; [done|]. apply not_elem_of_nil. }
    rewrite Hnil in Hin. by apply elem_of_nil in Hin.
  - intros Hall. destruct (invalid_chars_of [] sequence) as [|c cs] eqn:E; [done|].
    assert (c ∈ invalid_chars_of [] sequence) as Hin by (rewrite E; left).
    apply invalid_chars_of_elem in Hin as (Hc & Hv & _).
    rewrite (Hall c Hc) in Hv. discriminate.
Qed.

(** The comparison [count / len > 0.1] over the integers. *)
Lemma share_above_tenth (k total : Z) :
  0 < total →
  Qltb 0.1%Q (inject_Z k / inject_Z total)%Q = true ↔ total < 10 * k.
Proof.
  intros Hlen. rewrite Qltb_lt.
  assert (0 < inject_Z total)%Q as Hpos by by apply inject_Z_pos.
  split.
  - intros H. destruct (Z.lt_ge_cases total (10 * k)) as [|Hge]; [done|].
    exfalso. apply (Qlt_not_le _ _ H). apply Qle_shift_div_r; [done|].
    unfold Qle. simpl. lia.
  - intros H. apply Qlt_shift_div_l; [done|]. unfold Qlt. simpl. lia.
Qed.

Lemma is_valid_upper_char c :
  is_valid_nucleotide c = true → upper_char c = c.
Proof.
  unfold is_valid_nucleotide. rewrite existsb_eqb. intros H.
  repeat (apply elem_of_cons in H as [->|H]; [done|]).
  by apply elem_of_nil in H.
Qed.

Lemma preprocess_valid sequence :
  Forall (λ c, is_valid_nucleotide c = true) sequence →
  preprocess_sequence sequence = sequence.
Proof.
  unfold preprocess_sequence. induction 1 as [|c rest Hc _ IH]; [done|].
  cbn [fmap list_fmap List.filter]. rewrite (is_valid_upper_char c Hc), Hc.
  f_equal. exact IH.
Qed.

Lemma preprocess_all_valid sequence :
  Forall (λ c, is_valid_nucleotide c = true) (preprocess_sequence sequence).
Proof.
  unfold preprocess_sequence. rewrite Forall_forall. intros c Hc.
  by apply filter_In in Hc as [_ Hc].
Qed.

Lemma validate_sequence_raises min_length seq_id sequence :
  validate_sequence min_length seq_id sequence = ZeroDivisionError
  ↔ sequence = [] ∧ min_length ≤ 0.
Proof.
  unfold validate_sequence. split.
  - destruct (Z.ltb_spec (Z.of_nat (length sequence)) min_length); [done|].
    destruct (invalid_chars_of [] sequence); [|done].
    destruct (Z.eqb_spec (Z.of_nat (length sequence)) 0) as [Hz|].
    + intros _. split; [|lia]. apply length_zero_iff_nil. lia.
    + by destruct (Qltb _ _).
  - intros [-> Hmin]. cbn [length invalid_chars_of]. change (Z.of_nat 0) with 0.
    destruct (Z.ltb_spec 0 min_length); [lia | done].
Qed.

Lemma validate_sequence_accepts min_length seq_id sequence v :
  validate_sequence min_length seq_id sequence = Returned (true, v)
  ↔ v = Valid ∧ min_length ≤ Z.of_nat (length sequence) ∧ sequence ≠ [] ∧
    Forall (λ c, is_valid_nucleotide c = true) sequence ∧
    10 * str_count (chr "N") sequence ≤ Z.of_nat (length sequence).
Proof.
  unfold validate_sequence. rewrite <- invalid_chars_of_nil.
  destruct (Z.ltb_spec (Z.of_nat (length sequence)) min_length) as [Hlt|Hge].
  { split; [done | intros (_ & H & _); lia]. }
  destruct (invalid_chars_of [] sequence) as [|c cs].
  2: { split; [done | by intros (_ & _ & _ & H & _)]. }
  destruct (Z.eqb_spec (Z.of_nat (length sequence)) 0) as [Hz|Hnz].
  { split; [done|]. intros (_ & _ & Hne & _). destruct Hne. apply length_zero_iff_nil. lia. }
  destruct (Qltb _ _) eqn:Hq.
  - apply share_above_tenth in Hq; [|lia]. split; [done | intros (_ & _ & _ & _ & H); lia].
  - split.
    + intros [= <-]. split; [done|]. split; [done|].
      split; [by intros ->|]. split; [done|].
      destruct (Z.le_gt_cases (10 * str_count (chr "N") sequence) (Z.of_nat (length sequence)))
        as [|Hgt]; [done|].
      apply share_above_tenth in Hgt; [congruence | lia].
    + by intros (-> & _).
Qed.

(** Writing under a key that the dictionary does not hold appends. *)
Lemma dict_set_fresh {V} (d : list (string * V)) key v :
  key ∉ d.*1 → dict_set d key v = d ++ [(key, v)].
Proof.
  induction d as [|[k old] d IH]; [done|]. cbn [fmap list_fmap fst dict_set app].
  intros Hnot. apply not_elem_of_cons in Hnot as [Hne Hnot].
  destruct (String.eqb_spec k key); [congruence|]. by rewrite IH.
Qed.

Lemma dict_lookup_set {V} (d : list (string * V)) key v key' :
  dict_lookup (dict_set d key v) key'
  = if String.eqb key key' then Some v else dict_lookup d key'.
Proof.
  induction d as [|[k old] d IH]; cbn [dict_set dict_lookup].
  - done.
  - destruct (String.eqb_spec k key) as [->|Hne]; cbn [dict_lookup].
    + by destruct (String.eqb key key').
    + rewrite IH. destruct (String.eqb_spec k key') as [->|]; [|done].
      by destruct (String.eqb_spec key key'); [congruence|].
Qed.

Lemma filter_loop_spec min_length items :
  ∀ filtered,
    NoDup (filtered.*1 ++ items.*1) →
    (filter_loop min_length items filtered = ZeroDivisionError
     ↔ min_length ≤ 0 ∧ ∃ seq_id, (seq_id, []) ∈ items) ∧
    ∀ out, filter_loop min_length items filtered = Returned out →
      ∃ kept, out = filtered ++ kept ∧ kept `sublist_of` items ∧
        ∀ seq_id sequence,
          (seq_id, sequence) ∈ kept
          ↔ (seq_id, sequence) ∈ items ∧
            validate_sequence min_length seq_id sequence = Returned (true, Valid).
Proof.
  induction items as [|[seq_id sequence] rest IH]; intros filtered Hnd.
  - cbn [filter_loop]. split.
    + split; [done|]. intros (_ & s & H). by apply elem_of_nil in H.
    + intros out [= <-]. exists []. rewrite app_nil_r. split; [done|]. split; [done|].
      intros s q. split; [intros H; by apply elem_of_nil in H|].
      intros (H & _). by apply elem_of_nil in H.
  - cbn [filter_loop].
    destruct (validate_sequence min_length seq_id sequence) as [[valid v]|] eqn:Hval.
    + assert ((seq_id ∉ filtered.*1) ∧ (seq_id ∉ rest.*1) ∧ NoDup (filtered.*1 ++ rest.*1))
        as (Hf & Hr & Hnd').
      { cbn [fmap list_fmap fst] in Hnd.
        apply list.NoDup_app in Hnd as (Hn1 & Hdis & Hn2).
        apply list.NoDup_cons in Hn2 as [Hr Hn2]. split; [|split; [done|]].
        - intros H. apply (Hdis _ H). left.
        - apply list.NoDup_app. split; [done|]. split; [|done].
          intros x Hx Hx'. apply (Hdis _ Hx). by right. }
      assert (sequence = [] → ¬ min_length ≤ 0) as Hne.
      { intros -> Hmin.
        assert (validate_sequence min_length seq_id [] = ZeroDivisionError) as E
          by by apply validate_sequence_raises.
        congruence. }
      destruct valid.
      * assert (v = Valid) as -> by by apply validate_sequence_accepts in Hval as [-> _].
        pose proof Hval as Hacc. apply validate_sequence_accepts in Hacc as (_ & _ & _ & Hall & _).
        rewrite (preprocess_valid _ Hall), (dict_set_fresh _ _ _ Hf).
        destruct (IH (filtered ++ [(seq_id, sequence)])) as [Hraise Hret].
        { rewrite fmap_app. cbn [fmap list_fmap fst]. rewrite <- app_assoc.
          apply list.NoDup_app in Hnd' as (Hn1 & Hdis & Hn2).
          apply list.NoDup_app. split; [done|]. split.
          - intros x Hx Hx'. apply elem_of_cons in Hx' as [->|Hx']; [done|].
            by apply (Hdis _ Hx).
          - cbn [app]. by apply NoDup_cons_2. }
        split.
        -- rewrite Hraise. split.
           ++ intros (Hmin & s & Hs). split; [done|]. exists s. by right.
           ++ intros (Hmin & s & Hs). split; [done|].
              apply elem_of_cons in Hs as [[= -> <-]|Hs]; [by destruct Hne | by exists s].
        -- intros out Hout. destruct (Hret out Hout) as (kept & -> & Hsub & Hmem).
           exists ((seq_id, sequence) :: kept). rewrite <- app_assoc. split; [done|].
           split; [by apply sublist_skip|].
           intros s q. rewrite !elem_of_cons, Hmem. split.
           ++ intros [[= -> ->]|[H1 H2]]; [by split; [left|] | by split; [right|]].
           ++ intros [[[= -> ->]|H1] H2]; [by left | by right].
      * destruct (IH filtered Hnd') as [Hraise Hret].
        split.
        -- rewrite Hraise. split.
           ++ intros (Hmin & s & Hs). split; [done|]. exists s. by right.
           ++ intros (Hmin & s & Hs). split; [done|].
              apply elem_of_cons in Hs as [[= -> <-]|Hs]; [by destruct Hne | by exists s].
        -- intros out Hout. destruct (Hret out Hout) as (kept & -> & Hsub & Hmem).
           exists kept. split; [done|]. split; [by apply sublist_cons|].
           intros s q. rewrite elem_of_cons, Hmem. split.
           ++ intros [H1 H2]. by split; [right|].
           ++ intros [[[= -> ->]|H1] H2]; [congruence | done].
    + apply validate_sequence_raises in Hval as [-> Hmin]. split.
      * split; [|done]. intros _. split; [done|]. exists seq_id. left.
      * done.
Qed.

End SequenceParserFacts.

Module SequenceParserStats.
Import SequenceParser SequenceParserFacts.

Lemma upper_char_idempotent c : upper_char (upper_char c) = upper_char c.
Proof. by destruct c as [[] [] [] [] [] [] [] []]. Qed.

Lemma share_range (k total : Z) :
  0 ≤ k → k ≤ total → 0 < total →
  (0 <= inject_Z k / inject_Z total)%Q ∧ (inject_Z k / inject_Z total <= 1)%Q.
Proof.
  intros Hk Hle Hlen.
  assert (0 < inject_Z total)%Q as Hpos by by apply inject_Z_pos.
  split.
  - apply Qdiv_nonneg; [by apply inject_Z_nonneg | done].
  - apply Qle_shift_div_r; [done|]. unfold Qle. simpl. lia.
Qed.

Lemma stats_of_range seq :
  let st := stats_of seq in
  stat_length st = Z.of_nat (length seq) ∧
  (0 <= gc_content st)%Q ∧ (gc_content st <= 1)%Q ∧
  (0 <= at_content st)%Q ∧ (at_content st <= 1)%Q ∧
  (0 <= n_content st)%Q ∧ (n_content st <= 1)%Q ∧
  0 ≤ unique_length st ∧ unique_length st ≤ stat_length st ∧
  unique_length st
  = Z.of_nat (length (List.filter (λ x, negb (Ascii.eqb x (chr "N"))) seq)).
Proof.
  cbv zeta. unfold stats_of. cbn [stat_length gc_content at_content n_content unique_length].
  pose proof (str_count_nonneg (chr "G") seq) as HG.
  pose proof (str_count_nonneg (chr "C") seq) as HC.
  pose proof (str_count_nonneg (chr "A") seq) as HA.
  pose proof (str_count_nonneg (chr "T") seq) as HT.
  pose proof (str_count_nonneg (chr "N") seq) as HN.
  pose proof (str_count_length (chr "N") seq) as HNlen.
  pose proof (str_count_disjoint (chr "G") (chr "C") seq ltac:(done)) as HGC.
  pose proof (str_count_disjoint (chr "A") (chr "T") seq ltac:(done)) as HAT.
  split; [done|].
  assert (∀ k, 0 ≤ k → k ≤ Z.of_nat (length seq) →
               (0 <= match seq with [] => 0 | _ :: _ => inject_Z k / inject_Z (Z.of_nat (length seq)) end)%Q
               ∧ (match seq with [] => 0 | _ :: _ => inject_Z k / inject_Z (Z.of_nat (length seq)) end <= 1)%Q)
    as Hshare.
  { intros k Hk Hle. destruct seq as [|x seq'].
    - split; [apply Qle_refl | done].
    - apply share_range; [done | done | cbn [length]; lia]. }
  destruct (Hshare (str_count (chr "G") seq + str_count (chr "C") seq)) as [? ?]; [lia | done |].
  destruct (Hshare (str_count (chr "A") seq + str_count (chr "T") seq)) as [? ?]; [lia | done |].
  destruct (Hshare _ HN HNlen) as [? ?].
  do 6 (split; [done|]).
  split; [lia|]. split; [lia|]. apply str_count_filter.
Qed.

Lemma compute_stats_loop items :
  ∀ acc seq_id,
    let out := fold_left (λ stats item, dict_set stats item.1 (stats_of item.2)) items acc in
    (is_Some (dict_lookup out seq_id)
     ↔ is_Some (dict_lookup acc seq_id) ∨ seq_id ∈ items.*1) ∧
    ∀ st, dict_lookup out seq_id = Some st →
          dict_lookup acc seq_id = Some st ∨
          ∃ seq, (seq_id, seq) ∈ items ∧ st = stats_of seq.
Proof.
  induction items as [|[k seq] rest IH]; intros acc seq_id; cbv zeta.
  - cbn [fold_left fmap list_fmap]. split.
    + split; [by left|]. intros [H|H]; [done | by apply elem_of_nil in H].
    + intros st H. by left.
  - cbn [fold_left fmap list_fmap fst snd].
    destruct (IH (dict_set acc k (stats_of seq)) seq_id) as [Hsome Hval].
    cbv zeta in Hsome, Hval. split.
    + rewrite Hsome, dict_lookup_set, elem_of_cons.
      destruct (String.eqb_spec k seq_id) as [->|Hne].
      * split; [intros _; right; by left | intros _; left; by eexists].
      * split; (intros [H|H]; [by left|]).
        -- right. by right.
        -- destruct H as [->|H]; [done | by right].
    + intros st Hst. destruct (Hval st Hst) as [Hacc|(s & Hs & ->)].
      * rewrite dict_lookup_set in Hacc.
        destruct (String.eqb_spec k seq_id) as [->|Hne]; [|by left].
        right. exists seq. split; [left | congruence].
      * right. exists s. split; [by right | done].
Qed.

End SequenceParserStats.

Import SequenceParser SequenceParserFacts SequenceParserStats.

(** X13.  [validate_sequence].  The call raises [ZeroDivisionError] exactly
    when the sequence is empty and [min_length] is zero or negative.  It
    accepts exactly the non-empty sequences of length at least [min_length]
    whose characters are all among A, T, G, C, U, N and that hold at most
    one N in ten characters.  It answers that the sequence is too short
    exactly when the length is below [min_length]; and the invalid
    characters it reports are, without repetition, the characters of the
    sequence outside the alphabet. *)
Theorem validate_sequence_characterised (min_length : Z) (seq_id : string)
    (sequence : list ascii) :
  (validate_sequence min_length seq_id sequence = ZeroDivisionError
   ↔ sequence = [] ∧ min_length ≤ 0) ∧
  (∀ v, validate_sequence min_length seq_id sequence = Returned (true, v)
        ↔ v = Valid ∧ min_length ≤ Z.of_nat (length sequence) ∧ sequence ≠ [] ∧
          Forall (λ c, is_valid_nucleotide c = true) sequence ∧
          10 * str_count (chr "N") sequence ≤ Z.of_nat (length sequence)) ∧
  (∀ a b, validate_sequence min_length seq_id sequence = Returned (false, TooShort a b)
          ↔ a = Z.of_nat (length sequence) ∧ b = min_length ∧ a < b) ∧
  (∀ cs, validate_sequence min_length seq_id sequence
         = Returned (false, InvalidNucleotides cs) →
         cs ≠ [] ∧ NoDup cs ∧
         ∀ c, c ∈ cs ↔ c ∈ sequence ∧ is_valid_nucleotide c = false).
Proof.
  split; [apply validate_sequence_raises|].
  split; [intros v; apply validate_sequence_accepts|].
  unfold validate_sequence. split.
  - intros a b. destruct (Z.ltb_spec (Z.of_nat (length sequence)) min_length) as [Hlt|Hge].
    + split; [by intros [= <- <-] | by intros (-> & -> & _)].
    + split; [|intros (-> & -> & H); lia].
      destruct (invalid_chars_of [] sequence); [|done].
      destruct (Z.of_nat (length sequence) =? 0); [done|]. by destruct (Qltb _ _).
  - intros cs. destruct (Z.ltb_spec (Z.of_nat (length sequence)) min_length); [done|].
    pose proof (invalid_chars_of_NoDup sequence []) as Hnd.
    pose proof (invalid_chars_of_elem sequence []) as Hel.
    destruct (invalid_chars_of [] sequence) as [|c0 cs0].
    + destruct (Z.of_nat (length sequence) =? 0); [done|]. by destruct (Qltb _ _).
    + intros [= <-]. split; [done|]. split; [done|].
      intros c. rewrite Hel. split; [by intros (? & ? & _)|].
      intros (? & ?). split; [done|]. split; [done|]. apply not_elem_of_nil.
Qed.

(** X14.  [preprocess_sequence] returns a string over A, T, G, C, U, N that
    is no longer than its argument; it is idempotent, gives the same result
    on a string and on its upper-case form (ASCII letters), and leaves a
    string unchanged exactly when all its characters are already in that
    alphabet. *)
Theorem preprocess_sequence_normalises (sequence : list ascii) :
  Forall (λ c, is_valid_nucleotide c = true) (preprocess_sequence sequence) ∧
  (length (preprocess_sequence sequence) ≤ length sequence)%nat ∧
  preprocess_sequence (preprocess_sequence sequence) = preprocess_sequence sequence ∧
  preprocess_sequence (upper_char <$> sequence) = preprocess_sequence sequence ∧
  (preprocess_sequence sequence = sequence
   ↔ Forall (λ c, is_valid_nucleotide c = true) sequence).
Proof.
  split; [apply preprocess_all_valid|]. split; [|split; [|split]].
  - unfold preprocess_sequence.
    etrans; [apply List.filter_length_le|]. by rewrite length_fmap.
  - apply preprocess_valid, preprocess_all_valid.
  - unfold preprocess_sequence. f_equal. rewrite <- list_fmap_compose.
    apply list_fmap_ext. intros _ c _. apply upper_char_idempotent.
  - split; [|apply preprocess_valid].
    intros <-. apply preprocess_all_valid.
Qed.

(** X15.  [filter_sequences] on a dictionary (distinct keys).  It raises
    [ZeroDivisionError] exactly when [min_length] is zero or negative and
    some sequence is empty; whenever it returns, the result holds, in the
    order of the input and unchanged, exactly the entries that
    [validate_sequence] accepts; with a positive [min_length] it always
    returns. *)
Theorem filter_sequences_keeps_valid (min_length : Z)
    (sequences : list (string * list ascii)) :
  NoDup sequences.*1 →
  (filter_sequences min_length sequences = ZeroDivisionError
   ↔ min_length ≤ 0 ∧ ∃ seq_id, (seq_id, []) ∈ sequences) ∧
  (∀ filtered, filter_sequences min_length sequences = Returned filtered →
     filtered `sublist_of` sequences ∧
     ∀ seq_id sequence,
       (seq_id, sequence) ∈ filtered
       ↔ (seq_id, sequence) ∈ sequences ∧
         validate_sequence min_length seq_id sequence = Returned (true, Valid)) ∧
  (0 < min_length →
   ∃ filtered, filter_sequences min_length sequences = Returned filtered).
Proof.
  intros Hnd. destruct (filter_loop_spec min_length sequences [] Hnd) as [Hraise Hret].
  unfold filter_sequences. split; [done|]. split.
  - intros filtered Hout. by destruct (Hret filtered Hout) as (kept & -> & Hsub & Hmem).
  - intros Hmin. destruct (filter_loop min_length sequences []) as [out|]; [by exists out|].
    destruct (proj1 Hraise eq_refl) as [? _]. lia.
Qed.

Lemma filter_sequences_keeps_valid_witness :
  let sequences :=
    [("s1"%string, str "ACGTACGTACGTACGTACGTN"); ("s2"%string, str "ACGT");
     ("s3"%string, str "ACGTACGTACGTACGTACGTX")] in
  (filter_sequences MIN_SEQUENCE_LENGTH sequences = ZeroDivisionError
   ↔ MIN_SEQUENCE_LENGTH ≤ 0 ∧ ∃ seq_id, (seq_id, []) ∈ sequences) ∧
  (∀ filtered, filter_sequences MIN_SEQUENCE_LENGTH sequences = Returned filtered →
     filtered `sublist_of` sequences ∧
     ∀ seq_id sequence,
       (seq_id, sequence) ∈ filtered
       ↔ (seq_id, sequence) ∈ sequences ∧
         validate_sequence MIN_SEQUENCE_LENGTH seq_id sequence = Returned (true, Valid)) ∧
  (0 < MIN_SEQUENCE_LENGTH →
   ∃ filtered, filter_sequences MIN_SEQUENCE_LENGTH sequences = Returned filtered).
Proof.
  apply (filter_sequences_keeps_valid MIN_SEQUENCE_LENGTH).
  repeat (apply NoDup_cons_2;
          [intros H; repeat (apply elem_of_cons in H as [H|H]; [discriminate|]);
           by apply elem_of_nil in H|]).
  apply NoDup_nil_2.
Defined.

(** X16.  [compute_stats] has an entry for exactly the ids of its argument;
    each entry is the statistics of a sequence stored under that id, with
    its length and, as [unique_length], the number of its characters other
    than N.  The three contents lie between 0 and 1 (the empty sequence
    gives 0 without a division), and [0 ≤ unique_length ≤ length]. *)
Theorem compute_stats_entries (sequences : list (string * list ascii))
    (seq_id : string) :
  (is_Some (dict_lookup (compute_stats sequences) seq_id) ↔ seq_id ∈ sequences.*1) ∧
  ∀ st, dict_lookup (compute_stats sequences) seq_id = Some st →
    (∃ seq, (seq_id, seq) ∈ sequences ∧ st = stats_of seq ∧
            stat_length st = Z.of_nat (length seq) ∧
            unique_length st
            = Z.of_nat (length (List.filter (λ x, negb (Ascii.eqb x (chr "N"))) seq))) ∧
    (0 <= gc_content st)%Q ∧ (gc_content st <= 1)%Q ∧
    (0 <= at_content st)%Q ∧ (at_content st <= 1)%Q ∧
    (0 <= n_content st)%Q ∧ (n_content st <= 1)%Q ∧
    0 ≤ unique_length st ∧ unique_length st ≤ stat_length st.
Proof.
  destruct (compute_stats_loop sequences [] seq_id) as [Hsome Hval].
  cbv zeta in Hsome, Hval. unfold compute_stats. split.
  - rewrite Hsome. split; [intros [[? H]|H]; [discriminate | done] | by right].
  - intros st Hst. destruct (Hval st Hst) as [H|(seq & Hseq & ->)]; [discriminate|].
    pose proof (stats_of_range seq) as (H1 & H2 & H3 & H4 & H5 & H6 & H7 & H8 & H9 & H10).
    split; [by exists seq|]. done.
Qed.

(** ** Sequence metrics *)

Lemma constant_run_app pre rest a n :
  constant_run pre a n → constant_run (pre ++ rest) a n.
Proof.
  intros [Hlen Hall]. split; [rewrite length_app; lia|].
  intros p Hp. destruct (decide (n = 0)%nat) as [->|Hn]; [lia|].
  rewrite !lookup_app_l by lia. by apply Hall.
Qed.

Lemma constant_run_inside pre rest a n :
  (a + n ≤ length pre)%nat → constant_run (pre ++ rest) a n → constant_run pre a n.
Proof.
  intros Hin [Hlen Hall]. split; [done|].
  intros p Hp. specialize (Hall p Hp). by rewrite !lookup_app_l in Hall by lia.
Qed.

Lemma run_inv_start x : run_inv [x] x 1 1.
Proof.
  split; cbn [length].
  - lia.
  - intros p Hp. by replace p with 0%nat by lia.
  - lia.
  - split.
    + exists 0%nat. split; [simpl; lia|]. intros p Hp. by replace p with 0%nat by lia.
    + intros a n' [Hlen _]. simpl in Hlen. lia.
Qed.

Lemma run_inv_step pre prev mx c x :
  run_inv pre prev mx c →
  run_inv (pre ++ [x]) x
    (Nat.max mx (if Ascii.eqb x prev then S c else 1))
    (if Ascii.eqb x prev then S c else 1).
Proof.
  intros [(Hc & Hcl) Htail Hstop [(a0 & Hrun0) Hbest]].
  assert (pre !! (length pre - 1)%nat = Some prev) as Hlast by (apply Htail; lia).
  assert ((pre ++ [x]) !! length pre = Some x) as Hx
    by (rewrite lookup_app_r, Nat.sub_diag by lia; done).
  destruct (Ascii.eqb_spec x prev) as [->|Hne].
  - split; rewrite ?length_app; cbn [length].
    + lia.
    + intros p Hp. destruct (decide (p = length pre)) as [->|]; [done|].
      rewrite lookup_app_l by lia. apply Htail. lia.
    + intros Hlt. rewrite lookup_app_l by lia.
      replace (length pre + 1 - S c - 1)%nat with (length pre - c - 1)%nat by lia.
      apply Hstop. lia.
    + assert (constant_run (pre ++ [prev]) (length pre - c) (S c)) as Hnew.
      { split; [rewrite length_app; simpl; lia|].
        assert (∀ p, (length pre - c ≤ p < length pre - c + S c)%nat →
                     (pre ++ [prev]) !! p = Some prev) as Hall.
        { intros p Hp. destruct (decide (p = length pre)) as [->|]; [done|].
          rewrite lookup_app_l by lia. apply Htail. lia. }
        intros p Hp. rewrite (Hall p Hp). symmetry. apply Hall. lia. }
      split.
      * destruct (Nat.max_spec mx (S c)) as [[_ ->]|[_ ->]].
        -- by eexists.
        -- exists a0. by apply constant_run_app.
      * intros a n' Hrun. destruct (decide (a + n' ≤ length pre)%nat) as [Hin|Hout].
        { pose proof (Hbest a n' (constant_run_inside _ _ _ _ Hin Hrun)). lia. }
        destruct Hrun as [Hlen Hall]. rewrite length_app in Hlen. simpl in Hlen.
        destruct (decide (n' ≤ S c)%nat) as [|Hbig]; [lia|]. exfalso.
        assert ((pre ++ [prev]) !! a = Some prev) as Ha
          by (rewrite <- (Hall (length pre)) by lia; done).
        apply Hstop; [lia|].
        rewrite <- Ha, <- (Hall (length pre - c - 1)%nat) by lia.
        by rewrite lookup_app_l by lia.
  - split; rewrite ?length_app; cbn [length].
    + lia.
    + intros p Hp. by replace p with (length pre) by lia.
    + intros Hlt. rewrite lookup_app_l by lia.
      replace (length pre + 1 - 1 - 1)%nat with (length pre - 1)%nat by lia.
      rewrite Hlast. congruence.
    + rewrite Nat.max_l by lia. split.
      * exists a0. by apply constant_run_app.
      * intros a n' Hrun. destruct (decide (a + n' ≤ length pre)%nat) as [Hin|Hout].
        { exact (Hbest a n' (constant_run_inside _ _ _ _ Hin Hrun)). }
        destruct Hrun as [Hlen Hall]. rewrite length_app in Hlen. simpl in Hlen.
        destruct (decide (n' ≤ 1)%nat) as [|Hbig]; [lia|]. exfalso.
        pose proof (Hall (length pre) ltac:(lia)) as H1.
        pose proof (Hall (length pre - 1)%nat ltac:(lia)) as H2.
        rewrite <- H2, Hx in H1.
        rewrite (lookup_app_l pre [x] (length pre - 1)) in H1 by lia. congruence.
Qed.

Lemma run_loop_spec rest :
  ∀ pre prev mx c,
    run_inv pre prev mx c →
    ∃ n, run_loop prev rest (Z.of_nat mx) (Z.of_nat c) = Z.of_nat n ∧
         longest_run (pre ++ rest) n.
Proof.
  induction rest as [|x rest IH]; intros pre prev mx c Hinv.
  - exists mx. split; [done|]. rewrite app_nil_r. apply Hinv.
  - cbn [run_loop].
    destruct (IH _ _ _ _ (run_inv_step pre prev mx c x Hinv)) as (n & Hn & Hbest).
    exists n. rewrite <- app_assoc in Hbest. split; [|done].
    rewrite <- Hn. destruct (Ascii.eqb x prev).
    + by rewrite Nat2Z.inj_max, Nat2Z.inj_succ.
    + by rewrite Nat2Z.inj_max.
Qed.

Lemma run_loop_lower prev rest :
  ∀ mx c, mx ≤ run_loop prev rest mx c.
Proof.
  revert prev. induction rest as [|x rest IH]; intros prev mx c; cbn [run_loop]; [lia|].
  etrans; [|apply IH]. lia.
Qed.

(** X17.  Homopolymer length in [_metrics].  For a non-empty sequence the
    value appended to [hp] is the length of a longest stretch of one
    repeated character: some stretch has that length and none is longer.
    It is at least 1 and at most the length of the sequence. *)
Theorem max_run_is_longest_run (x : ascii) (rest : list ascii) :
  ∃ n, max_run (x :: rest) = Z.of_nat n ∧ longest_run (x :: rest) n ∧
       (1 ≤ n ≤ length (x :: rest))%nat.
Proof.
  destruct (run_loop_spec rest [x] x 1 1 (run_inv_start x)) as (n & Hn & Hbest).
  exists n. split; [exact Hn|]. split; [exact Hbest|].
  destruct Hbest as [(a & Hlen & _) Hmax]. split; [|simpl in Hlen |- *; lia].
  apply (Hmax 0%nat). split; [simpl; lia|].
  intros p Hp. by replace p with 0%nat by lia.
Qed.

Section MetricsFacts.
Variable log2 : Q → Q.

Lemma filter_snoc {A} (f : A → bool) l x :
  List.filter f (l ++ [x]) = List.filter f l ++ (if f x then [x] else []).
Proof. by rewrite List.filter_app. Qed.

Lemma gc_range (seq : list ascii) :
  seq ≠ [] →
  let gc_v := (inject_Z (SequenceParser.str_count (chr "G") seq
                         + SequenceParser.str_count (chr "C") seq)
               / inject_Z (Z.of_nat (length seq)) * 100)%Q in
  ((0 <= gc_v)%Q ∧ (gc_v <= 100)%Q) ∧
  ((43.5 <= 64 + 41 * (gc_v / 100 - 0.5))%Q ∧ (64 + 41 * (gc_v / 100 - 0.5) <= 84.5)%Q).
Proof.
  intros Hne. cbv zeta.
  pose proof (SequenceParserFacts.str_count_nonneg (chr "G") seq).
  pose proof (SequenceParserFacts.str_count_nonneg (chr "C") seq).
  pose proof (SequenceParserFacts.str_count_disjoint (chr "G") (chr "C") seq ltac:(done)).
  destruct (SequenceParserStats.share_range
              (SequenceParser.str_count (chr "G") seq + SequenceParser.str_count (chr "C") seq)
              (Z.of_nat (length seq))) as [Hlo Hhi]; [lia | done | |].
  { destruct seq; [done | cbn [length]; lia]. }
  set (share := (inject_Z _ / inject_Z _)%Q) in *.
  assert (share * 100 / 100 == share)%Q as Heq by (field).
  rewrite Heq. split; split; lra.
Qed.

Lemma metrics_step_inv kr m r :
  metrics_inv kr m → metrics_inv (kr ++ [r]) (metrics_step log2 m r).
Proof.
  intros [Hc Hgh Hg Ht He Hgr Htr Hhr]. unfold metrics_step. cbv zeta.
  destruct (default [] (mi_sequence r)) as [|x seq] eqn:Eseq;
    destruct (default [] (mi_structure r)) as [|y st] eqn:Est;
    split; cbn [m_gc m_tm m_hp m_ent m_cplx];
    rewrite ?filter_snoc, ?Eseq, ?Est, ?fmap_app, ?length_app; cbn [length Nat.eqb negb];
    try (rewrite ?app_nil_r; cbn [length]; (done || lia || by rewrite Hc)).
  all: try (change (14 <=? Z.of_nat 0) with false; cbn [length]; lia).
  all: try (match goal with |- context [14 <=? ?z] => destruct (14 <=? z) end;
            rewrite ?length_app; cbn [length]; lia).
  all: try match goal with |- context [14 <=? ?z] => destruct (14 <=? z); [|done] end.
  all: apply Forall_app; split; [done|]; constructor; [|done].
  all: try (unfold max_run; apply run_loop_lower).
  all: match goal with
       | |- context [SequenceParser.str_count _ (?x :: ?s)] =>
           apply (gc_range (x :: s)); done
       end.
Qed.

Lemma metrics_inv_all kr :
  ∀ done_ m, metrics_inv done_ m →
             metrics_inv (done_ ++ kr) (fold_left (metrics_step log2) kr m).
Proof.
  induction kr as [|r kr IH]; intros done_ m Hinv; cbn [fold_left].
  - by rewrite app_nil_r.
  - replace (done_ ++ r :: kr) with ((done_ ++ [r]) ++ kr) by by rewrite <- app_assoc.
    apply IH. by apply metrics_step_inv.
Qed.

Lemma metrics_spec kr : metrics_inv kr (metrics log2 kr).
Proof.
  apply (metrics_inv_all kr []). split; cbn [m_gc m_tm m_hp m_ent m_cplx]; done.
Qed.

End MetricsFacts.

(** X18.  The lists of [_metrics].  [cplx] has one entry per record, the
    record's ['complexity_score'] or 0; [gc] and [hp] have one entry per
    record with a non-empty sequence, [tm] one per record whose sequence has
    at least 14 characters, [ent] one per record with a non-empty structure.
    Every GC percentage lies between 0 and 100, every melting temperature
    between 43.5 and 84.5, and every homopolymer length is at least 1. *)
Theorem metrics_shapes_and_ranges (log2 : Q → Q) (kr : list metric_input) :
  let m := metrics log2 kr in
  m_cplx m = (λ r, default 0%Q (mi_complexity_score r)) <$> kr ∧
  length (m_hp m) = length (m_gc m) ∧
  length (m_gc m)
  = length (List.filter (λ r, negb (Nat.eqb (length (default [] (mi_sequence r))) 0)) kr) ∧
  length (m_tm m)
  = length (List.filter (λ r, 14 <=? Z.of_nat (length (default [] (mi_sequence r)))) kr) ∧
  length (m_ent m)
  = length (List.filter (λ r, negb (Nat.eqb (length (default [] (mi_structure r))) 0)) kr) ∧
  Forall (λ g, (0 <= g)%Q ∧ (g <= 100)%Q) (m_gc m) ∧
  Forall (λ t, (43.5 <= t)%Q ∧ (t <= 84.5)%Q) (m_tm m) ∧
  Forall (λ h, 1 ≤ h) (m_hp m).
Proof.
  cbv zeta. by destruct (metrics_spec log2 kr).
Qed.

Lemma filter_all {A} (f : A → bool) (l : list A) :
  Forall (λ x, f x = true) l → List.filter f l = l.
Proof. induction 1 as [|x l Hx _ IH]; [done|]. cbn [List.filter]. by rewrite Hx, IH. Qed.

Lemma filter_none {A} (f : A → bool) (l : list A) :
  Forall (λ x, f x = false) l → List.filter f l = [].
Proof. induction 1 as [|x l Hx _ IH]; [done|]. cbn [List.filter]. by rewrite Hx, IH. Qed.

(** X19.  [_metrics] on the windows of [sliding_window_prediction], which is
    what [main.py] hands to it.  For a positive window size and stride and
    more free frames than a window has bases, every complexity entry is 0
    (a window carries no ['complexity_score']); [gc], [hp] and [ent] have
    one entry per window; [tm] has one entry per window when the window size
    is at least 14 and is empty otherwise. *)
Theorem window_metrics_pipeline (frames : nat) (log2 : Q → Q)
    (sequence : list ascii) (window_size stride : Z) :
  0 < window_size → 0 < stride → window_size < Z.of_nat frames →
  ∃ windows,
    sliding_window_prediction frames window_size sequence stride = Ok windows ∧
    let m := metrics log2 (metric_input_of_window <$> windows) in
    m_cplx m = replicate (length windows) 0%Q ∧
    length (m_gc m) = length windows ∧
    length (m_hp m) = length windows ∧
    length (m_ent m) = length windows ∧
    length (m_tm m) = (if 14 <=? window_size then length windows else 0%nat).
Proof.
  intros Hsize Hstride Hframes.
  destruct (range_step_positive 0 (Z.of_nat (length sequence) - window_size) stride Hstride)
    as (k & Hrange & Hk).
  destruct (windows_loop frames window_size sequence Hsize Hframes
              ((λ k : nat, 0 + Z.of_nat k * stride) <$> seq 0 k) [])
    as (windows & Hrun & Hstarts & Hok).
  { intros i Hi. apply list_elem_of_fmap in Hi as (j & -> & Hj).
    apply elem_of_seq in Hj. pose proof (proj1 (Hk j) ltac:(lia)). nia. }
  exists windows. unfold sliding_window_prediction. rewrite Hrange, bind_Ok, Hrun.
  split; [done|]. cbv zeta.
  destruct (metrics_spec log2 (metric_input_of_window <$> windows))
    as [Hc Hgh Hg Ht He _ _ _].
  assert (Forall (λ w, Z.of_nat (length (pred_sequence (win_pred w))) = window_size ∧
                       length (pred_structure (win_pred w))
                       = length (pred_sequence (win_pred w))) windows) as Hwin.
  { eapply Forall_impl; [|exact Hok]. intros w (_ & Hp & Hseq & Hlen).
    split; [done|].
    destruct (predict_structure_spec frames
                (Py.slice sequence (window_start w) (window_end w)))
      as (p & Hp' & Hs' & _ & Hst' & _).
    { intros Hnil. rewrite Hseq, Hnil in Hlen. simpl in Hlen. lia. }
    { rewrite <- Hseq. lia. }
    rewrite Hp in Hp'. injection Hp' as <-. by rewrite Hst', Hs'. }
  split; [|split; [|split; [|split]]].
  - rewrite Hc. clear.
    induction windows as [|w windows IH]; [done|]. cbn [fmap list_fmap length replicate].
    f_equal. exact IH.
  - rewrite Hg, filter_all, length_fmap; [done|].
    apply Forall_fmap. eapply Forall_impl; [|exact Hwin].
    intros w [Hlen _]. simpl. destruct (length (pred_sequence (win_pred w))); [lia | done].
  - rewrite <- Hgh, Hg, filter_all, length_fmap; [done|].
    apply Forall_fmap. eapply Forall_impl; [|exact Hwin].
    intros w [Hlen _]. simpl. destruct (length (pred_sequence (win_pred w))); [lia | done].
  - rewrite He, filter_all, length_fmap; [done|].
    apply Forall_fmap. eapply Forall_impl; [|exact Hwin].
    intros w [Hlen Hst]. simpl. rewrite Hst.
    destruct (length (pred_sequence (win_pred w))); [lia | done].
  - rewrite Ht. destruct (Z.leb_spec 14 window_size) as [Hbig|Hsmall].
    + rewrite filter_all, length_fmap; [done|].
      apply Forall_fmap. eapply Forall_impl; [|exact Hwin].
      intros w [Hlen _]. simpl. rewrite Hlen. by apply Z.leb_le.
    + rewrite filter_none; [done|].
      apply Forall_fmap. eapply Forall_impl; [|exact Hwin].
      intros w [Hlen _]. simpl. rewrite Hlen. apply Z.leb_gt. lia.
Qed.

Lemma window_metrics_pipeline_witness :
  ∃ windows,
    sliding_window_prediction 4 3 (str "GCAGCATT") 2 = Ok windows ∧
    let m := metrics (λ q, q) (metric_input_of_window <$> windows) in
    m_cplx m = replicate (length windows) 0%Q ∧
    length (m_gc m) = length windows ∧
    length (m_hp m) = length windows ∧
    length (m_ent m) = length windows ∧
    length (m_tm m) = (if 14 <=? 3 then length windows else 0%nat).
Proof.
  apply (window_metrics_pipeline 4 (λ q, q) (str "GCAGCATT") 3 2); reflexivity.
Defined.

(** ** The pairs of a predicted structure are complementary *)

Lemma paired_dots sequence i m : paired sequence i (replicate m DOT).
Proof.
  induction m as [|m IH]; [constructor|].
  rewrite replicate_S_end. by constructor.
Qed.

Section PairedTraceback.
Variable sequence : list ascii.
Variable dp : Np.matrix.
Hypothesis Hsq : square (length sequence) dp.

Lemma scan_partner_paired frames
    (rec : Z → Z → list ascii → result (list ascii)) i j st :
  tb_pre sequence i j st → i ≤ j → (0 < frames)%nat →
  (∀ i' j' st', tb_pre sequence i' j' st' → Z.max 0 (j' - i' + 1) < j - i + 1 →
     ∃ st'' w, rec i' j' st' = Ok st'' ∧ written st' st'' (Z.to_nat i') w ∧
               length w = Z.to_nat (j' - i' + 1) ∧ paired sequence i' w) →
  ∀ ks, (∀ k, k ∈ ks → i ≤ k < j) →
  ∃ st' w, scan_partner sequence dp frames rec i j ks st = Ok st' ∧
           written st st' (Z.to_nat i) w ∧
           length w = Z.to_nat (j - i + 1) ∧ paired sequence i w.
Proof.
  intros (Hi & Hj & Hlen & Hdots) Hij Hframes Hrec ks.
  destruct frames as [|frames]; [lia|].
  induction ks as [|k ks IH]; intros Hks.
  - simpl. exists st, (replicate (Z.to_nat (j - i + 1)) DOT).
    split; [done|]. split; [|split].
    + split; [done|]. intros p. rewrite length_replicate.
      destruct (decide (Z.to_nat i ≤ p < Z.to_nat i + Z.to_nat (j - i + 1))%nat); [|done].
      rewrite lookup_replicate_2 by lia.
      rewrite <- (Hdots (Z.of_nat p)) by lia. f_equal. lia.
    + apply length_replicate.
    + apply paired_dots.
  - assert (i ≤ k < j) as Hk by (apply Hks; left).
    assert (∀ k', k' ∈ ks → i ≤ k' < j) as Hks' by (intros; apply Hks; by right).
    destruct (IH Hks') as (st0 & w0 & Hrun0 & Hw0 & Hl0 & Hn0).
    cbn [scan_partner call]. rewrite !(getitem_base sequence) by lia.
    rewrite !bind_Ok.
    fold (pairs_at sequence i k).
    destruct (pairs_at sequence i k) eqn:Hp; [|by exists st0, w0].
    rewrite (pair_score_cell sequence) by (done || lia). rewrite bind_Ok.
    rewrite (get_cell (length sequence) dp i j) by (done || lia). rewrite bind_Ok.
    destruct (Z.eqb_spec (cell dp i j) (score_of dp i j k)) as [Heq|Hne];
      [|by exists st0, w0].
    assert (i < k) as Hik.
    { destruct (decide (i = k)) as [->|]; [|lia].
      unfold pairs_at in Hp. by rewrite can_pair_irrefl in Hp. }
    rewrite setitem_nonneg by lia. rewrite bind_Ok.
    rewrite setitem_nonneg by (rewrite length_insert; lia). rewrite bind_Ok.
    set (s2 := <[Z.to_nat k:=RPAREN]> (<[Z.to_nat i:=LPAREN]> st)).
    assert (length s2 = length st) as Hl2 by (subst s2; by rewrite !length_insert).
    assert (∀ p : nat, p ≠ Z.to_nat i → p ≠ Z.to_nat k → s2 !! p = st !! p) as Hs2.
    { intros p H1 H2. subst s2. by rewrite !list_lookup_insert_ne by done. }
    destruct (Hrec (i + 1) (k - 1) s2) as (s3 & w1 & -> & [Hl3 Hw1] & Hlw1 & Hn1).
    { split; [lia|]. split; [lia|]. split; [lia|].
      intros p Hp'. rewrite Hs2 by lia. apply Hdots. lia. }
    { lia. }
    rewrite bind_Ok.
    destruct (Hrec (k + 1) j s3) as (s4 & w2 & -> & [Hl4 Hw2] & Hlw2 & Hn2).
    { split; [lia|]. split; [lia|]. split; [lia|].
      intros p Hp'. rewrite Hw1. rewrite decide_False by lia.
      rewrite Hs2 by lia. apply Hdots. lia. }
    { lia. }
    exists s4, (LPAREN :: w1 ++ RPAREN :: w2).
    split; [done|]. split; [|split].
    + split; [lia|]. intros p. rewrite Hw2, Hw1, lookup_bracket.
      simpl length. rewrite length_app. simpl length.
      repeat case_decide; try lia; try (f_equal; lia).
      * subst s2. replace p with (Z.to_nat i) by lia.
        rewrite list_lookup_insert_ne by lia.
        rewrite list_lookup_insert_eq by lia. done.
      * subst s2. replace p with (Z.to_nat k) by lia.
        rewrite list_lookup_insert_eq by (rewrite length_insert; lia). done.
      * apply Hs2; lia.
    + simpl. rewrite length_app. simpl. lia.
    + constructor.
      * by replace (i + 1 + Z.of_nat (length w1)) with k by lia.
      * done.
      * by replace (i + 2 + Z.of_nat (length w1)) with (k + 1) by lia.
Qed.

Lemma traceback_recursive_paired frames :
  ∀ i j st, tb_pre sequence i j st → Z.max 0 (j - i + 1) < Z.of_nat frames →
    ∃ st' w, traceback_recursive sequence dp frames i j st = Ok st' ∧
             written st st' (Z.to_nat i) w ∧
             length w = Z.to_nat (j - i + 1) ∧ paired sequence i w.
Proof.
  induction frames as [|frames IH]; intros i j st Hpre Hdepth; [lia|].
  simpl. destruct (Z.gtb_spec i j) as [Hgt|Hle].
  { exists st, []. split; [done|]. split; [|split].
    - split; [done|]. intros p. simpl. rewrite decide_False by lia. done.
    - simpl. lia.
    - constructor. }
  pose proof Hpre as (Hi & Hj & Hlen & Hdots).
  rewrite (get_cell (length sequence) dp i j) by (done || lia). rewrite bind_Ok.
  destruct (get_total (length sequence) dp i (j - 1)) as (left & Hleft);
    [done | lia | lia |].
  rewrite Hleft, bind_Ok.
  destruct (Z.eqb_spec (cell dp i j) left) as [Heq|Hne].
  - destruct (IH i (j - 1) st) as (st' & w & -> & [Hl Hw] & Hlw & Hn).
    { split; [lia|]. split; [lia|]. split; [lia|]. intros p Hp. apply Hdots. lia. }
    { lia. }
    exists st', (w ++ [DOT]). split; [done|]. split; [|split].
    + split; [done|]. intros p. rewrite Hw. rewrite length_app. simpl length.
      repeat case_decide; try lia.
      * rewrite lookup_app_l by lia. done.
      * rewrite lookup_app_r by lia.
        replace (p - Z.to_nat i - length w)%nat with 0%nat by lia. simpl.
        rewrite <- (Hdots j) by lia. f_equal. lia.
      * done.
    + rewrite length_app. simpl. lia.
    + by constructor.
  - apply (scan_partner_paired frames (traceback_recursive sequence dp frames) i j st Hpre Hle).
    + lia.
    + intros i' j' st0 Hpre' Hm. apply IH; [done | lia].
    + intros k Hk. by apply elem_of_range in Hk.
Qed.

End PairedTraceback.

(** Scanning a word of the traceback adds only pairs that [can_pair]
    accepts. *)
Lemma scan_pairs_paired sequence pos w :
  paired sequence pos w →
  ∀ rest stack pairs, 0 ≤ pos →
  ∃ new,
    scan_pairs pos (w ++ rest) stack pairs
      = scan_pairs (pos + Z.of_nat (length w)) rest stack (pairs ++ new) ∧
    ∀ a b, (a, b) ∈ new →
      pos ≤ a < b ∧ b < pos + Z.of_nat (length w) ∧ pairs_at sequence a b = true.
Proof.
  induction 1 as [i|i w Hw IH|i w1 w2 Hp H1 IH1 H2 IH2]; intros rest stack pairs Hpos.
  - exists []. simpl. rewrite app_nil_r, Z.add_0_r. split; [done|].
    intros a b Hab. by apply elem_of_nil in Hab.
  - destruct (IH (DOT :: rest) stack pairs Hpos) as (new & Hrun & Hin).
    exists new. rewrite <- app_assoc. simpl app. rewrite Hrun, scan_pairs_dot.
    rewrite length_app. simpl length. split; [f_equal; lia|].
    intros a b Hab. destruct (Hin a b Hab) as (? & ? & ?). split; [lia|]. split; [lia | done].
  - change ((LPAREN :: w1 ++ RPAREN :: w2) ++ rest)
      with (LPAREN :: (w1 ++ RPAREN :: w2) ++ rest).
    rewrite <- app_assoc, scan_pairs_open.
    destruct (IH1 ((RPAREN :: w2) ++ rest) (i :: stack) pairs ltac:(lia))
      as (new1 & Hrun1 & Hin1).
    rewrite Hrun1. change ((RPAREN :: w2) ++ rest) with (RPAREN :: w2 ++ rest).
    rewrite scan_pairs_close.
    replace (i + 1 + Z.of_nat (length w1) + 1) with (i + 2 + Z.of_nat (length w1)) by lia.
    destruct (IH2 rest stack ((pairs ++ new1) ++ [(i, i + 1 + Z.of_nat (length w1))])
                ltac:(lia)) as (new2 & Hrun2 & Hin2).
    rewrite Hrun2.
    exists (new1 ++ (i, i + 1 + Z.of_nat (length w1)) :: new2).
    simpl length. rewrite length_app. simpl length. split.
    + f_equal; [lia|]. rewrite <- !app_assoc. done.
    + intros a b Hab. apply elem_of_app in Hab as [Hab|Hab].
      * destruct (Hin1 a b Hab) as (? & ? & ?). split; [lia|]. split; [lia | done].
      * apply elem_of_cons in Hab as [[= -> ->]|Hab].
        -- split; [lia|]. split; [lia | done].
        -- destruct (Hin2 a b Hab) as (? & ? & ?). split; [lia|]. split; [lia | done].
Qed.

(** X20.  Predicted pairs are complementary.  For every non-empty sequence
    and more free frames than the sequence has bases, [predict_structure]
    returns, and the pairs that [_get_base_pairs] reads from the returned
    structure are as many as the reported [base_pairs]; each pair [(a, b)]
    has [a < b], does not involve the last position, and joins two bases
    that [can_pair] accepts, the opening one as its first argument. *)
Theorem predicted_pairs_are_complementary (frames : nat) (base : ascii)
    (rest : list ascii) :
  (length (base :: rest) < frames)%nat →
  ∃ p, predict_structure frames (base :: rest) = Ok p ∧
       Z.of_nat (length (get_base_pairs (pred_structure p))) = pred_base_pairs p ∧
       ∀ a b, (a, b) ∈ get_base_pairs (pred_structure p) →
         0 ≤ a < b ∧ b < Z.of_nat (length rest) ∧
         ∃ x y, (base :: rest) !! Z.to_nat a = Some x ∧
                (base :: rest) !! Z.to_nat b = Some y ∧
                can_pair x y = true.
Proof.
  set (sequence := base :: rest). intros Hframes.
  assert (sequence ≠ []) as Hne by done.
  destruct (predict_structure_spec frames sequence Hne Hframes)
    as (p & Hp & _ & _ & Hlen & Hnested & Hopen & Hclose).
  exists p. split; [done|].
  destruct (get_base_pairs_nested _ Hnested) as (Hcount & Hends & _).
  split; [by rewrite Hcount|].
  pose proof Hp as Hrun. unfold predict_structure in Hrun. cbv zeta in Hrun.
  destruct (nussinov_filled sequence) as (dp & Hdp & Hsq & Hrec & Hzero).
  rewrite Hdp, bind_Ok in Hrun.
  apply bind_inv_Ok in Hrun as (w & Hw & Hrun).
  apply bind_inv_Ok in Hrun as (bp & Hbp & Hrun). injection Hrun as <-.
  cbn [pred_structure pred_base_pairs] in *.
  assert (0 < Z.of_nat (length sequence)) as Hn by (subst sequence; simpl; lia).
  unfold traceback in Hw.
  destruct (Z.gtb_spec 0 (Z.of_nat (length sequence) - 1)); [lia|].
  assert (tb_pre sequence 0 (Z.of_nat (length sequence) - 1)
            (replicate (length sequence) DOT)) as Hpre.
  { split; [lia|]. split; [lia|]. split; [apply length_replicate|].
    intros q Hq. apply lookup_replicate_2. lia. }
  pose proof (traceback_recursive_last sequence dp Hsq frames
                0 (Z.of_nat (length sequence) - 1) _ w Hpre
                ltac:(lia) ltac:(lia) Hw) as Hlast.
  destruct (traceback_recursive_paired sequence dp Hsq frames
              0 (Z.of_nat (length sequence) - 1) _ Hpre ltac:(lia))
    as (w' & word & Hw' & [Hlw Hword] & Hlword & Hpaired).
  rewrite Hw in Hw'. injection Hw' as <-.
  assert (word = w) as ->.
  { apply list_eq. intros q. rewrite Hword. change (Z.to_nat 0) with 0%nat.
    rewrite Nat.sub_0_r. case_decide as Hq; [done|].
    rewrite !lookup_ge_None_2; [done | rewrite length_replicate; lia | lia]. }
  destruct (scan_pairs_paired sequence 0 w Hpaired [] [] [] ltac:(lia))
    as (new & Hscan & Hnew).
  rewrite app_nil_r in Hscan.
  intros a b Hab. pose proof (Hends a b Hab) as (Hab' & Ha & Hb).
  unfold get_base_pairs in Hab. rewrite Hscan in Hab. cbn [scan_pairs app] in Hab.
  apply (proj1 (elem_of_sorted _ _)) in Hab.
  destruct (Hnew a b Hab) as (Hrange & Hb' & Hcan).
  assert (b ≠ Z.of_nat (length sequence) - 1) as Hnl.
  { intros ->. rewrite Hlast in Hb. discriminate. }
  assert (Z.of_nat (length sequence) = Z.of_nat (length rest) + 1) as Hlr
    by (subst sequence; simpl length; lia).
  split; [lia|]. split; [lia|].
  unfold pairs_at, base_at in Hcan.
  destruct (lookup_lt_is_Some_2 sequence (Z.to_nat a) ltac:(lia)) as [x Hx].
  destruct (lookup_lt_is_Some_2 sequence (Z.to_nat b) ltac:(lia)) as [y Hy].
  rewrite Hx, Hy in Hcan. by exists x, y.
Qed.

Lemma predicted_pairs_are_complementary_witness :
  ∃ p, predict_structure 9 (chr "G" :: str "GGGCCCC") = Ok p ∧
       Z.of_nat (length (get_base_pairs (pred_structure p))) = pred_base_pairs p ∧
       ∀ a b, (a, b) ∈ get_base_pairs (pred_structure p) →
         0 ≤ a < b ∧ b < Z.of_nat (length (str "GGGCCCC")) ∧
         ∃ x y, (chr "G" :: str "GGGCCCC") !! Z.to_nat a = Some x ∧
                (chr "G" :: str "GGGCCCC") !! Z.to_nat b = Some y ∧
                can_pair x y = true.
Proof.
  apply (predicted_pairs_are_complementary 9 (chr "G") (str "GGGCCCC")). simpl. lia.
Defined.

(** ** Motifs of a predicted structure *)

Lemma nested_count_total w :
  nested w →
  count LPAREN w + count RPAREN w + count DOT w = Z.of_nat (length w).
Proof.
  induction 1 as [|w Hw IH|w1 w2 H1 IH1 H2 IH2].
  - done.
  - rewrite !count_app, length_app. simpl.
    change (Ascii.eqb DOT LPAREN) with false.
    change (Ascii.eqb DOT RPAREN) with false.
    change (Ascii.eqb DOT DOT) with true. lia.
  - cbn [count length]. rewrite !count_app, length_app. cbn [count length].
    change (Ascii.eqb LPAREN LPAREN) with true.
    change (Ascii.eqb LPAREN RPAREN) with false.
    change (Ascii.eqb LPAREN DOT) with false.
    change (Ascii.eqb RPAREN LPAREN) with false.
    change (Ascii.eqb RPAREN RPAREN) with true.
    change (Ascii.eqb RPAREN DOT) with false. lia.
Qed.

Lemma predict_structure_last_dot frames (base : ascii) (rest : list ascii) :
  (length (base :: rest) < frames)%nat →
  ∃ p, predict_structure frames (base :: rest) = Ok p ∧
       pred_structure p !! length rest = Some DOT.
Proof.
  set (sequence := base :: rest). intros Hframes.
  assert (sequence ≠ []) as Hne by done.
  destruct (predict_structure_spec frames sequence Hne Hframes) as (p & Hp & _).
  exists p. split; [done|].
  pose proof Hp as Hrun. unfold predict_structure in Hrun. cbv zeta in Hrun.
  destruct (nussinov_filled sequence) as (dp & Hdp & Hsq & _).
  rewrite Hdp, bind_Ok in Hrun.
  apply bind_inv_Ok in Hrun as (w & Hw & Hrun).
  apply bind_inv_Ok in Hrun as (bp & Hbp & Hrun). injection Hrun as <-.
  cbn [pred_structure].
  assert (0 < Z.of_nat (length sequence)) as Hn by (subst sequence; simpl; lia).
  unfold traceback in Hw.
  destruct (Z.gtb_spec 0 (Z.of_nat (length sequence) - 1)); [lia|].
  assert (tb_pre sequence 0 (Z.of_nat (length sequence) - 1)
            (replicate (length sequence) DOT)) as Hpre.
  { split; [lia|]. split; [lia|]. split; [apply length_replicate|].
    intros q Hq. apply lookup_replicate_2. lia. }
  pose proof (traceback_recursive_last sequence dp Hsq frames
                0 (Z.of_nat (length sequence) - 1) _ w Hpre
                ltac:(lia) ltac:(lia) Hw) as Hlast.
  rewrite <- Hlast. f_equal. subst sequence. simpl length. lia.
Qed.

(** X21.  Motifs of a predicted structure.  For every non-empty sequence
    and more free frames than the sequence has bases, [predict_structure]
    returns and [extract_motifs] returns on its structure; the stems cover
    [base_pairs] positions, the loops the [len - 2 * base_pairs] unpaired
    ones, and one of the loops ends at the last position of the sequence. *)
Theorem predicted_structure_motifs (frames : nat) (base : ascii)
    (rest : list ascii) :
  (length (base :: rest) < frames)%nat →
  ∃ p m, predict_structure frames (base :: rest) = Ok p ∧
         extract_motifs (pred_structure p) = Ok m ∧
         span_total (stems m) = pred_base_pairs p ∧
         span_total (loops m) = Z.of_nat (length (base :: rest)) - 2 * pred_base_pairs p ∧
         (∃ a, (a, Z.of_nat (length rest)) ∈ loops m).
Proof.
  intros Hframes.
  destruct (predict_structure_last_dot frames base rest Hframes) as (p & Hp & Hlast).
  destruct (predict_structure_spec frames (base :: rest) ltac:(done) Hframes)
    as (p' & Hp' & _ & _ & Hlen & Hnested & Hopen & Hclose).
  rewrite Hp in Hp'. injection Hp' as <-.
  destruct (motif_loop_spec (pred_structure p) (S (length (pred_structure p))) 0
              {| stems := []; loops := []; bulges := []; hairpins := [] |})
    as (m & Hm & Hinv); [lia | lia | lia | |].
  { split; simpl; try done; try lia; intros a b H; by apply elem_of_nil in H. }
  exists p, m. split; [done|]. split; [exact Hm|].
  pose proof (nested_count_total _ Hnested) as Htotal.
  pose proof (mo_stem_total _ _ _ Hinv) as Hst.
  pose proof (mo_loop_total _ _ _ Hinv) as Hlt.
  rewrite Nat2Z.id, firstn_all in Hst, Hlt.
  split; [lia|]. split; [rewrite Hlt, <- Hlen; lia|].
  destruct (mo_loop_cover _ _ _ Hinv (Z.of_nat (length rest))) as (a & b & Hab & Hr).
  { simpl length in Hlen. lia. }
  { by rewrite Nat2Z.id. }
  destruct (mo_loops _ _ _ Hinv a b Hab) as (_ & _ & Hb & _).
  exists a. replace (Z.of_nat (length rest)) with b; [done|].
  simpl length in Hlen. lia.
Qed.

Lemma predicted_structure_motifs_witness :
  ∃ p m, predict_structure 9 (chr "G" :: str "GGGCCCC") = Ok p ∧
         extract_motifs (pred_structure p) = Ok m ∧
         span_total (stems m) = pred_base_pairs p ∧
         span_total (loops m)
         = Z.of_nat (length (chr "G" :: str "GGGCCCC")) - 2 * pred_base_pairs p ∧
         (∃ a, (a, Z.of_nat (length (str "GGGCCCC"))) ∈ loops m).
Proof.
  apply (predicted_structure_motifs 9 (chr "G") (str "GGGCCCC")). simpl. lia.
Defined.

(** ** Sequences that pass the filter *)

Import SequenceParser SequenceParserFacts.

(** X22.  After the filter.  Every sequence that [filter_sequences] lets
    through is non-empty and is left unchanged by [preprocess_sequence].
    With more free frames than the sequence has bases [predict_structure]
    returns on it, with a structure of the same length; with any number of
    frames it returns or raises [RecursionError], so the [IndexError] of the
    empty sequence cannot occur on a filtered sequence.  With more free
    frames than the configured window has bases, and any positive stride,
    [sliding_window_prediction] returns on it. *)
Theorem filtered_sequences_are_predictable (min_length stride : Z)
    (sequences filtered : list (string * list ascii))
    (seq_id : string) (sequence : list ascii) :
  NoDup sequences.*1 → 0 < stride →
  filter_sequences min_length sequences = Returned filtered →
  (seq_id, sequence) ∈ filtered →
  sequence ≠ [] ∧
  preprocess_sequence sequence = sequence ∧
  (∀ frames, (length sequence < frames)%nat →
     ∃ p, predict_structure frames sequence = Ok p ∧
          length (pred_structure p) = length sequence) ∧
  (∀ frames, (∃ p, predict_structure frames sequence = Ok p) ∨
             predict_structure frames sequence = Raise RecursionError) ∧
  (∀ frames, Config.WINDOW_SIZE < Z.of_nat frames →
     ∃ windows,
       sliding_window_prediction frames Config.WINDOW_SIZE sequence stride
       = Ok windows ∧
       Forall (window_ok frames Config.WINDOW_SIZE sequence) windows).
Proof.
  intros Hnd Hstride Hrun Hin.
  destruct (filter_loop_spec min_length sequences [] Hnd) as [_ Hret].
  destruct (Hret filtered Hrun) as (kept & -> & _ & Hmem).
  apply Hmem in Hin as [_ Hvalid].
  apply validate_sequence_accepts in Hvalid as (_ & _ & Hne & Hall & _).
  split; [done|]. split; [by apply preprocess_valid|].
  split; [|split].
  - intros frames Hframes.
    destruct (predict_structure_spec frames sequence Hne Hframes)
      as (p & Hp & _ & _ & Hlen & _).
    by exists p.
  - intros frames.
    destruct (predict_structure_spec (S (length sequence) + frames) sequence Hne
                ltac:(lia)) as (p & Hp & _).
    destruct (predict_structure_below frames (S (length sequence) + frames) sequence
                ltac:(lia)) as [H|H]; [|by right].
    left. exists p. by rewrite H.
  - intros frames Hframes.
    destruct (range_step_positive 0 (Z.of_nat (length sequence) - Config.WINDOW_SIZE)
                stride Hstride) as (k & Hrange & Hk).
    destruct (windows_loop frames Config.WINDOW_SIZE sequence ltac:(done) Hframes
                ((λ k : nat, 0 + Z.of_nat k * stride) <$> seq 0 k) [])
      as (windows & Hwin & _ & Hok).
    { intros i Hi. apply list_elem_of_fmap in Hi as (j & -> & Hj).
      apply elem_of_seq in Hj. pose proof (proj1 (Hk j) ltac:(lia)). nia. }
    exists windows. split; [|done].
    unfold sliding_window_prediction. rewrite Hrange, bind_Ok, Hwin. done.
Qed.

Lemma filtered_sequences_are_predictable_witness :
  str "ACGTACGTACGTACGTACGT" ≠ [] ∧
  preprocess_sequence (str "ACGTACGTACGTACGTACGT") = str "ACGTACGTACGTACGTACGT" ∧
  (∀ frames, (length (str "ACGTACGTACGTACGTACGT") < frames)%nat →
     ∃ p, predict_structure frames (str "ACGTACGTACGTACGTACGT") = Ok p ∧
          length (pred_structure p) = length (str "ACGTACGTACGTACGTACGT")) ∧
  (∀ frames, (∃ p, predict_structure frames (str "ACGTACGTACGTACGTACGT") = Ok p) ∨
             predict_structure frames (str "ACGTACGTACGTACGTACGT")
             = Raise RecursionError) ∧
  (∀ frames, Config.WINDOW_SIZE < Z.of_nat frames →
     ∃ windows,
       sliding_window_prediction frames Config.WINDOW_SIZE
         (str "ACGTACGTACGTACGTACGT") 15 = Ok windows ∧
       Forall (window_ok frames Config.WINDOW_SIZE (str "ACGTACGTACGTACGTACGT"))
         windows).
Proof.
  apply (filtered_sequences_are_predictable MIN_SEQUENCE_LENGTH 15
           [("s1"%string, str "ACGTACGTACGTACGTACGT"); ("s2"%string, str "ACGT")]
           [("s1"%string, str "ACGTACGTACGTACGTACGT")] "s1"%string).
  - apply NoDup_cons_2.
    + intros H. apply elem_of_cons in H as [H|H]; [discriminate|].
      by apply elem_of_nil in H.
    + apply NoDup_cons_2; [apply not_elem_of_nil | apply NoDup_nil_2].
  - reflexivity.
  - reflexivity.
  - left.
Defined.

(** ** Degenerate windows *)

Lemma slice_empty {A} (l : list A) lo : Py.slice l lo lo = [].
Proof. unfold Py.slice. by rewrite Nat.sub_diag. Qed.

(** X23.  Degenerate windows.  [sliding_window_prediction] with stride 0
    raises [ValueError] (the [range] of a zero step); with a negative stride
    and a window no longer than the sequence it returns no window; with
    window size 0 and a positive stride it raises [IndexError] on every
    non-empty sequence, each window being the empty string, and returns no
    window on the empty sequence.  None of this depends on the number of
    free frames. *)
Theorem sliding_window_degenerate :
  (∀ frames window_size sequence,
     sliding_window_prediction frames window_size sequence 0 = Raise ValueError) ∧
  (∀ frames window_size sequence stride,
     stride < 0 → window_size ≤ Z.of_nat (length sequence) →
     sliding_window_prediction frames window_size sequence stride = Ok []) ∧
  (∀ frames sequence stride,
     0 < stride → sequence ≠ [] →
     sliding_window_prediction frames 0 sequence stride = Raise IndexError) ∧
  (∀ frames stride,
     0 < stride → sliding_window_prediction frames 0 [] stride = Ok []).
Proof.
  split; [done|]. split; [|split].
  - intros frames window_size sequence stride Hs Hw.
    unfold sliding_window_prediction, Py.range_step.
    destruct (Z.eqb_spec stride 0); [lia|]. destruct (Z.ltb_spec 0 stride); [lia|].
    assert ((0 - (Z.of_nat (length sequence) - window_size) - stride - 1) / - stride < 1)
      as Hcount by (apply Z.div_lt_upper_bound; lia).
    replace (Z.to_nat _) with 0%nat by lia. done.
  - intros frames sequence stride Hs Hne.
    destruct (range_step_positive 0 (Z.of_nat (length sequence) - 0) stride Hs)
      as (m & Hrange & Hm).
    unfold sliding_window_prediction. rewrite Hrange, bind_Ok.
    destruct m as [|m].
    { destruct sequence; [done|]. pose proof (proj2 (Hm 0%nat)) as H.
      simpl in H. lia. }
    cbn [seq fmap list_fmap for_each]. change (0 + Z.of_nat 0 * stride) with 0.
    assert (predict_window frames 0 sequence 0 [] = Raise IndexError) as ->; [|done].
    unfold predict_window. cbv zeta. change (0 + 0) with 0.
    by rewrite slice_empty.
  - intros frames stride Hs.
    destruct (range_step_positive 0 (Z.of_nat (length (@nil ascii)) - 0) stride Hs)
      as (m & Hrange & Hm).
    unfold sliding_window_prediction. rewrite Hrange, bind_Ok.
    destruct m as [|m]; [done|]. pose proof (proj1 (Hm 0%nat) ltac:(lia)) as H.
    simpl in H. lia.
Qed.

(** ** The depth of the traceback *)

Lemma best_unpaired sequence dp i j ks init :
  (∀ k, k ∈ ks → pairs_at sequence i k = false) →
  best sequence dp i j ks init = init.
Proof.
  revert init. induction ks as [|k ks IH]; intros init Hks; [done|].
  cbn [best fold_left]. rewrite (Hks k) by left.
  apply IH. intros k' Hk'. apply Hks. by right.
Qed.

Section Unpaired.
Variable sequence : list ascii.
Variable dp : Np.matrix.
Hypothesis Hsq : square (length sequence) dp.
Hypothesis Hcons : consistent sequence dp.
Hypothesis Hnone :
  ∀ a b, a ∈ sequence → b ∈ sequence → can_pair a b = false.

Lemma pairs_at_unpaired i k :
  0 ≤ i < Z.of_nat (length sequence) → 0 ≤ k < Z.of_nat (length sequence) →
  pairs_at sequence i k = false.
Proof.
  intros Hi Hk. unfold pairs_at, base_at.
  destruct (lookup_lt_is_Some_2 sequence (Z.to_nat i) ltac:(lia)) as [a Ha].
  destruct (lookup_lt_is_Some_2 sequence (Z.to_nat k) ltac:(lia)) as [b Hb].
  rewrite Ha, Hb. simpl.
  apply Hnone; by eapply list_elem_of_lookup_2.
Qed.

(** No pair, no score: the table of such a sequence is zero everywhere. *)
Lemma table_unpaired (m : nat) :
  ∀ a b, 0 ≤ a < Z.of_nat (length sequence) → 0 ≤ b < Z.of_nat (length sequence) →
         b - a < Z.of_nat m → cell dp a b = 0.
Proof.
  destruct Hcons as [Hrec Hzero].
  induction m as [|m IH]; intros a b Ha Hb Hm.
  - apply Hzero; lia.
  - destruct (Z.le_gt_cases b a) as [Hle|Hgt]; [apply Hzero; lia|].
    rewrite (Hrec a b) by lia. unfold recurrence.
    rewrite best_unpaired.
    + apply IH; lia.
    + intros k Hk. apply elem_of_range in Hk. apply pairs_at_unpaired; lia.
Qed.

Lemma get_unpaired i j :
  0 ≤ i < Z.of_nat (length sequence) → -1 ≤ j < Z.of_nat (length sequence) →
  Np.get dp i j = Ok 0.
Proof.
  intros Hi Hj. destruct (Z.le_gt_cases 0 j) as [Hpos|Hneg].
  - rewrite (get_cell (length sequence) dp i j) by (done || lia).
    f_equal. apply (table_unpaired (S (Z.to_nat (j - i)))); lia.
  - assert (j = -1) as -> by lia.
    destruct Hsq as [Hlen Hrows]. unfold Np.get.
    destruct (lookup_lt_is_Some_2 dp (Z.to_nat i) ltac:(lia)) as [row Hrow].
    rewrite (getitem_nonneg _ _ _ (proj1 Hi) Hrow), bind_Ok.
    pose proof (Hrows _ _ Hrow) as Hr.
    destruct (lookup_lt_is_Some_2 row (length sequence - 1)%nat ltac:(lia)) as [x Hx].
    assert (x = 0) as ->.
    { pose proof (table_unpaired (S (length sequence)) i
                    (Z.of_nat (length sequence) - 1) ltac:(lia) ltac:(lia) ltac:(lia)) as Hc.
      unfold cell in Hc. rewrite Hrow in Hc.
      replace (Z.to_nat (Z.of_nat (length sequence) - 1))
        with (length sequence - 1)%nat in Hc by lia.
      by rewrite Hx in Hc. }
    unfold Py.getitem, Py.index. rewrite Hr.
    destruct (Z.leb_spec 0 (-1)); [lia|]. cbn [andb].
    destruct (Z.leb_spec (- Z.of_nat (length sequence)) (-1)); [|lia].
    destruct (Z.ltb_spec (-1) 0); [|lia]. cbn [andb]. rewrite bind_Ok.
    replace (Z.to_nat (-1 + Z.of_nat (length sequence)))
      with (length sequence - 1)%nat by lia.
    by rewrite Hx.
Qed.

(** Every position is skipped, one frame each, and a last call sees the
    empty span. *)
Lemma traceback_recursive_unpaired frames :
  ∀ i j st, 0 ≤ i → i ≤ j + 1 → j < Z.of_nat (length sequence) →
    traceback_recursive sequence dp frames i j st
    = if j - i + 1 <? Z.of_nat frames then Ok st else Raise RecursionError.
Proof.
  induction frames as [|f IH]; intros i j st Hi Hij Hj.
  - cbn [traceback_recursive]. destruct (Z.ltb_spec (j - i + 1) (Z.of_nat 0)); [lia | done].
  - cbn [traceback_recursive]. destruct (Z.gtb_spec i j) as [Hgt|Hle].
    + destruct (Z.ltb_spec (j - i + 1) (Z.of_nat (S f))); [done | lia].
    + rewrite !get_unpaired by lia. rewrite !bind_Ok. cbn [Z.eqb].
      rewrite IH by lia.
      destruct (Z.ltb_spec (j - 1 - i + 1) (Z.of_nat f));
        destruct (Z.ltb_spec (j - i + 1) (Z.of_nat (S f))); (done || lia).
Qed.

End Unpaired.

(** X24.  Depth of the traceback.  On a non-empty sequence in which no two
    bases are complementary, [predict_structure] needs one free frame more
    than the sequence has bases: with fewer it raises [RecursionError], and
    otherwise it returns the all-dot structure with no base pair. *)
Theorem unpaired_sequence_recursion_depth (frames : nat) (sequence : list ascii) :
  sequence ≠ [] →
  (∀ a b, a ∈ sequence → b ∈ sequence → can_pair a b = false) →
  (predict_structure frames sequence = Raise RecursionError
   ↔ (frames ≤ length sequence)%nat) ∧
  ((length sequence < frames)%nat →
   ∃ p, predict_structure frames sequence = Ok p ∧
        pred_structure p = replicate (length sequence) DOT ∧
        pred_base_pairs p = 0).
Proof.
  intros Hne Hnone.
  assert (0 < Z.of_nat (length sequence)) as Hn by (destruct sequence; simpl; [done | lia]).
  destruct (nussinov_filled sequence) as (dp & Hdp & Hsq & Hrec & Hzero).
  assert (predict_structure frames sequence
          = if (length sequence <? frames)%nat
            then Ok {| pred_sequence := sequence;
                       pred_structure := replicate (length sequence) DOT;
                       pred_base_pairs := 0;
                       pred_score_matrix := dp;
                       pred_length := Z.of_nat (length sequence) |}
            else Raise RecursionError) as Hrun.
  { unfold predict_structure. cbv zeta. rewrite Hdp, bind_Ok. unfold traceback.
    destruct (Z.gtb_spec 0 (Z.of_nat (length sequence) - 1)); [lia|].
    rewrite (traceback_recursive_unpaired sequence dp Hsq (conj Hrec Hzero) Hnone)
      by lia.
    destruct (Nat.ltb_spec (length sequence) frames);
      destruct (Z.ltb_spec (Z.of_nat (length sequence) - 1 - 0 + 1) (Z.of_nat frames));
      try lia; [|done].
    rewrite bind_Ok.
    rewrite (get_unpaired sequence dp Hsq (conj Hrec Hzero) Hnone) by lia.
    by rewrite bind_Ok. }
  rewrite Hrun. destruct (Nat.ltb_spec (length sequence) frames) as [Hlt|Hge].
  - split; [split; [discriminate | lia]|]. intros _. eexists. split; [reflexivity|]. done.
  - split; [split; [lia | done]|]. lia.
Qed.

Lemma unpaired_sequence_recursion_depth_witness :
  (predict_structure 4 (str "AAAA") = Raise RecursionError
   ↔ (4 ≤ length (str "AAAA"))%nat) ∧
  ((length (str "AAAA") < 4)%nat →
   ∃ p, predict_structure 4 (str "AAAA") = Ok p ∧
        pred_structure p = replicate (length (str "AAAA")) DOT ∧
        pred_base_pairs p = 0).
Proof.
  apply (unpaired_sequence_recursion_depth 4 (str "AAAA")); [done|].
  intros a b Ha Hb.
  repeat (apply elem_of_cons in Ha as [->|Ha]); [..|by apply elem_of_nil in Ha];
    repeat (apply elem_of_cons in Hb as [->|Hb]); (done || by apply elem_of_nil in Hb).
Defined.

(** X25.  The filter does not bound the depth.  A run of [n] times the base A
    passes [validate_sequence] whenever [n] is positive and at least
    [min_length], so [filter_sequences] keeps it, whatever its length; and
    [predict_structure] raises [RecursionError] on it as soon as no more than
    [n] frames are free. *)
Theorem filter_keeps_sequences_too_deep (frames n : nat) (min_length : Z)
    (seq_id : string) :
  (0 < n)%nat → min_length ≤ Z.of_nat n → (frames ≤ n)%nat →
  validate_sequence min_length seq_id (replicate n (chr "A")) = Returned (true, Valid) ∧
  filter_sequences min_length [(seq_id, replicate n (chr "A"))]
  = Returned [(seq_id, replicate n (chr "A"))] ∧
  predict_structure frames (replicate n (chr "A")) = Raise RecursionError.
Proof.
  intros Hn Hmin Hframes.
  assert (Forall (λ c, is_valid_nucleotide c = true) (replicate n (chr "A"))) as Hall.
  { apply Forall_replicate. reflexivity. }
  assert (str_count (chr "N") (replicate n (chr "A")) = 0) as Hcount.
  { clear. induction n as [|n IH]; [done|]. cbn [replicate str_count]. by rewrite IH. }
  assert (validate_sequence min_length seq_id (replicate n (chr "A"))
          = Returned (true, Valid)) as Hvalid.
  { apply validate_sequence_accepts. rewrite length_replicate, Hcount.
    split; [done|]. split; [done|]. split; [destruct n; [lia | done]|].
    split; [done | lia]. }
  split; [done|]. split.
  - unfold filter_sequences. cbn [filter_loop]. rewrite Hvalid.
    cbn [dict_set]. by rewrite (preprocess_valid _ Hall).
  - destruct (unpaired_sequence_recursion_depth frames (replicate n (chr "A")))
      as [Hdepth _].
    + destruct n; [lia | done].
    + intros a b Ha Hb. apply elem_of_replicate in Ha as [-> _].
      apply elem_of_replicate in Hb as [-> _]. reflexivity.
    + apply Hdepth. by rewrite length_replicate.
Qed.

Lemma filter_keeps_sequences_too_deep_witness :
  validate_sequence MIN_SEQUENCE_LENGTH "s1" (replicate 20 (chr "A"))
  = Returned (true, Valid) ∧
  filter_sequences MIN_SEQUENCE_LENGTH [("s1"%string, replicate 20 (chr "A"))]
  = Returned [("s1"%string, replicate 20 (chr "A"))] ∧
  predict_structure 20 (replicate 20 (chr "A")) = Raise RecursionError.
Proof.
  apply (filter_keeps_sequences_too_deep 20 20 MIN_SEQUENCE_LENGTH "s1");
    [lia | reflexivity | lia].
Defined.
